(** * joint_dependency.simulation: a shallow embedding and its properties

    The simulation core of [joint_dependency/simulation.py]: joints with
    piecewise damping and hard limits, the world that ticks them, the
    force/position controllers, the lockers coupling joints, and the
    action machine that drives controllers and probes joint mobility.

    - Numbers are real numbers: Python floats and ints without rounding.
    - Objects that Python shares by reference live in the world's stores: a
      Joint is named by its position in [World.joints], a listener
      (Controller, Locker, MultiLocker) by its position in
      [World.listeners].  A method that touches another object runs on
      that object taken from the store, and the store is updated with
      what the method leaves.
    - Methods that mutate and may raise are state transformers in the
      monad [M]; the state reached at a raise is kept, as Python keeps the
      mutations made before an exception.  Methods that only mutate are
      functions from the object to the object.
    - [M] also collects a ghost history of the method calls made, which
      the program never reads; it is what the ordering properties are
      stated on.
    - The one unbounded loop, in [ActionMachine.run_action], takes fuel.
    - The generator of Python's [random] module is a stream of standard
      normal deviates with a read position. *)

From stdpp Require Import base list.
From Stdlib Require Import Reals Lra Sorted.

Local Open Scope R_scope.

(** ** Python values, exceptions, outcomes *)

(** What a caller may hand over as a goal: a number, or a tuple of numbers. *)
Inductive value : Type :=
  | VNum (x : R)
  | VTuple (xs : list R).

Inductive exn : Type :=
  | IndexError
  | TypeError
  | AttributeError
  | BadReference.
  (* [BadReference]: an index that names no object of a store.  Python
     references cannot dangle; this outcome exists in the model only. *)

(** [Timeout] is the model's account of a [while] loop that has used up
    its fuel; Python would go on looping. *)
Inductive outcome (A : Type) : Type :=
  | Ret (a : A)
  | Raise (e : exn)
  | Timeout.
Arguments Ret {A} a.
Arguments Raise {A} e.
Arguments Timeout {A}.

(** Ghost history of method calls, in program order.  Never read by the
    program; objects are named by their store positions. *)
Inductive call : Type :=
  | CWorldStep (dt : R)
  | CJointStep (i : nat) (now dt : R)
  | CListenerStep (k : nat) (now dt : R)
  | CAddForce (i : nat) (f : R)
  | CLock (i : nat)
  | CUnlock (i : nat)
  | CMoveTo (k : nat) (goal : value)
  | CApplyForce (k : nat) (duration force : R).

(** ** The state, exception and history monad *)

Definition M (S A : Type) : Type := S -> outcome A * S * list call.

Definition ret {S A} (a : A) : M S A := fun s => (Ret a, s, []).

Definition bind {S A B} (m : M S A) (f : A -> M S B) : M S B :=
  fun s =>
    match m s with
    | (Ret a, s1, h1) => let '(r, s2, h2) := f a s1 in (r, s2, h1 ++ h2)
    | (Raise e, s1, h1) => (Raise e, s1, h1)
    | (Timeout, s1, h1) => (Timeout, s1, h1)
    end.

Definition raise {S A} (e : exn) : M S A := fun s => (Raise e, s, []).
Definition timeout {S A} : M S A := fun s => (Timeout, s, []).
Definition get {S} : M S S := fun s => (Ret s, s, []).
Definition gets {S A} (f : S -> A) : M S A := fun s => (Ret (f s), s, []).
Definition modify {S} (f : S -> S) : M S unit := fun s => (Ret tt, f s, []).
Definition emit {S} (c : call) : M S unit := fun s => (Ret tt, s, [c]).

(** Run a method of a sub-object [T] inside the state [S] that holds it. *)
Definition zoom {S T A} (get : S -> T) (set : T -> S -> S) (m : M T A) : M S A :=
  fun s => let '(r, t, h) := m (get s) in (r, set t s, h).

Declare Scope monad_scope.
Delimit Scope monad_scope with monad.
Notation "x <- m ;; k" := (bind m (fun x => k))
  (at level 100, m at next level, right associativity) : monad_scope.
Notation "m ;; k" := (bind m (fun _ => k))
  (at level 100, right associativity) : monad_scope.
Local Open Scope monad_scope.

(** [for x in xs: body(x)] *)
Fixpoint for_each {S X} (xs : list X) (body : X -> M S unit) : M S unit :=
  match xs with
  | [] => ret tt
  | x :: rest => body x ;; for_each rest body
  end.

(** [enumerate(xs)] *)
Definition enumerate {X} (xs : list X) : list (nat * X) :=
  zip (seq 0 (length xs)) xs.

Definition result_of {S A} (x : outcome A * S * list call) : outcome A := x.1.1.
Definition state_of {S A} (x : outcome A * S * list call) : S := x.1.2.
Definition calls_of {S A} (x : outcome A * S * list call) : list call := x.2.

(** ** Comparisons on numbers *)

#[global] Instance Rlt_decision (x y : R) : Decision (x < y) := Rlt_dec x y.
#[global] Instance Rle_decision (x y : R) : Decision (x <= y) := Rle_dec x y.
#[global] Instance Rgt_decision (x y : R) : Decision (x > y) := Rgt_dec x y.

(** ** Module-level functions *)

(** [get_state(q, states)]: the variable [i] is set to 0 before the loop,
    is assigned by every iteration, and survives the loop. *)
Fixpoint get_state_loop (i : nat) (q : R) (items : list (nat * R)) : nat :=
  match items with
  | [] => (i + 1)%nat
  | (i', k) :: rest => if decide (q < k) then i' else get_state_loop i' q rest
  end.

Definition get_state (q : R) (states : list R) : nat :=
  get_state_loop 0 q (enumerate states).

Definition sgn (x : R) : R := if decide (x < 0) then -1 else 1.

(** ** [random]: the process-wide generator *)

Module Random.
(** [normals n] is the [n]-th standard normal deviate the generator will
    produce; [draws] counts the deviates consumed so far. *)
Record t : Type := mk { normals : nat -> R; draws : nat }.

(** [random.gauss(mu, sigma)] *)
Definition gauss (mu sigma : R) : M t R :=
  fun g => (Ret (mu + normals g (draws g) * sigma),
            mk (normals g) (S (draws g)), []).
End Random.

(** ** Joint *)

(** [max_vel] is [np.inf] unless a caller overwrites it. *)
Inductive bound : Type :=
  | Finite (m : R)
  | Infinity.

(** [min(x, b)] against a bound that may be infinite. *)
Definition min_bound (x : R) (b : bound) : R :=
  match b with
  | Finite m => Rmin x m
  | Infinity => x
  end.

(** The noise dictionary, keys ['q'] and ['vel']. *)
Record noise_t : Type := mk_noise { noise_q : R; noise_vel : R }.

Module Joint.
Record t : Type := mk {
  index : option nat;
  max_vel : bound;
  vel : R;
  q : R;
  states : list R;
  dampings : list R;
  min_limit : option R;
  max_limit : option R;
  direction : R;
  locked : bool;
  noise : noise_t
}.

(** The list [[q, v, locked, direction]] that [step] returns and the
    [Record] decorator hands to the recorder. *)
Definition sample : Type := R * R * bool * R.

Definition set_vel (x : R) (j : t) : t :=
  mk (index j) (max_vel j) x (q j) (states j) (dampings j)
     (min_limit j) (max_limit j) (direction j) (locked j) (noise j).
Definition set_q (x : R) (j : t) : t :=
  mk (index j) (max_vel j) (vel j) x (states j) (dampings j)
     (min_limit j) (max_limit j) (direction j) (locked j) (noise j).
Definition set_locked (b : bool) (j : t) : t :=
  mk (index j) (max_vel j) (vel j) (q j) (states j) (dampings j)
     (min_limit j) (max_limit j) (direction j) b (noise j).
Definition set_index (i : nat) (j : t) : t :=
  mk (Some i) (max_vel j) (vel j) (q j) (states j) (dampings j)
     (min_limit j) (max_limit j) (direction j) (locked j) (noise j).

Definition init (states dampings : list R) (limits : option R * option R)
    (noise : noise_t) (index : option nat) : t :=
  mk index Infinity 0 0 states dampings limits.1 limits.2 1 false noise.

Definition add_force (f : R) (j : t) : t :=
  if negb (locked j) then
    let state := get_state (q j) (states j) in
    let j := set_vel (vel j + f) j in
    set_vel (min_bound (vel j) (max_vel j)) j
  else j.

Definition lock (j : t) : t := set_locked true (set_vel 0 j).
Definition unlock (j : t) : t := set_locked false j.
Definition is_locked (j : t) : bool := locked j.

(** [self.dampings[state]] *)
Definition damping_at (state : nat) : M t R :=
  fun j => match dampings j !! state with
           | Some d => (Ret d, j, [])
           | None => (Raise IndexError, j, [])
           end.

(** [step(dt)], the function under the [Record] decorator.  The decorator
    comes from [joint_dependency.recorder]; it is taken to pass the call
    through and to hand the returned list to the recorder.  The local
    [vel = self.vel * dt] is never read and is left out. *)
Definition step (dt : R) : M t sample :=
  is_locked <- gets locked;;
  if is_locked then
    j <- get;; ret (q j, vel j, locked j, 0)
  else
    modify (fun j => set_q (q j + vel j * dt) j);;
    over <- gets (fun j => match max_limit j with
                           | Some m => bool_decide (q j > m)
                           | None => false
                           end);;
    change_direction <-
      (if over then
         modify (fun j => set_q (default (q j) (max_limit j)) j);; ret 1
       else ret (-1));;
    under <- gets (fun j => match min_limit j with
                            | Some m => bool_decide (q j < m)
                            | None => false
                            end);;
    change_direction <-
      (if under then
         modify (fun j => set_q (default (q j) (min_limit j)) j);; ret 1
       else ret change_direction);;
    state <- gets (fun j => get_state (q j) (states j));;
    damping <- damping_at state;;
    v <- gets vel;;
    let direction := - change_direction * sgn v in
    let tmp_sqr_vel := Rmax (v ^ 2 - Rabs (damping * v * dt)) 0 in
    modify (set_vel (direction * sqrt tmp_sqr_vel));;
    j <- get;;
    ret (q j, vel j, locked j, direction).

Definition get_vel (j : t) : M Random.t R :=
  Random.gauss (vel j) (noise_vel (noise j)).
Definition get_q (j : t) : M Random.t R :=
  Random.gauss (q j) (noise_q (noise j)).
End Joint.

(** ** ForceController *)

Module ForceController.
Record t : Type := mk { joint : nat; time : R; force : R }.

Definition init (joint_idx : nat) : t := mk joint_idx 0 0.

Definition apply_force (time force : R) (fc : t) : t :=
  mk (joint fc) time force.

Definition is_done (fc : t) : bool := bool_decide (time fc <= 0).

Definition step (dt : R) : M t R :=
  modify (fun fc => mk (joint fc) (Rmax 0 (time fc - dt)) (force fc));;
  remaining <- gets time;;
  if bool_decide (remaining > 0) then gets force else ret 0.
End ForceController.

(** ** PositionController *)

(** A goal used as a number in arithmetic with a float: a tuple raises. *)
Definition as_number {S} (v : value) : M S R :=
  match v with
  | VNum x => ret x
  | VTuple _ => raise TypeError
  end.

Module PositionController.
Record t : Type := mk {
  goal_pos : option value;
  joint : nat;
  q_eps : R;
  v_eps : R;
  q : R;
  v : R;
  i : R;
  kp : R;
  kd : R;
  ki : R;
  max_force : R
}.

Definition set_goal_pos (g : option value) (pc : t) : t :=
  mk g (joint pc) (q_eps pc) (v_eps pc) (q pc) (v pc) (i pc)
     (kp pc) (kd pc) (ki pc) (max_force pc).
Definition set_q (x : R) (pc : t) : t :=
  mk (goal_pos pc) (joint pc) (q_eps pc) (v_eps pc) x (v pc) (i pc)
     (kp pc) (kd pc) (ki pc) (max_force pc).
Definition set_v (x : R) (pc : t) : t :=
  mk (goal_pos pc) (joint pc) (q_eps pc) (v_eps pc) (q pc) x (i pc)
     (kp pc) (kd pc) (ki pc) (max_force pc).
Definition set_i (x : R) (pc : t) : t :=
  mk (goal_pos pc) (joint pc) (q_eps pc) (v_eps pc) (q pc) (v pc) x
     (kp pc) (kd pc) (ki pc) (max_force pc).

Definition init (joint_idx : nat) : t :=
  mk None joint_idx 0.5 0.01 0 0 0 2 1 0 30.

Definition move_to (pos : value) (pc : t) : t := set_goal_pos (Some pos) pc.

(** [j] is the object [self.joint], which this method only reads. *)
Definition is_done (j : Joint.t) : M t bool :=
  pc <- get;;
  match goal_pos pc with
  | None => ret true
  | Some goal =>
      g <- as_number goal;;
      if bool_decide (Rabs (q pc - g) < q_eps pc)
         && bool_decide (Rabs (v pc) < v_eps pc)
      then ret true
      else if Joint.is_locked j then ret true
      else ret false
  end.

Definition _pid_control (j : Joint.t) : M t R :=
  pc <- get;;
  match goal_pos pc with
  | None => ret 0
  | Some goal =>
      done <- is_done j;;
      if done then ret 0
      else
        g <- as_number goal;;
        modify (fun pc => set_i (i pc + (g - q pc)) pc);;
        pc <- get;;
        ret (kp pc * (g - q pc) + kd pc * (- v pc) + ki pc * i pc)
  end.

(** The state is the controller together with the generator that the
    joint's noisy sensors draw from. *)
Definition step (dt : R) (j : Joint.t) : M (t * Random.t) R :=
  x <- zoom snd (fun g s => (s.1, g)) (Joint.get_q j);;
  modify (fun s => (set_q x s.1, s.2));;
  y <- zoom snd (fun g s => (s.1, g)) (Joint.get_vel j);;
  modify (fun s => (set_v y s.1, s.2));;
  zoom fst (fun pc s => (pc, s.2)) (_pid_control j).
End PositionController.

(** ** Controller *)

Module Controller.
Record t : Type := mk {
  joint : nat;
  index : nat;
  force_control : bool;
  force_controller : ForceController.t;
  position_control : bool;
  position_controller : PositionController.t;
  max_force : R
}.

Definition set_force_control (b : bool) (c : t) : t :=
  mk (joint c) (index c) b (force_controller c) (position_control c)
     (position_controller c) (max_force c).
Definition set_force_controller (fc : ForceController.t) (c : t) : t :=
  mk (joint c) (index c) (force_control c) fc (position_control c)
     (position_controller c) (max_force c).
Definition set_position_control (b : bool) (c : t) : t :=
  mk (joint c) (index c) (force_control c) (force_controller c) b
     (position_controller c) (max_force c).
Definition set_position_controller (pc : PositionController.t) (c : t) : t :=
  mk (joint c) (index c) (force_control c) (force_controller c)
     (position_control c) pc (max_force c).

(** The fields of [__init__]; the registration with the world is
    [World.new_controller]. *)
Definition init (joint_idx : nat) : t :=
  mk joint_idx joint_idx false (ForceController.init joint_idx)
     false (PositionController.init joint_idx) 15.

(** What [step] can touch: the controller itself, the Joint object it
    holds in [self.joint], and the generator. *)
Record scene : Type := mk_scene {
  self : t;
  joint_obj : Joint.t;
  rand : Random.t
}.

Definition on_self (f : t -> t) (s : scene) : scene :=
  mk_scene (f (self s)) (joint_obj s) (rand s).
Definition on_joint_obj (f : Joint.t -> Joint.t) (s : scene) : scene :=
  mk_scene (self s) (f (joint_obj s)) (rand s).

(** [step(dt)], the function under the [Record] decorator.  The joint of
    [self.position_controller] is the object in [self.joint]: both are
    [world.joints[joint_idx]], taken in [__init__]. *)
Definition step (dt : R) : M scene (R * R) :=
  let desired_force := 0 in
  force_control0 <- gets (fun s => force_control (self s));;
  desired_force <-
    (if force_control0 then
       done <- gets (fun s => ForceController.is_done (force_controller (self s)));;
       if done then
         modify (on_self (set_force_control false));; ret desired_force
       else
         zoom (fun s => force_controller (self s))
              (fun fc => on_self (set_force_controller fc))
              (ForceController.step dt)
     else
       position_control0 <- gets (fun s => position_control (self s));;
       if position_control0 then
         j <- gets joint_obj;;
         done <- zoom (fun s => position_controller (self s))
                      (fun pc => on_self (set_position_controller pc))
                      (PositionController.is_done j);;
         if done then
           modify (on_self (set_position_control false));; ret desired_force
         else
           zoom (fun s => (position_controller (self s), rand s))
                (fun p s => mk_scene (set_position_controller p.1 (self s))
                                     (joint_obj s) p.2)
                (PositionController.step dt j)
       else ret desired_force);;
  let sign := sgn desired_force in
  limit <- gets (fun s => max_force (self s));;
  let applied_force := sign * Rmin (Rabs desired_force) limit in
  target <- gets (fun s => joint (self s));;
  emit (CAddForce target applied_force);;
  modify (on_joint_obj (Joint.add_force applied_force));;
  ret (applied_force, desired_force).

Definition move_to (goal : value) (c : t) : t :=
  set_position_control true
    (set_position_controller
       (PositionController.move_to goal (position_controller c)) c).

Definition apply_force (time force : R) (c : t) : t :=
  set_force_control true
    (set_force_controller
       (ForceController.apply_force time force (force_controller c)) c).

Definition is_done (c : t) : bool :=
  negb (position_control c) && negb (force_control c).
End Controller.

(** ** Locker and MultiLocker *)

(** Both lockers run on the Joint object they hold in [self.locked];
    [locker_q] is [self.locker.q], read before any mutation (the two
    objects may be one and the same: neither [lock] nor [unlock] writes
    [q]). *)

Module Locker.
Record t : Type := mk { locker : nat; locked : nat; lower : R; upper : R }.

Definition step (l : t) (dt : R) (locker_q : R) : M Joint.t unit :=
  if bool_decide (lower l < locker_q) && bool_decide (locker_q < upper l) then
    is_locked <- gets Joint.is_locked;;
    if negb is_locked then emit (CLock (locked l));; modify Joint.lock
    else ret tt
  else
    is_locked <- gets Joint.is_locked;;
    if is_locked then emit (CUnlock (locked l));; modify Joint.unlock
    else ret tt.
End Locker.

Module MultiLocker.
Record t : Type := mk { locker : nat; locked : nat; locks : list (R * R) }.

(** The loop over [self.locks]. *)
Definition should_be_locked (locks : list (R * R)) (locker_q : R) : bool :=
  fold_left
    (fun should lock =>
       if bool_decide (lock.1 <= locker_q) && bool_decide (locker_q <= lock.2)
       then true else should)
    locks false.

Definition step (m : t) (dt : R) (locker_q : R) : M Joint.t unit :=
  is_locked <- gets Joint.is_locked;;
  let should := should_be_locked (locks m) locker_q in
  if is_locked && negb should then
    emit (CUnlock (locked m));; modify Joint.unlock
  else if negb is_locked && should then
    emit (CLock (locked m));; modify Joint.lock
  else ret tt.
End MultiLocker.

(** ** World *)

(** Anything registered with a world: the objects with a [step(dt)]. *)
Inductive listener : Type :=
  | LController (c : Controller.t)
  | LLocker (l : Locker.t)
  | LMultiLocker (m : MultiLocker.t).

Module World.
(** [random] is the generator of Python's [random] module, kept with the
    world whose sensors draw from it. *)
Record t : Type := mk {
  joints : list Joint.t;
  listeners : list listener;
  time : R;
  random : Random.t
}.

Definition set_joints (js : list Joint.t) (w : t) : t :=
  mk js (listeners w) (time w) (random w).
Definition set_listeners (ls : list listener) (w : t) : t :=
  mk (joints w) ls (time w) (random w).
Definition set_time (x : R) (w : t) : t :=
  mk (joints w) (listeners w) x (random w).

Definition init (joints : list Joint.t) (g : Random.t) : t :=
  mk joints [] 0 g.

Definition register (l : listener) (w : t) : t :=
  set_listeners (listeners w ++ [l]) w.

(** [self.joints[num]] *)
Definition get_joint (num : nat) : M t Joint.t :=
  fun w => match joints w !! num with
           | Some j => (Ret j, w, [])
           | None => (Raise IndexError, w, [])
           end.

Definition add_joint (j : Joint.t) (w : t) : t :=
  let w := set_joints (joints w ++ [j]) w in
  let i := (length (joints w) - 1)%nat in
  set_joints (alter (Joint.set_index i) i (joints w)) w.

(** The Joint object behind a reference held by a listener. *)
Definition joint_ref (i : nat) : M t Joint.t :=
  fun w => match joints w !! i with
           | Some j => (Ret j, w, [])
           | None => (Raise BadReference, w, [])
           end.

(** Run a Joint method on the object at position [i] of the store. *)
Definition at_joint {A} (i : nat) (m : M Joint.t A) : M t A :=
  j <- joint_ref i;;
  zoom (fun _ => j) (fun j' w => set_joints (<[i := j']> (joints w)) w) m.

Definition listener_ref (k : nat) : M t listener :=
  fun w => match listeners w !! k with
           | Some l => (Ret l, w, [])
           | None => (Raise BadReference, w, [])
           end.

(** [listener.step(dt)] for the listener at position [k], by the class of
    the object found there. *)
Definition listener_step (k : nat) (dt : R) : M t unit :=
  l <- listener_ref k;;
  match l with
  | LController c =>
      j <- joint_ref (Controller.joint c);;
      zoom (fun w => Controller.mk_scene c j (random w))
           (fun sc w =>
              mk (<[Controller.joint c := Controller.joint_obj sc]> (joints w))
                 (<[k := LController (Controller.self sc)]> (listeners w))
                 (time w) (Controller.rand sc))
           (Controller.step dt);;
      ret tt
  | LLocker l =>
      a <- joint_ref (Locker.locker l);;
      at_joint (Locker.locked l) (Locker.step l dt (Joint.q a))
  | LMultiLocker m =>
      a <- joint_ref (MultiLocker.locker m);;
      at_joint (MultiLocker.locked m) (MultiLocker.step m dt (Joint.q a))
  end.

Definition _inform_listeners (dt : R) : M t unit :=
  n <- gets (fun w => length (listeners w));;
  for_each (seq 0 n)
    (fun k =>
       now <- gets time;;
       emit (CListenerStep k now dt);;
       listener_step k dt).

Definition step (dt : R) : M t unit :=
  emit (CWorldStep dt);;
  modify (fun w => set_time (time w + dt) w);;
  n <- gets (fun w => length (joints w));;
  for_each (seq 0 n)
    (fun i =>
       now <- gets time;;
       emit (CJointStep i now dt);;
       at_joint i (Joint.step dt);;
       ret tt);;
  _inform_listeners dt.

(** [Controller(world, joint_idx)]: the new object is registered and its
    position among the listeners is the reference to it. *)
Definition new_controller (joint_idx : nat) : M t nat :=
  get_joint joint_idx;;
  k <- gets (fun w => length (listeners w));;
  modify (register (LController (Controller.init joint_idx)));;
  ret k.

(** [Locker(world, locker, locked, lower, upper)] *)
Definition new_locker (locker locked : nat) (lower upper : R) : M t nat :=
  k <- gets (fun w => length (listeners w));;
  modify (register (LLocker (Locker.mk locker locked lower upper)));;
  ret k.

(** [MultiLocker(world, locker, locked, locks)] *)
Definition new_multilocker (locker locked : nat) (locks : list (R * R)) : M t nat :=
  k <- gets (fun w => length (listeners w));;
  modify (register (LMultiLocker (MultiLocker.mk locker locked locks)));;
  ret k.

(** A Controller method called through a reference [k]; an object of
    another class has no such attribute. *)
Definition at_controller {A} (k : nat) (m : M Controller.t A) : M t A :=
  l <- listener_ref k;;
  match l with
  | LController c =>
      zoom (fun _ => c)
           (fun c' w => set_listeners (<[k := LController c']> (listeners w)) w)
           m
  | _ => raise AttributeError
  end.
End World.

(** ** ActionMachine *)

Module ActionMachine.
(** [controllers] holds references: positions in [World.listeners]. *)
Record t : Type := mk { controllers : list nat; tau : R }.

(** [__init__(self, world, controller, tau=0.1)] *)
Definition init (controller : list nat) (tau : option R) : t :=
  mk controller (default 0.1 tau).

(** [self.controllers[j]] *)
Definition controller_at (am : t) (j : nat) : M World.t nat :=
  match controllers am !! j with
  | Some c => ret c
  | None => raise IndexError
  end.

(** [while not self.controllers[j].is_done(): self.world.step(self.tau)] *)
Fixpoint wait_done (fuel : nat) (am : t) (j : nat) : M World.t unit :=
  c <- controller_at am j;;
  done <- World.at_controller c (gets Controller.is_done);;
  if negb done then
    match fuel with
    | O => timeout
    | S fuel' => World.step (tau am);; wait_done fuel' am j
    end
  else ret tt.

Definition run_action (fuel : nat) (am : t) (pos : list value) : M World.t unit :=
  for_each (enumerate pos)
    (fun '(j, p) =>
       c <- controller_at am j;;
       emit (CMoveTo c p);;
       World.at_controller c (modify (Controller.move_to p));;
       wait_done fuel am j).

Definition check_state (am : t) (joint : nat) : M World.t nat :=
  old <- World.get_joint joint;;
  let old_pos := Joint.q old in
  c <- controller_at am joint;;
  emit (CApplyForce c 1 10);;
  World.at_controller c (modify (Controller.apply_force 1 10));;
  for_each (seq 0 10) (fun i => World.step (tau am));;
  new <- World.get_joint joint;;
  let new_pos := Joint.q new in
  let locked_state :=
    if bool_decide (Rabs (old_pos - new_pos) > 0.01) then 0%nat else 1%nat in
  ret locked_state.
End ActionMachine.

(** ** Furniture, worlds and the lockbox *)

(** The numbers that the generators return are arguments of the
    factories: the results of [np.random.randint], [np.random.uniform],
    [random.choice] and [random.randint].  [limits] is the list of
    [[min, max]] pairs, one per joint.  [create_window], which nothing
    calls (its branch of [create_furniture] is commented out) and which
    hands a pair of numbers to MultiLocker where a list of pairs is read,
    is left out, as is [World.get_index], a pandas timestamp. *)

Module Furniture.
Inductive t : Type := drawer_key | drawer_handle | cupboard_key | cupboard_handle.
End Furniture.

Definition limits_t : Type := (R * R) * (R * R).

(** [world.joints[-k]] for [k >= 1], as a position in [World.joints]. *)
Definition joint_from_end (k : nat) : M World.t nat :=
  n <- gets (fun w => length (World.joints w));;
  if (k <=? n)%nat then ret (n - k)%nat else raise IndexError.

(** [open_at] is the number that
    [np.random.randint(limits[0][0]+20, limits[0][1]-20)] returned. *)
Definition create_drawer_with_key (open_at : R) (noise : noise_t) (limits : limits_t)
    : M World.t unit :=
  let open_d := (open_at - 10, open_at + 10) in
  let states := [open_d.1; open_d.2] in
  let dampings := [15; 200; 15] in
  modify (World.add_joint
            (Joint.init states dampings (Some limits.1.1, Some limits.1.2) noise None));;
  let states := [limits.2.2] in
  let dampings := [15; 15] in
  modify (World.add_joint
            (Joint.init states dampings (Some limits.2.1, Some limits.2.2) noise None));;
  locker <- joint_from_end 2;;
  locked <- joint_from_end 1;;
  World.new_multilocker locker locked
    [(limits.1.1, open_d.1); (open_d.2, limits.1.2)];;
  ret tt.

(** [u] is the number that [np.random.uniform()] returned. *)
Definition create_drawer_with_handle (u : R) (noise : noise_t) (limits : limits_t)
    : M World.t unit :=
  let open_upper := bool_decide (u > 0.5) in
  let '(open_d, locked_d) :=
    if open_upper
    then ((limits.1.2 - 20, limits.1.2), (limits.1.1, limits.1.2 - 20))
    else ((limits.1.1, limits.1.1 + 20), (limits.1.1 + 20, limits.1.2)) in
  let states := [open_d.1; open_d.2] in
  let dampings := [15; 200; 15] in
  modify (World.add_joint
            (Joint.init states dampings (Some limits.1.1, Some limits.1.2) noise None));;
  let states := [limits.2.2] in
  let dampings := [15; 15] in
  modify (World.add_joint
            (Joint.init states dampings (Some limits.2.1, Some limits.2.2) noise None));;
  locker <- joint_from_end 2;;
  locked <- joint_from_end 1;;
  World.new_multilocker locker locked [locked_d];;
  ret tt.

Definition create_cupboard_with_key (open_at : R) (noise : noise_t) (limits : limits_t)
    : M World.t unit :=
  let open_d := (open_at - 10, open_at + 10) in
  let states := [open_d.1; open_d.2] in
  let dampings := [15; 200; 15] in
  modify (World.add_joint
            (Joint.init states dampings (Some limits.1.1, Some limits.1.2) noise None));;
  let states := [limits.2.2] in
  let dampings := [15; 15] in
  modify (World.add_joint
            (Joint.init states dampings (Some limits.2.1, Some limits.2.2) noise None));;
  locker <- joint_from_end 2;;
  locked <- joint_from_end 1;;
  World.new_multilocker locker locked
    [(limits.1.1, open_d.1); (open_d.2, limits.1.2)];;
  ret tt.

Definition create_cupboard_with_handle (u : R) (noise : noise_t) (limits : limits_t)
    : M World.t unit :=
  let open_upper := bool_decide (u > 0.5) in
  let '(open_d, locked_d) :=
    if open_upper
    then ((limits.1.2 - 20, limits.1.2), (limits.1.1, limits.1.2 - 20))
    else ((limits.1.1, limits.1.1 + 20), (limits.1.1 + 20, limits.1.2)) in
  let states := [open_d.1; open_d.2] in
  let dampings := [15; 200; 15] in
  modify (World.add_joint
            (Joint.init states dampings (Some limits.1.1, Some limits.1.2) noise None));;
  let states := [limits.2.2] in
  let dampings := [15; 15] in
  modify (World.add_joint
            (Joint.init states dampings (Some limits.2.1, Some limits.2.2) noise None));;
  locker <- joint_from_end 2;;
  locked <- joint_from_end 1;;
  World.new_multilocker locker locked [locked_d];;
  ret tt.

(** [create_furniture(furniture, world, noise, limits)]; [None] is a value
    that is no member of [Furniture], and [draw] the number that the
    chosen factory takes from the generator. *)
Definition create_furniture (furniture : option Furniture.t) (draw : R)
    (noise : noise_t) (limits : limits_t) : M World.t unit :=
  match furniture with
  | Some Furniture.drawer_key => create_drawer_with_key draw noise limits
  | Some Furniture.drawer_handle => create_drawer_with_handle draw noise limits
  | Some Furniture.cupboard_key => create_cupboard_with_key draw noise limits
  | Some Furniture.cupboard_handle => create_cupboard_with_handle draw noise limits
  | None => raise TypeError
  end.

(** [create_world(n=3)]: [choice i] is the furniture that [random.choice]
    returns in round [i], [draw i] the number its factory draws, and [g]
    the generator that the sensors of the new world read. *)
Definition create_world (n : option nat) (choice : nat -> Furniture.t) (draw : nat -> R)
    (g : Random.t) : outcome World.t :=
  let noise := mk_noise 0.00001 0.00001 in
  let world := World.init [] g in
  let x := for_each (seq 0 (default 3%nat n))
             (fun i =>
                let next_furniture := choice i in
                create_furniture (Some next_furniture) (draw i) noise
                  ((0, 180), (0, 120)))
             world in
  match result_of x with
  | Ret _ => Ret (state_of x)
  | Raise e => Raise e
  | Timeout => Timeout
  end.

(** The rounds of the loop of [create_lockbox] for [indices]; [lower] and
    [upper] are the variables of these names as the round before left
    them, which a round reads only when its index is above 0.  The result
    is what the rounds print: the index of the joint and the two ends of
    its opening. *)
Fixpoint lockbox_rounds (m : nat -> R) (noise : noise_t) (indices : list nat)
    (lower upper : R * R) : M World.t (list (nat * R * R)) :=
  match indices with
  | [] => ret []
  | i :: rest =>
      let limits := (Some 0, Some 180) in
      let dampings := [15; 200; 15] in
      let m_i := m i in
      let locks := [lower; upper] in
      let lower := (0, m_i - 10) in
      let upper := (m_i + 10, 180) in
      modify (World.add_joint (Joint.init [lower.2; upper.1] dampings limits noise None));;
      (if (0 <? i)%nat then
         World.get_joint (i - 1);;
         World.get_joint i;;
         World.new_multilocker (i - 1) i locks;;
         ret tt
       else ret tt);;
      printed <- lockbox_rounds m noise rest lower upper;;
      ret ((i, lower.2, upper.1) :: printed)
  end.

(** [create_lockbox(num_of_joints=5, noise=None)]: [m i] is the number
    that [random.randint(10, 170)] returns in round [i].  Round 0 does
    not read [lower] and [upper], which have no value yet; they start at
    a pair that is never used. *)
Definition create_lockbox (num_of_joints : option nat) (noise : option noise_t)
    (m : nat -> R) (g : Random.t) : outcome (World.t * list (nat * R * R)) :=
  let noise := default (mk_noise 0.00001 0.00001) noise in
  let world := World.init [] g in
  let x := lockbox_rounds m noise (seq 0 (default 5%nat num_of_joints)) (0, 0) (0, 0) world in
  match result_of x with
  | Ret printed => Ret (state_of x, printed)
  | Raise e => Raise e
  | Timeout => Timeout
  end.

(** * Vocabulary of the properties *)

(** ** Joints *)

(** The integration of this tick ends beyond a hard limit, so that [step]
    clamps the position there and the joint bounces. *)
Definition Joint_hits_limit (dt : R) (j : Joint.t) : Prop :=
  let q1 := Joint.q j + Joint.vel j * dt in
  (exists m, Joint.max_limit j = Some m /\ q1 > m) \/
  (exists m, Joint.min_limit j = Some m /\ q1 < m).

(** What no method ever changes in a joint: its zones. *)
Definition joint_shape (j : Joint.t) : list R * list R :=
  (Joint.states j, Joint.dampings j).

(** Every zone that [get_state] can return has a damping coefficient. *)
Definition shape_ok (sh : list R * list R) : bool :=
  (length sh.1 <? length sh.2)%nat && (1 <? length sh.2)%nat.

Definition joint_ok (j : Joint.t) : bool := shape_ok (joint_shape j).

(** ** Controllers *)

(** The reading of [ForceController.step] that outputs the force whenever
    the remaining duration was positive before the decrement. *)
Definition outputs_while_time_was_positive (dt : R) (fc : ForceController.t) : Prop :=
  dt > 0 ->
  ForceController.time (state_of (ForceController.step dt fc))
    = Rmax 0 (ForceController.time fc - dt) /\
  result_of (ForceController.step dt fc)
    = Ret (if decide (ForceController.time fc > 0)
           then ForceController.force fc else 0).

(** [sign * min(abs(desired_force), max_force)] *)
Definition saturate (limit desired : R) : R :=
  sgn desired * Rmin (Rabs desired) limit.

(** A goal that arithmetic accepts: none yet, or a number. *)
Definition goal_ok (c : Controller.t) : bool :=
  match PositionController.goal_pos (Controller.position_controller c) with
  | Some (VTuple _) => false
  | _ => true
  end.

(** ** Lockers *)

(** The region conditions of the two lockers, as propositions. *)
Definition in_open_interval (lower upper q : R) : Prop := lower < q /\ q < upper.

Definition in_some_closed_interval (locks : list (R * R)) (q : R) : Prop :=
  Exists (fun lock => lock.1 <= q /\ q <= lock.2) locks.

(** A locker's step on the target [j], with result [x], was a guarded
    transition for the region condition [cond]. *)
Definition guarded_transition (target : nat) (cond : Prop) (j : Joint.t)
    (x : outcome unit * Joint.t * list call) : Prop :=
  result_of x = Ret tt /\
  (calls_of x = [CLock target] /\ state_of x = Joint.lock j
     /\ Joint.locked j = false /\ cond
   \/ calls_of x = [CUnlock target] /\ state_of x = Joint.unlock j
     /\ Joint.locked j = true /\ ~ cond
   \/ calls_of x = [] /\ state_of x = j) /\
  (Joint.locked j = true -> cond -> calls_of x = [] /\ state_of x = j) /\
  (Joint.locked j = true -> Joint.vel (state_of x) = Joint.vel j).

(** The joint a listener may lock and unlock. *)
Definition lock_target (l : listener) : option nat :=
  match l with
  | LController _ => None
  | LLocker l => Some (Locker.locked l)
  | LMultiLocker m => Some (MultiLocker.locked m)
  end.

(** ** Well-formed worlds *)

(** The joints a listener refers to, and whether its goal (if it has one)
    is a number. *)
Definition listener_view (l : listener) : list nat * bool :=
  match l with
  | LController c => ([Controller.joint c], goal_ok c)
  | LLocker l => ([Locker.locker l; Locker.locked l], true)
  | LMultiLocker m => ([MultiLocker.locker m; MultiLocker.locked m], true)
  end.

Definition view_ok (n : nat) (v : list nat * bool) : bool :=
  forallb (fun i => (i <? n)%nat) v.1 && v.2.

Definition listener_ok (n : nat) (l : listener) : bool :=
  view_ok n (listener_view l).

(** References name joints of the world, zones have dampings, goals are
    numbers. *)
Definition wf (w : World.t) : bool :=
  forallb joint_ok (World.joints w)
  && forallb (listener_ok (length (World.joints w))) (World.listeners w).

(** ** States of the world *)

(** The position of joint [i], if there is such a joint. *)
Definition position (i : nat) (w : World.t) : option R :=
  Joint.q <$> (World.joints w !! i).

Definition locked_at (i : nat) (w : World.t) : Prop :=
  exists j, World.joints w !! i = Some j /\ Joint.locked j = true.

(** No locker of the world has joint [i] as its target. *)
Definition out_of_reach (i : nat) (w : World.t) : Prop :=
  Forall (fun l => lock_target l <> Some i) (World.listeners w).

(** [n] ticks of size [dt]. *)
Definition ticks (n : nat) (dt : R) : M World.t unit :=
  for_each (seq 0 n) (fun _ => World.step dt).

(** The world once [check_state] has armed the controller [ctl] found at
    position [c]. *)
Definition armed (c : nat) (ctl : Controller.t) (w : World.t) : World.t :=
  World.set_listeners
    (<[c := LController (Controller.apply_force 1 10 ctl)]> (World.listeners w)) w.

(** ** Reading the history *)

Definition is_listener_step (c : call) : bool :=
  match c with CListenerStep _ _ _ => true | _ => false end.

Definition is_world_step (c : call) : bool :=
  match c with CWorldStep _ => true | _ => false end.

Definition is_move_to (c : call) : bool :=
  match c with CMoveTo _ _ => true | _ => false end.

(** The calls a listener makes on joints. *)
Definition is_joint_method (c : call) : bool :=
  match c with
  | CAddForce _ _ | CLock _ | CUnlock _ => true
  | _ => false
  end.

(** The calls that can occur while the listeners run. *)
Definition in_listener_phase (c : call) : bool :=
  is_listener_step c || is_joint_method c.

(** A computation's result with one more call at the head of its history. *)
Definition logged {S A} (c : call) (x : outcome A * S * list call) : outcome A * S * list call :=
  (x.1.1, x.1.2, c :: x.2).

(** The ghost calls of the two loops, from position [a], [n] of them. *)
Definition joint_steps (t dt : R) (a n : nat) : list call :=
  (fun i => CJointStep i t dt) <$> seq a n.

Definition listener_steps (t dt : R) (a n : nat) : list call :=
  (fun k => CListenerStep k t dt) <$> seq a n.

(** The [move_to] calls that [run_action] is to issue for [targets], the
    k-th on the k-th of [controllers]. *)
Definition moves (controllers : list nat) (targets : list R) : list call :=
  zip_with (fun c p => CMoveTo c (VNum p)) controllers targets.

(** ** The reading of [run_action] over (joint index, target) pairs *)

(** Advance the world by ticks of size [tau] until the controller at
    position [c] reports done. *)
Fixpoint advance_until_done (fuel : nat) (tau : R) (c : nat) : M World.t unit :=
  done <- World.at_controller c (gets Controller.is_done);;
  if done then ret tt
  else match fuel with
       | O => timeout
       | S fuel' => World.step tau;; advance_until_done fuel' tau c
       end.

(** What [run_action] is to do for one pair: [move_to(target)] on the
    controller of the joint that the pair names, then ticks until that
    controller is done. *)
Definition drive (fuel : nat) (am : ActionMachine.t) (g : nat * R) : M World.t unit :=
  let '(joint_index, target) := g in
  c <- ActionMachine.controller_at am joint_index;;
  emit (CMoveTo c (VNum target));;
  World.at_controller c (modify (Controller.move_to (VNum target)));;
  advance_until_done fuel (ActionMachine.tau am) c.

(** The pairs in turn. *)
Definition run_action_spec (fuel : nat) (am : ActionMachine.t)
    (goals : list (nat * R)) : M World.t unit :=
  for_each goals (drive fuel am).

(** A (joint index, target) pair as the Python tuple a caller passes. *)
Definition pair_goal (p : nat * R) : value := VTuple [INR p.1; p.2].

(** ** Vocabulary of the proofs *)

(** An outcome with its value dropped. *)
Definition forget {A} (r : outcome A) : outcome unit :=
  match r with
  | Ret _ => Ret tt
  | Raise e => Raise e
  | Timeout => Timeout
  end.

(** The body of the loop over the joints in [World.step]. *)
Definition tick_joint (dt : R) (i : nat) : M World.t unit :=
  now <- gets World.time;;
  emit (CJointStep i now dt);;
  World.at_joint i (Joint.step dt);;
  ret tt.

(** The body of the loop over the listeners in [World._inform_listeners]. *)
Definition inform (dt : R) (k : nat) : M World.t unit :=
  now <- gets World.time;; emit (CListenerStep k now dt);; World.listener_step k dt.

(** The joints after [n] calls of [step], from position [a] on. *)
Definition stepped (dt : R) (a n : nat) (js : list Joint.t) : list Joint.t :=
  imap (fun i j => if decide (a <= i < a + n)%nat
                   then state_of (Joint.step dt j) else j) js.

(** The world between the two loops of [step], after [n] joint steps. *)
Definition midway (dt : R) (n : nat) (w : World.t) : World.t :=
  World.mk (stepped dt 0 n (World.joints w)) (World.listeners w)
           (World.time w + dt) (World.random w).

(** What a listener's step leaves alone, whatever its outcome. *)
Record listener_frame (w w' : World.t) : Prop := {
  frame_time : World.time w' = World.time w;
  frame_q : Joint.q <$> World.joints w' = Joint.q <$> World.joints w;
  frame_shape : joint_shape <$> World.joints w' = joint_shape <$> World.joints w;
  frame_view : listener_view <$> World.listeners w' = listener_view <$> World.listeners w
}.

(** Joint [i] has the lock flag it had, and the lockers their targets. *)
Definition keeps_lock (i : nat) (w w' : World.t) : Prop :=
  Joint.locked <$> (World.joints w' !! i) = Joint.locked <$> (World.joints w !! i) /\
  lock_target <$> World.listeners w' = lock_target <$> World.listeners w.

(** ** The listeners' phase, one listener after the other *)

(** [listener.step(dt)] for the listener [l] registered at position [k]:
    the [step] of its class, on the objects that [l] refers to, and the
    world with what that [step] leaves.  A Controller runs on its joint
    and the generator, a Locker or MultiLocker on its target, with the
    position of its locker joint. *)
Definition step_of_listener (k : nat) (l : listener) (dt : R) (w : World.t)
    : outcome unit * World.t * list call :=
  match l with
  | LController c =>
      match World.joints w !! Controller.joint c with
      | Some j =>
          let y := Controller.step dt (Controller.mk_scene c j (World.random w)) in
          (forget (result_of y),
           World.mk
             (<[Controller.joint c := Controller.joint_obj (state_of y)]> (World.joints w))
             (<[k := LController (Controller.self (state_of y))]> (World.listeners w))
             (World.time w) (Controller.rand (state_of y)),
           calls_of y)
      | None => (Raise BadReference, w, [])
      end
  | LLocker l =>
      match World.joints w !! Locker.locker l, World.joints w !! Locker.locked l with
      | Some a, Some b =>
          let y := Locker.step l dt (Joint.q a) b in
          (result_of y,
           World.set_joints (<[Locker.locked l := state_of y]> (World.joints w)) w,
           calls_of y)
      | _, _ => (Raise BadReference, w, [])
      end
  | LMultiLocker m =>
      match World.joints w !! MultiLocker.locker m,
            World.joints w !! MultiLocker.locked m with
      | Some a, Some b =>
          let y := MultiLocker.step m dt (Joint.q a) b in
          (result_of y,
           World.set_joints (<[MultiLocker.locked m := state_of y]> (World.joints w)) w,
           calls_of y)
      | _, _ => (Raise BadReference, w, [])
      end
  end.

(** The listeners at the positions [ks] in turn: each is announced in the
    history and runs its [step] from the world that the one before it
    left; the first [step] that does not return ends the phase. *)
Fixpoint listeners_in_turn (dt : R) (ks : list nat) (w : World.t)
    : outcome unit * World.t * list call :=
  match ks with
  | [] => (Ret tt, w, [])
  | k :: rest =>
      let y := match World.listeners w !! k with
               | Some l => step_of_listener k l dt w
               | None => (Raise BadReference, w, [])
               end in
      let announced := CListenerStep k (World.time w) dt :: calls_of y in
      match result_of y with
      | Ret _ =>
          let z := listeners_in_turn dt rest (state_of y) in
          (result_of z, state_of z, announced ++ calls_of z)
      | Raise e => (Raise e, state_of y, announced)
      | Timeout => (Timeout, state_of y, announced)
      end
  end.

(** ** Objects used as concrete instances *)

Definition quiet : noise_t := mk_noise 0.00001 0.00001.

Definition calm : Random.t := Random.mk (fun _ => 0) 0.

(** A handle as the furniture factories build it. *)
Definition handle : Joint.t :=
  Joint.init [80; 100] [15; 200; 15] (Some 0, Some 180) quiet None.

(** The same handle, in motion in its middle zone. *)
Definition moving_handle : Joint.t := Joint.set_vel 5 (Joint.set_q 90 handle).

(** A joint with no thresholds and one damping coefficient. *)
Definition zoneless : Joint.t :=
  Joint.init [] [15] (Some 0, Some 180) quiet None.

(** A window as the furniture factories build it. *)
Definition window : Joint.t :=
  Joint.init [120] [15; 15] (Some 0, Some 120) quiet None.

(** A handle whose position locks a window, and a controller for each. *)
Definition lockbox : World.t :=
  let w := World.init [] calm in
  let w := World.add_joint handle w in
  let w := World.add_joint window w in
  let w := state_of (World.new_multilocker 0 1 [(0, 80); (100, 180)] w) in
  let w := state_of (World.new_controller 0 w) in
  state_of (World.new_controller 1 w).

Definition lockbox_machine : ActionMachine.t :=
  ActionMachine.init [1; 2]%nat None.

(** A world with a latch: joint 1 is locked while joint 0 is near 0. *)
Definition latched : World.t :=
  let w := World.init [] calm in
  let w := World.add_joint handle w in
  let w := World.add_joint window w in
  state_of (World.new_locker 0 1 (-10) 10 w).

(** The lockbox with a handle that is stuck: no locker has it as target. *)
Definition jammed : World.t :=
  let w := World.init [] calm in
  let w := World.add_joint (Joint.lock handle) w in
  let w := World.add_joint window w in
  let w := state_of (World.new_multilocker 0 1 [(0, 80); (100, 180)] w) in
  let w := state_of (World.new_controller 0 w) in
  state_of (World.new_controller 1 w).

(** One stuck handle and its controller. *)
Definition stuck : World.t :=
  let w := World.add_joint (Joint.lock handle) (World.init [] calm) in
  state_of (World.new_controller 0 w).

Definition stuck_machine : ActionMachine.t := ActionMachine.init [0%nat] None.

(** ** Vocabulary of the further properties *)

(** The state after [n] runs of [m] from [s], each from the state that the
    run before left. *)
Fixpoint after {St A} (n : nat) (m : M St A) (s : St) : St :=
  match n with
  | O => s
  | S n' => state_of (m (after n' m s))
  end.

(** The joint that a listener's step may write to. *)
Definition acts_on (l : listener) : nat :=
  match l with
  | LController c => Controller.joint c
  | LLocker l => Locker.locked l
  | LMultiLocker m => MultiLocker.locked m
  end.

(** Joint [i] is the locked joint [j], and no locker has it as target. *)
Definition held (i : nat) (j : Joint.t) (w : World.t) : Prop :=
  World.joints w !! i = Some j /\ Joint.locked j = true /\ out_of_reach i w.

(** The listener at position [c] is a controller that reports done. *)
Definition idle_at (c : nat) (w : World.t) : Prop :=
  exists ctl, World.listeners w !! c = Some (LController ctl) /\
              Controller.is_done ctl = true.

(** What a furniture factory adds to a world: a handle with the zones
    [handle_states], a window, and the MultiLocker by which the handle
    locks the window over [locks]. *)
Definition furnished (handle_states : list R) (locks : list (R * R))
    (noise : noise_t) (limits : limits_t) (w : World.t) : World.t :=
  let n := length (World.joints w) in
  World.mk
    (World.joints w
     ++ [Joint.mk (Some n) Infinity 0 0 handle_states [15; 200; 15]
           (Some limits.1.1) (Some limits.1.2) 1 false noise;
         Joint.mk (Some (S n)) Infinity 0 0 [limits.2.2] [15; 15]
           (Some limits.2.1) (Some limits.2.2) 1 false noise])
    (World.listeners w ++ [LMultiLocker (MultiLocker.mk n (S n) locks)])
    (World.time w) (World.random w).

(** The handle is in its stiff zone, the one with damping 200. *)
Definition stiff (handle_states : list R) (q : R) : Prop :=
  [15; 200; 15] !! get_state q handle_states = Some 200.

(** A world made of [n] pieces of furniture: joint [2k] is the handle
    that locks joint [2k+1] through listener [k], and every joint rests
    unlocked at 0 and knows its own position in the world. *)
Definition pieces (n : nat) (w : World.t) : Prop :=
  wf w = true /\
  length (World.joints w) = (2 * n)%nat /\
  length (World.listeners w) = n /\
  (forall k, (k < n)%nat ->
     exists locks,
       World.listeners w !! k
       = Some (LMultiLocker (MultiLocker.mk (2 * k) (2 * k + 1) locks))) /\
  (forall i j, World.joints w !! i = Some j ->
     Joint.index j = Some i /\ Joint.q j = 0 /\ Joint.vel j = 0 /\
     Joint.locked j = false).

(** Joint [i] of a lockbox, listener [k] (joint [k] locks joint [k+1]),
    and the lockbox of [n] joints. *)
Definition lockbox_joint (m : nat -> R) (noise : noise_t) (i : nat) : Joint.t :=
  Joint.mk (Some i) Infinity 0 0 [m i - 10; m i + 10] [15; 200; 15]
    (Some 0) (Some 180) 1 false noise.

Definition lockbox_locker (m : nat -> R) (k : nat) : listener :=
  LMultiLocker (MultiLocker.mk k (S k) [(0, m k - 10); (m k + 10, 180)]).

Definition lockbox_of (m : nat -> R) (noise : noise_t) (g : Random.t) (n : nat) : World.t :=
  World.mk (lockbox_joint m noise <$> seq 0 n) (lockbox_locker m <$> seq 0 (n - 1)) 0 g.

(** The lockbox once its first [k] lockers have run on the fresh joints:
    joints 1 to [k] are locked. *)
Definition lockbox_after (m : nat -> R) (noise : noise_t) (g : Random.t) (n : nat)
    (t : R) (k : nat) : World.t :=
  World.mk
    ((fun i => if decide (1 <= i <= k)%nat
               then Joint.lock (lockbox_joint m noise i)
               else lockbox_joint m noise i) <$> seq 0 n)
    (lockbox_locker m <$> seq 0 (n - 1)) t g.

(** * Properties *)

(** ** The monad *)

Section MonadLaws.
Context {S A B : Type}.
Implicit Types (s : S) (k : A -> M S B).

Lemma bind_ret a k s : (x <- ret a;; k x) s = k a s.
Proof. unfold bind, ret. destruct (k a s) as [[? ?] ?]. reflexivity. Qed.

Lemma bind_get (k : S -> M S B) s : (x <- get;; k x) s = k s s.
Proof. unfold bind, get. destruct (k s s) as [[? ?] ?]. reflexivity. Qed.

Lemma bind_gets (f : S -> A) k s : (x <- gets f;; k x) s = k (f s) s.
Proof. unfold bind, gets. destruct (k (f s) s) as [[? ?] ?]. reflexivity. Qed.

Lemma bind_modify (f : S -> S) (k : unit -> M S B) s : (x <- modify f;; k x) s = k tt (f s).
Proof. unfold bind, modify. destruct (k tt (f s)) as [[? ?] ?]. reflexivity. Qed.

Lemma bind_emit c (k : unit -> M S B) s : (x <- emit c;; k x) s = logged c (k tt s).
Proof. unfold bind, emit, logged. destruct (k tt s) as [[? ?] ?]. reflexivity. Qed.

Lemma bind_raise e k s : (x <- raise e;; k x) s = (Raise e, s, []).
Proof. reflexivity. Qed.

Lemma bind_timeout k s : (x <- timeout;; k x) s = (Timeout, s, []).
Proof. reflexivity. Qed.

Lemma bind_assoc {C} (m : M S A) k (g : B -> M S C) s :
  (y <- (x <- m;; k x);; g y) s = (x <- m;; y <- k x;; g y) s.
Proof.
  unfold bind. destruct (m s) as [[[a| |] s1] h1]; try reflexivity.
  destruct (k a s1) as [[[b| |] s2] h2]; try reflexivity.
  destruct (g b s2) as [[? ?] ?]. rewrite app_assoc. reflexivity.
Qed.
End MonadLaws.

Lemma bind_quiet {S A B} (m : M S A) (k : A -> M S B) s a s1 :
  m s = (Ret a, s1, []) -> (x <- m;; k x) s = k a s1.
Proof. intros E. unfold bind. rewrite E. destruct (k a s1) as [[? ?] ?]. reflexivity. Qed.

Lemma bind_run_raise {S A B} (m : M S A) (k : A -> M S B) s e s1 h1 :
  m s = (Raise e, s1, h1) -> (x <- m;; k x) s = (Raise e, s1, h1).
Proof. intros E. unfold bind. rewrite E. reflexivity. Qed.

Ltac mrun :=
  repeat first
    [ rewrite bind_assoc | rewrite bind_ret | rewrite bind_get | rewrite bind_gets
    | rewrite bind_modify | rewrite bind_emit | rewrite bind_raise | rewrite bind_timeout ].


(** ** Joint *)

Lemma Joint_step_when_locked j dt :
  Joint.locked j = true ->
  Joint.step dt j = (Ret (Joint.q j, Joint.vel j, true, 0), j, []).
Proof.
  intros H. unfold Joint.step. mrun. rewrite H. mrun. rewrite H. reflexivity.
Qed.

Lemma Joint_step_when_unlocked j dt :
  Joint.locked j = false ->
  let q1 := Joint.q j + Joint.vel j * dt in
  let over := match Joint.max_limit j with
              | Some m => bool_decide (q1 > m) | None => false end in
  let q2 := if over then default q1 (Joint.max_limit j) else q1 in
  let under := match Joint.min_limit j with
               | Some m => bool_decide (q2 < m) | None => false end in
  let q3 := if under then default q2 (Joint.min_limit j) else q2 in
  let change_direction := if under then 1 else if over then 1 else -1 in
  let direction := - change_direction * sgn (Joint.vel j) in
  Joint.step dt j =
    match Joint.dampings j !! get_state q3 (Joint.states j) with
    | Some damping =>
        let v := direction *
                 sqrt (Rmax (Joint.vel j ^ 2 - Rabs (damping * Joint.vel j * dt)) 0) in
        (Ret (q3, v, false, direction), Joint.set_vel v (Joint.set_q q3 j), [])
    | None => (Raise IndexError, Joint.set_q q3 j, [])
    end.
Proof.
  intros H; cbv zeta. unfold Joint.step. mrun. rewrite H. mrun.
  cbn [Joint.max_limit Joint.min_limit Joint.q Joint.set_q].
  destruct (Joint.max_limit j) as [hi|] eqn:Ehi;
    [destruct (bool_decide (Joint.q j + Joint.vel j * dt > hi))|];
    mrun; cbn [Joint.max_limit Joint.min_limit Joint.q Joint.set_q default];
    rewrite ?Ehi; cbn [default].
  all: destruct (Joint.min_limit j) as [lo|] eqn:Elo;
    [match goal with |- context [bool_decide (?a < lo)] =>
       destruct (bool_decide (a < lo)) end|];
    mrun; cbn [Joint.max_limit Joint.min_limit Joint.q Joint.set_q default Joint.states];
    rewrite ?Elo; cbn [default].
  all: match goal with |- context [Joint.dampings ?x !! ?n] =>
      destruct (Joint.dampings x !! n) as [d|] eqn:Ed end.
  all: match goal with |- bind (Joint.damping_at ?n) _ ?s = _ =>
      first [ erewrite (bind_quiet (Joint.damping_at n) _ s) by
                (unfold Joint.damping_at; cbn [Joint.dampings Joint.set_q]; rewrite Ed; reflexivity)
            | erewrite (bind_run_raise (Joint.damping_at n) _ s) by
                (unfold Joint.damping_at; cbn [Joint.dampings Joint.set_q]; rewrite Ed; reflexivity) ] end.
  all: mrun; cbn [Joint.vel Joint.set_q Joint.set_vel Joint.q Joint.locked]; rewrite ?H.
  all: try reflexivity.
  all: repeat f_equal; lra.
Qed.

(** C5: for a joint whose locked flag is set, [add_force f] leaves the
    whole joint unchanged for every [f], and [step dt] leaves it unchanged
    for every [dt] and returns the sample [(q, vel, locked, 0)]. *)
Theorem locked_joint_is_inert (j : Joint.t) :
  Joint.locked j = true ->
  (forall f, Joint.add_force f j = j) /\
  (forall dt,
     Joint.step dt j = (Ret (Joint.q j, Joint.vel j, Joint.locked j, 0), j, [])).
Proof.
  intros H; split.
  - intros f. unfold Joint.add_force. rewrite H. reflexivity.
  - intros dt. rewrite H. apply Joint_step_when_locked, H.
Qed.

Lemma sgn_abs x : Rabs (sgn x) = 1.
Proof.
  unfold sgn. destruct (decide (x < 0)).
  - rewrite Rabs_left; lra.
  - rewrite Rabs_right; lra.
Qed.

Lemma friction_shrinks v c : Rabs (sqrt (Rmax (v ^ 2 - Rabs c) 0)) <= Rabs v.
Proof.
  rewrite (Rabs_right (sqrt _)) by (apply Rle_ge, sqrt_pos).
  rewrite <- (sqrt_pow2 (Rabs v)) by apply Rabs_pos.
  apply sqrt_le_1_alt.
  rewrite pow2_abs.
  apply Rmax_lub; [pose proof (Rabs_pos c); lra | apply pow2_ge_0].
Qed.

(** C9: for an unlocked joint, a tick [dt > 0] whose integration does not
    end beyond a limit (no bounce) and whose zone has a positive damping
    coefficient, [step dt] returns and the absolute value of the velocity
    after it is at most the absolute value before. *)
Theorem friction_never_speeds_up (j : Joint.t) (dt d : R) :
  Joint.locked j = false ->
  0 < dt ->
  ~ Joint_hits_limit dt j ->
  Joint.dampings j !! get_state (Joint.q j + Joint.vel j * dt) (Joint.states j) = Some d ->
  0 < d ->
  exists s j', Joint.step dt j = (Ret s, j', []) /\
               Rabs (Joint.vel j') <= Rabs (Joint.vel j).
Proof.
  intros Hl Hdt Hb Hd Hpos.
  rewrite (Joint_step_when_unlocked j dt Hl).
  assert (Hover : match Joint.max_limit j with
                  | Some m => bool_decide (Joint.q j + Joint.vel j * dt > m)
                  | None => false end = false).
  { destruct (Joint.max_limit j) as [m|] eqn:E; [|reflexivity].
    apply bool_decide_eq_false. intros Hgt. apply Hb. left. exists m. auto. }
  rewrite Hover.
  assert (Hunder : match Joint.min_limit j with
                   | Some m => bool_decide (Joint.q j + Joint.vel j * dt < m)
                   | None => false end = false).
  { destruct (Joint.min_limit j) as [m|] eqn:E; [|reflexivity].
    apply bool_decide_eq_false. intros Hgt. apply Hb. right. exists m. auto. }
  rewrite Hunder, Hd.
  eexists _, _; split; [reflexivity|].
  cbn [Joint.vel Joint.set_vel].
  replace (- -1 * sgn (Joint.vel j)) with (sgn (Joint.vel j)) by lra.
  rewrite Rabs_mult, sgn_abs, Rmult_1_l. apply friction_shrinks.
Qed.

Ltac rdec :=
  repeat match goal with
    | |- context [bool_decide ?P] =>
        first [ rewrite (bool_decide_eq_true_2 P) by lra
              | rewrite (bool_decide_eq_false_2 P) by lra ]
    | |- context [decide ?P] =>
        first [ rewrite (decide_True (P:=P)) by lra
              | rewrite (decide_False (P:=P)) by lra ]
    end.

(** ** The functions on concrete inputs *)

Example get_state_zones :
  get_state 5 [10; 20] = 0%nat /\ get_state 10 [10; 20] = 1%nat /\
  get_state 15 [10; 20] = 1%nat /\ get_state 20 [10; 20] = 2%nat /\
  get_state 25 [10; 20] = 2%nat.
Proof.
  unfold get_state, enumerate; cbn [length seq zip zip_with get_state_loop].
  repeat split; rdec; reflexivity.
Qed.

Example sgn_values : sgn (-3) = -1 /\ sgn 0 = 1 /\ sgn 3 = 1.
Proof. unfold sgn. repeat split; rdec; reflexivity. Qed.

Example should_be_locked_bounds :
  let locks := [(10, 20); (50, 60)] in
  MultiLocker.should_be_locked locks 10 = true /\
  MultiLocker.should_be_locked locks 20 = true /\
  MultiLocker.should_be_locked locks 50 = true /\
  MultiLocker.should_be_locked locks 60 = true /\
  MultiLocker.should_be_locked locks 9.99 = false /\
  MultiLocker.should_be_locked locks 30 = false /\
  MultiLocker.should_be_locked locks 60.01 = false.
Proof.
  cbv zeta. unfold MultiLocker.should_be_locked; cbn [fold_left fst snd].
  repeat split; rdec; reflexivity.
Qed.

Example add_force_on_a_free_joint :
  Joint.vel (Joint.add_force 10 handle) = 0 + 10.
Proof. reflexivity. Qed.

Example lock_zeroes_the_velocity :
  Joint.vel (Joint.lock moving_handle) = 0 /\
  Joint.vel (Joint.unlock (Joint.lock moving_handle)) = 0 /\
  Joint.vel (Joint.unlock moving_handle) = 5.
Proof. repeat split. Qed.

Lemma locked_joint_is_inert_witness :
  (forall f, Joint.add_force f (Joint.lock handle) = Joint.lock handle) /\
  (forall dt, Joint.step dt (Joint.lock handle)
              = (Ret (0, 0, true, 0), Joint.lock handle, [])).
Proof. apply (locked_joint_is_inert (Joint.lock handle)). reflexivity. Defined.

Lemma friction_never_speeds_up_witness :
  exists s j', Joint.step 0.1 moving_handle = (Ret s, j', []) /\
               Rabs (Joint.vel j') <= Rabs (Joint.vel moving_handle).
Proof.
  apply (friction_never_speeds_up moving_handle 0.1 200).
  - reflexivity.
  - lra.
  - intros [[m [E H]]|[m [E H]]]; cbn in E; injection E as <-; cbn in H; lra.
  - cbn. rdec. reflexivity.
  - lra.
Defined.

(** C10: over an empty list of thresholds [get_state] returns 1 for every
    position; so for a joint with [states = []] and one damping
    coefficient, [dampings] has no index 1 and an unlocked [step] raises
    [IndexError]. *)
Theorem zone_of_empty_states_is_out_of_range :
  (forall q, get_state q [] = 1%nat) /\
  (forall j dt,
     Joint.states j = [] -> length (Joint.dampings j) = 1%nat ->
     Joint.locked j = false ->
     Joint.dampings j !! 1%nat = None /\
     result_of (Joint.step dt j) = Raise IndexError).
Proof.
  split; [reflexivity|].
  intros j dt Hs Hd Hl.
  assert (Hnone : Joint.dampings j !! 1%nat = None)
    by (apply lookup_ge_None_2; rewrite Hd; constructor).
  split; [exact Hnone|].
  rewrite (Joint_step_when_unlocked j dt Hl), Hs.
  change (get_state _ []) with 1%nat. rewrite Hnone. reflexivity.
Qed.

Lemma zone_of_empty_states_is_out_of_range_witness :
  Joint.dampings zoneless !! 1%nat = None /\
  result_of (Joint.step 0.1 zoneless) = Raise IndexError.
Proof.
  apply (proj2 zone_of_empty_states_is_out_of_range zoneless 0.1); reflexivity.
Defined.

(** ** ForceController *)

Lemma ForceController_step_eq dt fc :
  ForceController.step dt fc =
    (Ret (if decide (ForceController.time fc - dt > 0)
          then ForceController.force fc else 0),
     ForceController.mk (ForceController.joint fc)
       (Rmax 0 (ForceController.time fc - dt)) (ForceController.force fc),
     []).
Proof.
  unfold ForceController.step. mrun. cbn [ForceController.time ForceController.force].
  destruct (decide (ForceController.time fc - dt > 0)) as [Hp|Hn].
  - rewrite bool_decide_eq_true_2; [reflexivity|].
    unfold Rmax. destruct (Rle_dec _ _); lra.
  - rewrite bool_decide_eq_false_2; [reflexivity|].
    unfold Rmax. destruct (Rle_dec _ _); lra.
Qed.

(** C2, as the code has it: for [dt > 0], [step dt] sets the remaining
    duration [d] to [max(0, d - dt)] and returns the force if the duration
    after the decrement is positive, that is if [d > dt], and 0
    otherwise. *)
Theorem ForceController_step_outputs_while_time_remains
    (fc : ForceController.t) (dt : R) :
  dt > 0 ->
  ForceController.time (state_of (ForceController.step dt fc))
    = Rmax 0 (ForceController.time fc - dt) /\
  result_of (ForceController.step dt fc)
    = Ret (if decide (ForceController.time fc > dt)
           then ForceController.force fc else 0).
Proof.
  intros _. rewrite ForceController_step_eq. split; [reflexivity|].
  unfold result_of; cbn [fst]. f_equal.
  destruct (decide (ForceController.time fc - dt > 0));
    destruct (decide (ForceController.time fc > dt)); try reflexivity; lra.
Qed.

Lemma ForceController_step_outputs_while_time_remains_witness :
  ForceController.time (state_of (ForceController.step 0.1 (ForceController.mk 0 1 10)))
    = Rmax 0 (1 - 0.1) /\
  result_of (ForceController.step 0.1 (ForceController.mk 0 1 10))
    = Ret (if decide (1 > 0.1) then 10 else 0).
Proof.
  apply (ForceController_step_outputs_while_time_remains (ForceController.mk 0 1 10) 0.1).
  lra.
Defined.

(** C2, as stated, fails on the tick that uses up the duration. *)
Lemma force_is_cut_on_the_last_tick :
  ~ outputs_while_time_was_positive 1 (ForceController.mk 0 1 10).
Proof.
  intros H. destruct H as [_ H]; [lra|].
  rewrite ForceController_step_eq in H. unfold result_of in H; cbn in H.
  rewrite decide_False in H by lra. rewrite decide_True in H by lra.
  injection H as H. lra.
Qed.

(** ** Locker and MultiLocker *)

Lemma Locker_step_eq l dt q j :
  Locker.step l dt q j =
    if bool_decide (Locker.lower l < q) && bool_decide (q < Locker.upper l) then
      if Joint.locked j then (Ret tt, j, [])
      else (Ret tt, Joint.lock j, [CLock (Locker.locked l)])
    else
      if Joint.locked j then (Ret tt, Joint.unlock j, [CUnlock (Locker.locked l)])
      else (Ret tt, j, []).
Proof.
  unfold Locker.step, Joint.is_locked.
  destruct (_ && _); mrun; destruct (Joint.locked j); cbn [negb]; mrun; reflexivity.
Qed.

Lemma MultiLocker_step_eq m dt q j :
  MultiLocker.step m dt q j =
    let should := MultiLocker.should_be_locked (MultiLocker.locks m) q in
    if Joint.locked j && negb should then
      (Ret tt, Joint.unlock j, [CUnlock (MultiLocker.locked m)])
    else if negb (Joint.locked j) && should then
      (Ret tt, Joint.lock j, [CLock (MultiLocker.locked m)])
    else (Ret tt, j, []).
Proof.
  unfold MultiLocker.step, Joint.is_locked. mrun. cbv zeta.
  destruct (Joint.locked j), (MultiLocker.should_be_locked _ _); cbn [negb andb];
    mrun; reflexivity.
Qed.

Lemma open_interval_decide lower upper q :
  bool_decide (lower < q) && bool_decide (q < upper) = true
  <-> in_open_interval lower upper q.
Proof.
  unfold in_open_interval.
  rewrite andb_true_iff, !bool_decide_eq_true. reflexivity.
Qed.

Lemma should_be_locked_fold locks q acc :
  fold_left
    (fun should (lock : R * R) =>
       if bool_decide (lock.1 <= q) && bool_decide (q <= lock.2)
       then true else should) locks acc = true
  <-> acc = true \/ in_some_closed_interval locks q.
Proof.
  unfold in_some_closed_interval.
  revert acc; induction locks as [|lock locks IH]; intros acc; cbn [fold_left].
  - rewrite Exists_nil. tauto.
  - rewrite IH, Exists_cons.
    destruct (bool_decide (lock.1 <= q) && bool_decide (q <= lock.2)) eqn:E.
    + apply andb_true_iff in E as [E1 E2].
      apply bool_decide_eq_true in E1, E2. tauto.
    + assert (~ (lock.1 <= q /\ q <= lock.2)).
      { intros [H1 H2]. apply andb_false_iff in E as [E|E];
          apply bool_decide_eq_false in E; tauto. }
      tauto.
Qed.

Lemma should_be_locked_iff locks q :
  MultiLocker.should_be_locked locks q = true <-> in_some_closed_interval locks q.
Proof.
  unfold MultiLocker.should_be_locked. rewrite should_be_locked_fold.
  split; [intros [?|?]; [discriminate|assumption] | auto].
Qed.

Ltac guarded Hc :=
  unfold guarded_transition, result_of, state_of, calls_of; cbn [fst snd negb andb];
  repeat split; intros; try discriminate; try tauto; try congruence;
  try (exfalso; rewrite <- Hc in *; discriminate);
  try (right; left; repeat split; try assumption; rewrite <- Hc; discriminate).

(** C7: a step of a Locker or of a MultiLocker calls [lock] only when the
    target is unlocked and the region condition holds, [unlock] only when
    the target is locked and the condition fails, and nothing otherwise;
    a target that is locked while the condition holds is left as it is,
    and a locked target keeps its velocity in every case. *)
Theorem lock_transitions_are_guarded (dt q : R) (j : Joint.t) :
  (forall l : Locker.t,
     guarded_transition (Locker.locked l)
       (in_open_interval (Locker.lower l) (Locker.upper l) q)
       j (Locker.step l dt q j)) /\
  (forall m : MultiLocker.t,
     guarded_transition (MultiLocker.locked m)
       (in_some_closed_interval (MultiLocker.locks m) q)
       j (MultiLocker.step m dt q j)).
Proof.
  split.
  - intros l. rewrite Locker_step_eq.
    pose proof (open_interval_decide (Locker.lower l) (Locker.upper l) q) as Hc.
    destruct (_ && _) eqn:E, (Joint.locked j) eqn:El; guarded Hc.
  - intros m. rewrite MultiLocker_step_eq. cbv zeta.
    pose proof (should_be_locked_iff (MultiLocker.locks m) q) as Hc.
    destruct (MultiLocker.should_be_locked _ _) eqn:E, (Joint.locked j) eqn:El;
      guarded Hc.
Qed.

(** ** PositionController *)

Lemma PositionController_is_done_eq j pc :
  PositionController.is_done j pc =
    (match PositionController.goal_pos pc with
     | None => Ret true
     | Some (VNum g) =>
         Ret (bool_decide (Rabs (PositionController.q pc - g) < PositionController.q_eps pc)
              && bool_decide (Rabs (PositionController.v pc) < PositionController.v_eps pc)
              || Joint.is_locked j)
     | Some (VTuple _) => Raise TypeError
     end, pc, []).
Proof.
  unfold PositionController.is_done. mrun.
  destruct (PositionController.goal_pos pc) as [[g|xs]|]; [| reflexivity | reflexivity].
  unfold as_number. mrun.
  destruct (_ && _); [reflexivity|]. destruct (Joint.is_locked j); reflexivity.
Qed.

Lemma PositionController_pid_control_cases j pc :
  exists r pc',
    PositionController._pid_control j pc = (r, pc', []) /\
    PositionController.goal_pos pc' = PositionController.goal_pos pc /\
    match PositionController.goal_pos pc with
    | Some (VTuple _) => r = Raise TypeError
    | _ => exists f, r = Ret f
    end.
Proof.
  unfold PositionController._pid_control. mrun.
  destruct (PositionController.goal_pos pc) as [[g|xs]|] eqn:E.
  - erewrite bind_quiet by (rewrite PositionController_is_done_eq, E; reflexivity).
    destruct (_ || _).
    + eexists _, _; split; [reflexivity|]. rewrite E. eauto.
    + unfold as_number. mrun. eexists _, _; split; [reflexivity|].
      cbn [PositionController.goal_pos PositionController.set_i]. rewrite E. eauto.
  - erewrite bind_run_raise by (rewrite PositionController_is_done_eq, E; reflexivity).
    eexists _, _; split; [reflexivity|]. rewrite E. eauto.
  - eexists _, _; split; [reflexivity|]. rewrite E. eauto.
Qed.

Lemma zoom_eq {S T A} (get : S -> T) (set : T -> S -> S) (m : M T A) s r t h :
  m (get s) = (r, t, h) -> zoom get set m s = (r, set t s, h).
Proof. intros E. unfold zoom. rewrite E. reflexivity. Qed.

Lemma PositionController_step_cases dt j pc g :
  exists r pc' g',
    PositionController.step dt j (pc, g) = (r, (pc', g'), []) /\
    PositionController.goal_pos pc' = PositionController.goal_pos pc /\
    match PositionController.goal_pos pc with
    | Some (VTuple _) => r = Raise TypeError
    | _ => exists f, r = Ret f
    end.
Proof.
  unfold PositionController.step.
  erewrite bind_quiet by (apply zoom_eq; reflexivity). mrun.
  erewrite bind_quiet by (apply zoom_eq; reflexivity). mrun.
  cbn [fst snd].
  match goal with |- context [zoom _ _ _ (?p, _)] =>
    destruct (PositionController_pid_control_cases j p) as (r & pc' & E & Hg & Hr) end.
  eexists r, pc', _. split; [unfold zoom; cbn [fst snd]; rewrite E; reflexivity|].
  cbn [PositionController.goal_pos PositionController.set_q PositionController.set_v] in *.
  split; assumption.
Qed.

(** ** Controller *)

Lemma Controller_step_in_force_mode dt s :
  Controller.force_control (Controller.self s) = true ->
  ForceController.is_done (Controller.force_controller (Controller.self s)) = false ->
  let fc := Controller.force_controller (Controller.self s) in
  let desired := if decide (ForceController.time fc - dt > 0)
                 then ForceController.force fc else 0 in
  let applied := saturate (Controller.max_force (Controller.self s)) desired in
  Controller.step dt s =
    (Ret (applied, desired),
     Controller.mk_scene
       (Controller.set_force_controller
          (ForceController.mk (ForceController.joint fc)
             (Rmax 0 (ForceController.time fc - dt)) (ForceController.force fc))
          (Controller.self s))
       (Joint.add_force applied (Controller.joint_obj s))
       (Controller.rand s),
     [CAddForce (Controller.joint (Controller.self s)) applied]).
Proof.
  intros Hf Hd. cbv zeta. unfold Controller.step. mrun. rewrite Hf. mrun. rewrite Hd.
  erewrite bind_quiet by (apply zoom_eq; apply ForceController_step_eq).
  mrun. reflexivity.
Qed.

Lemma Controller_step_cases dt s :
  exists r s' h,
    Controller.step dt s = (r, s', h) /\
    Controller.joint (Controller.self s') = Controller.joint (Controller.self s) /\
    Controller.max_force (Controller.self s') = Controller.max_force (Controller.self s) /\
    goal_ok (Controller.self s') = goal_ok (Controller.self s) /\
    ((exists d,
        let a := saturate (Controller.max_force (Controller.self s)) d in
        r = Ret (a, d) /\
        h = [CAddForce (Controller.joint (Controller.self s)) a] /\
        Controller.joint_obj s' = Joint.add_force a (Controller.joint_obj s))
     \/ (r = Raise TypeError /\ h = [] /\
         Controller.joint_obj s' = Controller.joint_obj s /\
         goal_ok (Controller.self s) = false)).
Proof.
  destruct (Controller.force_control (Controller.self s)) eqn:Hf.
  - destruct (ForceController.is_done (Controller.force_controller (Controller.self s))) eqn:Hd.
    + unfold Controller.step. mrun. rewrite Hf. mrun. rewrite Hd. mrun.
      eexists _, _, _. split; [reflexivity|].
      repeat split. left. exists 0. repeat split.
    + rewrite (Controller_step_in_force_mode dt s Hf Hd).
      eexists _, _, _. split; [reflexivity|].
      repeat split. left. eexists. repeat split.
  - unfold Controller.step. mrun. rewrite Hf. mrun.
    destruct (Controller.position_control (Controller.self s)) eqn:Hp; mrun.
    + pose proof (PositionController_is_done_eq (Controller.joint_obj s)
                    (Controller.position_controller (Controller.self s))) as Hd.
      destruct (PositionController.goal_pos
                  (Controller.position_controller (Controller.self s)))
        as [[g|xs]|] eqn:Eg.
      * erewrite bind_quiet by (apply zoom_eq; exact Hd).
        destruct (_ || _); mrun.
        -- eexists _, _, _. split; [reflexivity|].
           destruct s as [[] ? ?]; cbn in *.
           repeat split; try (unfold goal_ok; cbn; rewrite Eg; reflexivity).
           left. exists 0. repeat split.
        -- destruct (PositionController_step_cases dt
                       (Controller.joint_obj
                          (Controller.on_self
                             (Controller.set_position_controller
                                (Controller.position_controller (Controller.self s))) s))
                       (Controller.position_controller (Controller.self s))
                       (Controller.rand s))
             as (r & pc' & g' & E & Hg & Hr).
           rewrite Eg in Hr. destruct Hr as [f ->].
           erewrite bind_quiet by (apply zoom_eq; cbn; exact E).
           mrun.
           eexists _, _, _. split; [reflexivity|].
           destruct s as [[] ? ?]; cbn in *.
           repeat split; try (unfold goal_ok; cbn; rewrite Hg, Eg; reflexivity).
           left. exists f. repeat split.
      * erewrite bind_run_raise by (apply zoom_eq; exact Hd).
        eexists _, _, _. split; [reflexivity|].
        destruct s as [[] ? ?]; cbn in *.
        repeat split; try (unfold goal_ok; cbn; rewrite ?Eg; reflexivity).
        right. repeat split. unfold goal_ok; cbn; rewrite Eg; reflexivity.
      * erewrite bind_quiet by (apply zoom_eq; exact Hd). mrun.
        eexists _, _, _. split; [reflexivity|].
        destruct s as [[] ? ?]; cbn in *.
        repeat split; try (unfold goal_ok; cbn; rewrite Eg; reflexivity).
        left. exists 0. repeat split.
    + eexists _, _, _. split; [reflexivity|].
      repeat split. left. exists 0. repeat split.
Qed.

(** ** World: single objects *)

Lemma joint_ref_eq i w j :
  World.joints w !! i = Some j -> World.joint_ref i w = (Ret j, w, []).
Proof. intros E. unfold World.joint_ref. rewrite E. reflexivity. Qed.

Lemma listener_ref_eq k w l :
  World.listeners w !! k = Some l -> World.listener_ref k w = (Ret l, w, []).
Proof. intros E. unfold World.listener_ref. rewrite E. reflexivity. Qed.

Lemma at_joint_eq {A} i (m : M Joint.t A) w j r j' h :
  World.joints w !! i = Some j -> m j = (r, j', h) ->
  World.at_joint i m w = (r, World.set_joints (<[i := j']> (World.joints w)) w, h).
Proof.
  intros E Hm. unfold World.at_joint.
  erewrite bind_quiet by (apply joint_ref_eq, E).
  unfold zoom. rewrite Hm. reflexivity.
Qed.

Lemma at_joint_dangling {A} i (m : M Joint.t A) w :
  World.joints w !! i = None -> World.at_joint i m w = (Raise BadReference, w, []).
Proof.
  intros E. unfold World.at_joint, World.joint_ref, bind. rewrite E. reflexivity.
Qed.

(** A joint replaced by one with the same view leaves the views alone. *)
Lemma fmap_insert_same {A B} (f : A -> B) (l : list A) i x y :
  l !! i = Some x -> f y = f x -> f <$> <[i := y]> l = f <$> l.
Proof.
  intros E Hf. rewrite list_fmap_insert, Hf.
  apply list_insert_id. rewrite list_lookup_fmap, E. reflexivity.
Qed.

Lemma add_force_q f j : Joint.q (Joint.add_force f j) = Joint.q j.
Proof. unfold Joint.add_force. destruct (negb _); reflexivity. Qed.

Lemma add_force_shape f j : joint_shape (Joint.add_force f j) = joint_shape j.
Proof. unfold Joint.add_force. destruct (negb _); reflexivity. Qed.

Lemma listener_frame_refl w : listener_frame w w.
Proof. split; reflexivity. Qed.

Lemma listener_frame_trans w1 w2 w3 :
  listener_frame w1 w2 -> listener_frame w2 w3 -> listener_frame w1 w3.
Proof. intros [] []. split; congruence. Qed.

Lemma locker_target_frame w i j j' :
  World.joints w !! i = Some j ->
  Joint.q j' = Joint.q j -> joint_shape j' = joint_shape j ->
  listener_frame w (World.set_joints (<[i := j']> (World.joints w)) w).
Proof.
  intros E Hq Hs. split; cbn [World.set_joints World.time World.joints World.listeners];
    try reflexivity; eapply fmap_insert_same; eassumption.
Qed.

Lemma bind_forget {S A} (m : M S A) s r s1 h :
  m s = (r, s1, h) -> (m;; ret tt) s = (forget r, s1, h).
Proof.
  intros E. unfold bind, ret. rewrite E.
  destruct r; cbn [forget]; rewrite ?app_nil_r; reflexivity.
Qed.

Lemma wf_listener w k l :
  wf w = true -> World.listeners w !! k = Some l ->
  listener_ok (length (World.joints w)) l = true.
Proof.
  unfold wf. intros H E. apply andb_true_iff in H as [_ H].
  rewrite forallb_forall in H. apply H.
  apply list_elem_of_In. eapply list_elem_of_lookup_2, E.
Qed.

Lemma ref_in_range {A} (l : list A) i :
  (i <? length l)%nat = true -> exists x, l !! i = Some x.
Proof.
  intros H. apply Nat.ltb_lt in H. apply lookup_lt_is_Some_2 in H as [x Hx]. eauto.
Qed.

Lemma Locker_step_frame l dt q j :
  exists j' h,
    Locker.step l dt q j = (Ret tt, j', h) /\
    Joint.q j' = Joint.q j /\ joint_shape j' = joint_shape j /\
    forallb is_joint_method h = true.
Proof.
  rewrite Locker_step_eq.
  destruct (_ && _), (Joint.locked j); eexists _, _; repeat split.
Qed.

Lemma MultiLocker_step_frame m dt q j :
  exists j' h,
    MultiLocker.step m dt q j = (Ret tt, j', h) /\
    Joint.q j' = Joint.q j /\ joint_shape j' = joint_shape j /\
    forallb is_joint_method h = true.
Proof.
  rewrite MultiLocker_step_eq. cbv zeta.
  destruct (MultiLocker.should_be_locked _ _), (Joint.locked j); eexists _, _; repeat split.
Qed.

Lemma listener_step_frame k dt w :
  let x := World.listener_step k dt w in
  listener_frame w (state_of x) /\
  forallb is_joint_method (calls_of x) = true /\
  result_of x <> Timeout /\
  (wf w = true -> (k < length (World.listeners w))%nat -> result_of x = Ret tt).
Proof.
  cbv zeta. unfold World.listener_step.
  destruct (World.listeners w !! k) as [l|] eqn:El.
  2:{ unfold World.listener_ref, bind. rewrite El. cbn.
      repeat split; try discriminate; try apply listener_frame_refl.
      intros _ Hk. apply lookup_lt_is_Some_2 in Hk as [? Hk]. congruence. }
  erewrite bind_quiet by (apply listener_ref_eq, El).
  destruct l as [c|l|m].
  - destruct (World.joints w !! Controller.joint c) as [j|] eqn:Ej.
    2:{ unfold World.joint_ref, bind. rewrite Ej. cbn.
        repeat split; try discriminate; try apply listener_frame_refl.
        intros Hwf _. pose proof (wf_listener w k _ Hwf El) as Hok.
        unfold listener_ok, view_ok in Hok; cbn in Hok.
        rewrite !andb_true_iff in Hok. destruct Hok as [[Hok _] _].
        apply ref_in_range in Hok as [? ?]. congruence. }
    erewrite bind_quiet by (apply joint_ref_eq, Ej).
    destruct (Controller_step_cases dt (Controller.mk_scene c j (World.random w)))
      as (r & s' & h & E & Hj & _ & Hg & Hcases).
    erewrite bind_forget by (unfold zoom; cbn [Controller.self]; rewrite E; reflexivity).
    unfold result_of, state_of, calls_of; cbn [fst snd Controller.self Controller.joint_obj] in *.
    assert (Hframe : listener_frame w
      (World.mk (<[Controller.joint c := Controller.joint_obj s']> (World.joints w))
                (<[k := LController (Controller.self s')]> (World.listeners w))
                (World.time w) (Controller.rand s'))).
    { split; cbn [World.time World.joints World.listeners]; try reflexivity.
      - eapply fmap_insert_same; [exact Ej|].
        destruct Hcases as [(d & _ & _ & ->)|(_ & _ & -> & _)];
          [apply add_force_q | reflexivity].
      - eapply fmap_insert_same; [exact Ej|].
        destruct Hcases as [(d & _ & _ & ->)|(_ & _ & -> & _)];
          [apply add_force_shape | reflexivity].
      - eapply fmap_insert_same; [exact El|].
        cbn [listener_view]. rewrite Hj, Hg. reflexivity. }
    split; [exact Hframe|].
    destruct Hcases as [(d & -> & -> & _)|(-> & -> & _ & Hbad)]; cbn [forget].
    + repeat split; try discriminate.
    + repeat split; try discriminate.
      intros Hwf _. pose proof (wf_listener w k _ Hwf El) as Hok.
      unfold listener_ok, view_ok in Hok; cbn in Hok.
      rewrite Hbad in Hok. rewrite andb_false_r in Hok. discriminate.
  - destruct (World.joints w !! Locker.locker l) as [a|] eqn:Ea.
    2:{ unfold World.joint_ref, bind. rewrite Ea. cbn.
        repeat split; try discriminate; try apply listener_frame_refl.
        intros Hwf _. pose proof (wf_listener w k _ Hwf El) as Hok.
        unfold listener_ok, view_ok in Hok; cbn in Hok.
        rewrite !andb_true_iff in Hok. destruct Hok as [[Hok _] _].
        apply ref_in_range in Hok as [? ?]. congruence. }
    erewrite bind_quiet by (apply joint_ref_eq, Ea).
    destruct (World.joints w !! Locker.locked l) as [b|] eqn:Eb.
    2:{ rewrite at_joint_dangling by exact Eb. cbn.
        repeat split; try discriminate; try apply listener_frame_refl.
        intros Hwf _. pose proof (wf_listener w k _ Hwf El) as Hok.
        unfold listener_ok, view_ok in Hok; cbn in Hok.
        rewrite !andb_true_iff in Hok. destruct Hok as [[_ [Hok _]] _].
        apply ref_in_range in Hok as [? ?]. congruence. }
    destruct (Locker_step_frame l dt (Joint.q a) b) as (b' & h & E & Hq & Hs & Hh).
    rewrite (at_joint_eq _ _ _ _ _ _ _ Eb E).
    unfold result_of, state_of, calls_of; cbn [fst snd].
    split; [eapply locker_target_frame; eassumption|].
    repeat split; try discriminate; try assumption.
  - destruct (World.joints w !! MultiLocker.locker m) as [a|] eqn:Ea.
    2:{ unfold World.joint_ref, bind. rewrite Ea. cbn.
        repeat split; try discriminate; try apply listener_frame_refl.
        intros Hwf _. pose proof (wf_listener w k _ Hwf El) as Hok.
        unfold listener_ok, view_ok in Hok; cbn in Hok.
        rewrite !andb_true_iff in Hok. destruct Hok as [[Hok _] _].
        apply ref_in_range in Hok as [? ?]. congruence. }
    erewrite bind_quiet by (apply joint_ref_eq, Ea).
    destruct (World.joints w !! MultiLocker.locked m) as [b|] eqn:Eb.
    2:{ rewrite at_joint_dangling by exact Eb. cbn.
        repeat split; try discriminate; try apply listener_frame_refl.
        intros Hwf _. pose proof (wf_listener w k _ Hwf El) as Hok.
        unfold listener_ok, view_ok in Hok; cbn in Hok.
        rewrite !andb_true_iff in Hok. destruct Hok as [[_ [Hok _]] _].
        apply ref_in_range in Hok as [? ?]. congruence. }
    destruct (MultiLocker_step_frame m dt (Joint.q a) b) as (b' & h & E & Hq & Hs & Hh).
    rewrite (at_joint_eq _ _ _ _ _ _ _ Eb E).
    unfold result_of, state_of, calls_of; cbn [fst snd].
    split; [eapply locker_target_frame; eassumption|].
    repeat split; try discriminate; try assumption.
Qed.

Lemma bind_cases {S A B} (m : M S A) (k : A -> M S B) s r s1 h1 :
  m s = (r, s1, h1) ->
  (x <- m;; k x) s =
    match r with
    | Ret a => (result_of (k a s1), state_of (k a s1), h1 ++ calls_of (k a s1))
    | Raise e => (Raise e, s1, h1)
    | Timeout => (Timeout, s1, h1)
    end.
Proof.
  intros E. unfold bind. rewrite E. destruct r; try reflexivity.
  destruct (k a s1) as [[? ?] ?]. reflexivity.
Qed.

Lemma fmap_length_eq {A B} (f : A -> B) (l l' : list A) :
  f <$> l' = f <$> l -> length l' = length l.
Proof. intros H. apply (f_equal length) in H. rewrite !length_fmap in H. exact H. Qed.

Lemma forallb_through {A B} (f : A -> B) (p : B -> bool) (l : list A) :
  forallb (fun x => p (f x)) l = forallb p (f <$> l).
Proof. induction l as [|x l IH]; cbn; [reflexivity | rewrite IH; reflexivity]. Qed.

Lemma wf_frame w w' :
  joint_shape <$> World.joints w' = joint_shape <$> World.joints w ->
  listener_view <$> World.listeners w' = listener_view <$> World.listeners w ->
  wf w = true -> wf w' = true.
Proof.
  intros Hs Hv. unfold wf, joint_ok, listener_ok.
  rewrite !(forallb_through joint_shape shape_ok).
  rewrite !(forallb_through listener_view (view_ok _)).
  rewrite Hs, Hv, (fmap_length_eq _ _ _ Hs). auto.
Qed.

(** ** World: the listeners' loop *)

Lemma inform_eq dt k w :
  inform dt k w = logged (CListenerStep k (World.time w) dt) (World.listener_step k dt w).
Proof. unfold inform. mrun. reflexivity. Qed.

Lemma filter_joint_methods h :
  forallb is_joint_method h = true -> List.filter is_listener_step h = [].
Proof.
  induction h as [|c h IH]; [reflexivity|]. cbn [forallb List.filter].
  intros H. apply andb_true_iff in H as [Hc Hh].
  destruct c; try discriminate; cbn; auto.
Qed.

Lemma joint_methods_in_phase h :
  forallb is_joint_method h = true -> forallb in_listener_phase h = true.
Proof.
  rewrite !forallb_forall. intros H c Hc. unfold in_listener_phase.
  rewrite (H c Hc). apply orb_true_r.
Qed.

Lemma inform_loop dt n : forall a w,
  let x := for_each (seq a n) (inform dt) w in
  listener_frame w (state_of x) /\
  result_of x <> Timeout /\
  forallb in_listener_phase (calls_of x) = true /\
  (exists n', (n' <= n)%nat /\
     List.filter is_listener_step (calls_of x) = listener_steps (World.time w) dt a n' /\
     (result_of x = Ret tt -> n' = n)) /\
  (wf w = true -> (a + n <= length (World.listeners w))%nat -> result_of x = Ret tt).
Proof.
  induction n as [|n IH]; intros a w; cbv zeta.
  - cbn. split; [apply listener_frame_refl|].
    repeat split; try discriminate. exists 0%nat. repeat split. constructor.
  - cbn [seq for_each].
    destruct (listener_step_frame a dt w) as (Hf & Hm & Hr & Hwf).
    destruct (World.listener_step a dt w) as [[r w1] h] eqn:E.
    unfold result_of, state_of, calls_of in Hf, Hm, Hr, Hwf; cbn [fst snd] in *.
    erewrite bind_cases by (rewrite inform_eq, E; reflexivity).
    cbn [logged fst snd].
    destruct r as [[]|e|]; [|clear IH|congruence].
    + specialize (IH (S a) w1). cbv zeta in IH.
      destruct IH as (IHf & IHr & IHp & (n' & Hn' & IHc & IHn) & IHwf).
      unfold result_of, state_of, calls_of in *; cbn [fst snd].
      split; [eapply listener_frame_trans; eassumption|].
      split; [assumption|].
      split.
      { cbn [app forallb]. rewrite forallb_app, IHp, (joint_methods_in_phase h Hm).
        reflexivity. }
      split.
      { exists (S n'). split; [lia|].
        cbn [app List.filter is_listener_step].
        rewrite List.filter_app, (filter_joint_methods h Hm), IHc.
        rewrite (frame_time _ _ Hf). split; [reflexivity|].
        intros Hret. f_equal. apply IHn, Hret. }
      intros Hw Hlen. apply IHwf.
      * eapply wf_frame; [apply Hf | apply Hf | exact Hw].
      * rewrite (fmap_length_eq _ _ _ (frame_view _ _ Hf)). lia.
    + unfold result_of, state_of, calls_of; cbn [fst snd].
      split; [assumption|].
      split; [discriminate|].
      split; [cbn [forallb]; apply (joint_methods_in_phase h Hm)|].
      split.
      { exists 1%nat. split; [lia|].
        cbn [List.filter is_listener_step]. rewrite (filter_joint_methods h Hm).
        split; [reflexivity | discriminate]. }
      intros Hw Hlen. exfalso.
      assert (Raise e = Ret tt :> outcome unit); [|discriminate].
      apply Hwf; [exact Hw | lia].
Qed.

(** ** World: the joints' loop *)

Lemma get_state_loop_le q : forall (l : list R) a i,
  (get_state_loop i q (zip (seq a (length l)) l) <= Nat.max (i + 1) (a + length l))%nat.
Proof.
  induction l as [|k l IH]; intros a i; cbn [length seq zip zip_with get_state_loop].
  - lia.
  - destruct (decide (q < k)); [lia|].
    specialize (IH (S a) a). lia.
Qed.

Lemma get_state_le q states :
  (get_state q states <= Nat.max 1 (length states))%nat.
Proof. apply (get_state_loop_le q states 0%nat 0%nat). Qed.

Lemma Joint_step_facts dt j :
  let x := Joint.step dt j in
  calls_of x = [] /\
  joint_shape (state_of x) = joint_shape j /\
  result_of x <> Timeout /\
  (joint_ok j = true -> exists s, result_of x = Ret s) /\
  (Joint.locked j = true -> state_of x = j).
Proof.
  cbv zeta. destruct (Joint.locked j) eqn:El.
  - rewrite (Joint_step_when_locked j dt El).
    repeat split; try discriminate. eauto.
  - rewrite (Joint_step_when_unlocked j dt El).
    match goal with |- context [Joint.dampings j !! get_state ?x ?l] =>
      pose proof (get_state_le x l) as Hle;
      destruct (Joint.dampings j !! get_state x l) as [d|] eqn:Ed end.
    + repeat split; try discriminate. eauto.
    + repeat split; try discriminate.
      intros Hok. exfalso. apply lookup_ge_None_1 in Ed.
      unfold joint_ok, shape_ok, joint_shape in Hok; cbn [fst snd] in Hok.
      apply andb_true_iff in Hok as [H1 H2].
      apply Nat.ltb_lt in H1, H2. lia.
Qed.

Lemma tick_joint_eq dt i w j :
  World.joints w !! i = Some j ->
  tick_joint dt i w =
    (forget (result_of (Joint.step dt j)),
     World.set_joints (<[i := state_of (Joint.step dt j)]> (World.joints w)) w,
     [CJointStep i (World.time w) dt]).
Proof.
  intros E. unfold tick_joint. mrun.
  destruct (Joint_step_facts dt j) as (Hc & _).
  destruct (Joint.step dt j) as [[r j'] h] eqn:Es.
  unfold calls_of in Hc; cbn [snd] in Hc; subst h.
  erewrite bind_forget by (eapply at_joint_eq; eassumption).
  reflexivity.
Qed.

Lemma stepped_none dt a js : stepped dt a 0 js = js.
Proof.
  unfold stepped. apply list_eq. intros i. rewrite list_lookup_imap.
  destruct (js !! i); cbn [fmap option_fmap option_map]; [|reflexivity].
  rewrite decide_False by lia. reflexivity.
Qed.

Lemma stepped_next dt a n js j :
  js !! a = Some j ->
  stepped dt (S a) n (<[a := state_of (Joint.step dt j)]> js) = stepped dt a (S n) js.
Proof.
  intros E. unfold stepped. apply list_eq. intros i.
  rewrite !list_lookup_imap.
  destruct (decide (i = a)) as [->|Hne].
  - rewrite list_lookup_insert_eq by (eapply lookup_lt_Some, E).
    rewrite E. cbn [fmap option_fmap option_map]. rewrite decide_False by lia. rewrite decide_True by lia.
    reflexivity.
  - rewrite list_lookup_insert_ne by auto.
    destruct (js !! i); cbn [fmap option_fmap option_map]; [|reflexivity].
    destruct (decide (S a <= i < S a + n)%nat), (decide (a <= i < a + S n)%nat);
      try reflexivity; lia.
Qed.

Lemma stepped_shape dt a n js : joint_shape <$> stepped dt a n js = joint_shape <$> js.
Proof.
  unfold stepped. apply list_eq. intros i.
  rewrite !list_lookup_fmap, list_lookup_imap.
  destruct (js !! i) as [j|]; cbn [fmap option_fmap option_map]; [|reflexivity].
  destruct (decide _); [|reflexivity].
  f_equal. apply Joint_step_facts.
Qed.

Lemma wf_joint w i j :
  wf w = true -> World.joints w !! i = Some j -> joint_ok j = true.
Proof.
  unfold wf. intros H E. apply andb_true_iff in H as [H _].
  rewrite forallb_forall in H. apply H.
  apply list_elem_of_In. eapply list_elem_of_lookup_2, E.
Qed.

Lemma joints_loop dt n : forall a w,
  (a + n <= length (World.joints w))%nat ->
  let x := for_each (seq a n) (tick_joint dt) w in
  result_of x <> Timeout /\
  (exists n', (n' <= n)%nat /\
     state_of x = World.set_joints (stepped dt a n' (World.joints w)) w /\
     calls_of x = joint_steps (World.time w) dt a n' /\
     (result_of x = Ret tt -> n' = n)) /\
  (wf w = true -> result_of x = Ret tt).
Proof.
  induction n as [|n IH]; intros a w Hlen; cbv zeta.
  - cbn. repeat split; try discriminate. exists 0%nat.
    rewrite stepped_none. destruct w; repeat split. constructor.
  - cbn [seq for_each].
    destruct (lookup_lt_is_Some_2 (World.joints w) a) as [j Ej]; [lia|].
    destruct (Joint_step_facts dt j) as (_ & Hs & Ht & Hok & _).
    erewrite bind_cases by (apply tick_joint_eq, Ej).
    destruct (result_of (Joint.step dt j)) as [s|e|] eqn:Er; cbn [forget];
      [|clear IH|congruence].
    + set (w1 := World.set_joints _ w).
      specialize (IH (S a) w1). cbv zeta in IH.
      destruct IH as (IHr & (n' & Hn' & IHs & IHc & IHn) & IHwf).
      { subst w1. cbn [World.joints World.set_joints]. rewrite length_insert. lia. }
      unfold result_of, state_of, calls_of in *; cbn [fst snd].
      split; [assumption|]. split.
      { exists (S n'). split; [lia|]. rewrite IHs, IHc. subst w1.
        cbn [World.joints World.set_joints World.time].
        pose proof (stepped_next dt a n' _ j Ej) as Hnext.
        unfold state_of in Hnext at 1. rewrite Hnext.
        repeat split. intros Hret. f_equal. apply IHn, Hret. }
      intros Hw. apply IHwf. subst w1.
      eapply wf_frame; [| |exact Hw]; cbn [World.joints World.set_joints World.listeners];
        [|reflexivity].
      eapply fmap_insert_same; [exact Ej | exact Hs].
    + unfold result_of, state_of, calls_of; cbn [fst snd].
      split; [discriminate|]. split.
      { exists 1%nat. split; [lia|]. repeat split; [|discriminate].
        f_equal. unfold stepped. apply list_eq. intros i.
        rewrite list_lookup_imap.
        destruct (decide (i = a)) as [->|Hne].
        - rewrite list_lookup_insert_eq by (eapply lookup_lt_Some, Ej).
          rewrite Ej. cbn [fmap option_fmap option_map]. rewrite decide_True by lia. reflexivity.
        - rewrite list_lookup_insert_ne by auto.
          destruct (World.joints w !! i); cbn [fmap option_fmap option_map]; [|reflexivity].
          rewrite decide_False by lia. reflexivity. }
      intros Hw. destruct (Hok (wf_joint w a j Hw Ej)) as [s Hs']. congruence.
Qed.

(** ** World.step *)

Lemma stepped_all dt js :
  stepped dt 0 (length js) js = (fun j => state_of (Joint.step dt j)) <$> js.
Proof.
  unfold stepped. apply list_eq. intros i.
  rewrite list_lookup_imap, list_lookup_fmap.
  destruct (js !! i) as [j|] eqn:E; cbn [fmap option_fmap option_map]; [|reflexivity].
  apply lookup_lt_Some in E. rewrite decide_True by lia. reflexivity.
Qed.

Lemma stepped_locked dt a n js i j :
  js !! i = Some j -> Joint.locked j = true -> stepped dt a n js !! i = Some j.
Proof.
  intros E Hl. unfold stepped. rewrite list_lookup_imap, E.
  cbn [fmap option_fmap option_map]. destruct (decide _); [|reflexivity].
  f_equal. apply Joint_step_facts, Hl.
Qed.

Lemma inform_listeners_eq dt w :
  World._inform_listeners dt w
  = for_each (seq 0 (length (World.listeners w))) (inform dt) w.
Proof. unfold World._inform_listeners. mrun. reflexivity. Qed.

Lemma World_step_eq dt w :
  World.step dt w =
    logged (CWorldStep dt)
      ((for_each (seq 0 (length (World.joints w))) (tick_joint dt);;
        World._inform_listeners dt) (World.set_time (World.time w + dt) w)).
Proof. unfold World.step. mrun. reflexivity. Qed.

Lemma World_step_phases dt w :
  exists n : nat,
    let finished :=
      n = length (World.joints w) /\
      World.step dt w =
        let y := World._inform_listeners dt (midway dt n w) in
        (result_of y, state_of y,
         CWorldStep dt :: joint_steps (World.time w + dt) dt 0 n ++ calls_of y) in
    (n <= length (World.joints w))%nat /\
    (finished
     \/ (exists e,
          World.step dt w =
            (Raise e, midway dt n w,
             CWorldStep dt :: joint_steps (World.time w + dt) dt 0 n ++ []))) /\
    (wf w = true -> finished).
Proof.
  rewrite World_step_eq.
  set (w0 := World.set_time (World.time w + dt) w).
  destruct (joints_loop dt (length (World.joints w)) 0 w0 (le_n _))
    as (Ht & (n & Hn & Hs & Hc & Hret) & Hwf).
  destruct (for_each (seq 0 (length (World.joints w))) (tick_joint dt) w0)
    as [[r w1] h] eqn:E.
  unfold result_of, state_of, calls_of in *; cbn [fst snd] in *. subst w1 h.
  exists n. cbv zeta. split; [exact Hn|].
  change (World.set_joints (stepped dt 0 n (World.joints w0)) w0) with (midway dt n w) in *.
  erewrite bind_cases by exact E.
  destruct r as [[]|e|]; [| |congruence].
  - assert (n = length (World.joints w)) by (apply Hret; reflexivity).
    split; [left|intros _]; (split; [assumption|reflexivity]).
  - split.
    + right. exists e. unfold logged; cbn [fst snd]. rewrite app_nil_r. reflexivity.
    + intros Hw. exfalso.
      assert (Raise e = Ret tt :> outcome unit); [|discriminate].
      apply Hwf. eapply wf_frame; [| |exact Hw]; reflexivity.
Qed.

Lemma midway_frame dt n w :
  World.time (midway dt n w) = World.time w + dt /\
  joint_shape <$> World.joints (midway dt n w) = joint_shape <$> World.joints w /\
  World.listeners (midway dt n w) = World.listeners w.
Proof. repeat split. apply stepped_shape. Qed.

Lemma midway_wf dt n w : wf w = true -> wf (midway dt n w) = true.
Proof. apply wf_frame; [apply stepped_shape | reflexivity]. Qed.

Lemma listener_step_eq k dt w :
  World.listener_step k dt w
  = match World.listeners w !! k with
    | Some l => step_of_listener k l dt w
    | None => (Raise BadReference, w, [])
    end.
Proof.
  unfold World.listener_step.
  destruct (World.listeners w !! k) as [l|] eqn:El.
  2:{ unfold World.listener_ref, bind. rewrite El. reflexivity. }
  erewrite bind_quiet by (apply listener_ref_eq, El).
  assert (Hlocker : forall (locker target : nat) (m : R -> M Joint.t unit),
    (a <- World.joint_ref locker;; World.at_joint target (m (Joint.q a))) w
    = match World.joints w !! locker, World.joints w !! target with
      | Some a, Some b =>
          let y := m (Joint.q a) b in
          (result_of y, World.set_joints (<[target := state_of y]> (World.joints w)) w,
           calls_of y)
      | _, _ => (Raise BadReference, w, [])
      end).
  { intros locker target m.
    destruct (World.joints w !! locker) as [a|] eqn:Ea.
    2:{ unfold World.joint_ref, bind. rewrite Ea. reflexivity. }
    erewrite bind_quiet by (apply joint_ref_eq, Ea).
    destruct (World.joints w !! target) as [b|] eqn:Eb.
    2:{ apply at_joint_dangling, Eb. }
    destruct (m (Joint.q a) b) as [[r b'] h] eqn:Em.
    rewrite (at_joint_eq _ _ _ _ _ _ _ Eb Em). reflexivity. }
  destruct l as [c|l|m]; cbn [step_of_listener]; [|apply Hlocker..].
  destruct (World.joints w !! Controller.joint c) as [j|] eqn:Ej.
  2:{ unfold World.joint_ref, bind. rewrite Ej. reflexivity. }
  erewrite bind_quiet by (apply joint_ref_eq, Ej).
  destruct (Controller.step dt (Controller.mk_scene c j (World.random w)))
    as [[r s'] h] eqn:E.
  erewrite bind_forget by (unfold zoom; rewrite E; reflexivity).
  reflexivity.
Qed.

Lemma inform_in_turn dt ks : forall w,
  for_each ks (inform dt) w = listeners_in_turn dt ks w.
Proof.
  induction ks as [|k ks IH]; intros w; [reflexivity|].
  cbn [for_each listeners_in_turn]. cbv zeta.
  rewrite <- listener_step_eq.
  destruct (World.listener_step k dt w) as [[r w1] h] eqn:E.
  erewrite bind_cases by (rewrite inform_eq, E; reflexivity).
  unfold logged, result_of, state_of, calls_of; cbn [fst snd].
  destruct r as [[]|e|]; [|reflexivity..].
  rewrite IH. reflexivity.
Qed.

Lemma inform_listeners_in_turn dt w :
  World._inform_listeners dt w
  = listeners_in_turn dt (seq 0 (length (World.listeners w))) w.
Proof. rewrite inform_listeners_eq. apply inform_in_turn. Qed.

(** C4: [World.step dt] advances the clock by [dt] first; its calls are
    then the [step] of every joint in index order, each seeing the
    advanced clock, followed by the listeners' phase, in which the
    listeners' [step]s come in registration order and no joint is stepped;
    a listener is stepped only once all joints have been, and on a
    well-formed world the listeners start from the world in which every
    joint is the result of its own [step].  The world that [World.step]
    leaves is the one that the listeners leave when each in turn, in
    registration order, runs the [step] of its class from the world in
    which the joints have been stepped: when a joint's [step] raises no
    listener runs, and otherwise every registered listener does, up to
    the first whose [step] raises. *)
Theorem joints_step_before_listeners (dt : R) (w : World.t) :
  let x := World.step dt w in
  let now := World.time w + dt in
  World.time (state_of x) = now /\
  (exists (n m : nat) (hl : list call),
     calls_of x = CWorldStep dt :: joint_steps now dt 0 n ++ hl /\
     (n <= length (World.joints w))%nat /\
     (m <= length (World.listeners w))%nat /\
     forallb in_listener_phase hl = true /\
     List.filter is_listener_step hl = listener_steps now dt 0 m /\
     (hl <> [] -> n = length (World.joints w)) /\
     (result_of x = Ret tt ->
      n = length (World.joints w) /\ m = length (World.listeners w))) /\
  (wf w = true ->
     let mid := midway dt (length (World.joints w)) w in
     result_of x = Ret tt /\
     World.joints mid = (fun j => state_of (Joint.step dt j)) <$> World.joints w /\
     state_of x = state_of (World._inform_listeners dt mid) /\
     calls_of x = CWorldStep dt
                  :: joint_steps now dt 0 (length (World.joints w))
                  ++ calls_of (World._inform_listeners dt mid) /\
     let y := listeners_in_turn dt (seq 0 (length (World.listeners w))) mid in
     result_of y = Ret tt /\
     state_of x = state_of y /\
     calls_of x = CWorldStep dt
                  :: joint_steps now dt 0 (length (World.joints w)) ++ calls_of y) /\
  (exists n : nat,
     (n <= length (World.joints w))%nat /\
     let mid := midway dt n w in
     let y := listeners_in_turn dt (seq 0 (length (World.listeners w))) mid in
     (n = length (World.joints w) /\
      x = (result_of y, state_of y,
           CWorldStep dt :: joint_steps now dt 0 n ++ calls_of y))
     \/ (exists e,
           x = (Raise e, mid, CWorldStep dt :: joint_steps now dt 0 n))).
Proof.
  cbv zeta.
  destruct (World_step_phases dt w) as (n & Hn & Hcases & Hwf). cbv zeta in *.
  pose proof (inform_loop dt (length (World.listeners (midway dt n w))) 0 (midway dt n w))
    as Hloop.
  cbv zeta in Hloop. rewrite <- inform_listeners_eq in Hloop.
  destruct Hloop as (Hf & _ & Hp & (m & Hm & Hc & Hret) & Hw).
  cbn [midway World.listeners World.time] in Hm, Hc, Hw.
  split; [|split; [|split]].
  - destruct Hcases as [[-> E]|[e E]]; rewrite E; cbv zeta;
      unfold state_of; cbn [fst snd]; [apply Hf | reflexivity].
  - destruct Hcases as [[-> E]|[e E]]; rewrite E; cbv zeta;
      unfold result_of, state_of, calls_of in *; cbn [fst snd].
    + exists (length (World.joints w)), m, (World._inform_listeners dt
                (midway dt (length (World.joints w)) w)).2.
      repeat split; try assumption; try lia. apply Hret; assumption.
    + exists n, 0%nat, []. repeat split; try discriminate; try lia; congruence.
  - intros Hwf'. destruct (Hwf Hwf') as [-> E]. rewrite E. cbv zeta.
    assert (Hret' : result_of (World._inform_listeners dt
                                 (midway dt (length (World.joints w)) w)) = Ret tt)
      by (apply Hw; [apply midway_wf, Hwf' | lia]).
    pose proof (inform_listeners_in_turn dt (midway dt (length (World.joints w)) w)) as Et.
    cbn [midway World.listeners] in Et.
    split; [exact Hret'|].
    split; [apply stepped_all|].
    split; [reflexivity|]. split; [reflexivity|].
    rewrite <- Et. split; [exact Hret'|]. split; reflexivity.
  - exists n. split; [exact Hn|].
    pose proof (inform_listeners_in_turn dt (midway dt n w)) as Et.
    cbn [midway World.listeners] in Et. rewrite <- Et.
    destruct Hcases as [[Hlen E]|[e E]].
    + left. split; [exact Hlen | exact E].
    + right. exists e. rewrite E, app_nil_r. reflexivity.
Qed.

Lemma filter_none (p q : call -> bool) (h : list call) :
  (forall c, p c = true -> q c = false) ->
  forallb p h = true -> List.filter q h = [].
Proof.
  intros Hpq. induction h as [|c h IH]; [reflexivity|].
  cbn [forallb List.filter]. intros H. apply andb_true_iff in H as [Hc Hh].
  rewrite (Hpq c Hc). auto.
Qed.

Lemma filter_joint_steps (q : call -> bool) t dt a n :
  (forall i, q (CJointStep i t dt) = false) ->
  List.filter q (joint_steps t dt a n) = [].
Proof.
  intros Hq. unfold joint_steps. induction (seq a n) as [|i l IH]; [reflexivity|].
  cbn [fmap list_fmap List.filter]. rewrite Hq. exact IH.
Qed.

Lemma listener_phase_no_world_step c :
  in_listener_phase c = true -> is_world_step c = false.
Proof. destruct c; auto. Qed.

Lemma listener_phase_no_move_to c :
  in_listener_phase c = true -> is_move_to c = false.
Proof. destruct c; auto. Qed.

Lemma World_step_facts dt w :
  let x := World.step dt w in
  World.time (state_of x) = World.time w + dt /\
  joint_shape <$> World.joints (state_of x) = joint_shape <$> World.joints w /\
  listener_view <$> World.listeners (state_of x) = listener_view <$> World.listeners w /\
  (forall i j, World.joints w !! i = Some j -> Joint.locked j = true ->
     Joint.q <$> (World.joints (state_of x) !! i) = Some (Joint.q j)) /\
  List.filter is_world_step (calls_of x) = [CWorldStep dt] /\
  List.filter is_move_to (calls_of x) = [] /\
  result_of x <> Timeout /\
  (wf w = true -> result_of x = Ret tt /\ wf (state_of x) = true).
Proof.
  cbv zeta.
  destruct (World_step_phases dt w) as (n & Hn & Hcases & Hwf). cbv zeta in *.
  destruct (midway_frame dt n w) as (Ht & Hsh & Hls).
  pose proof (inform_loop dt (length (World.listeners (midway dt n w))) 0 (midway dt n w))
    as Hloop.
  cbv zeta in Hloop. rewrite <- inform_listeners_eq in Hloop.
  destruct Hloop as (Hf & Hto & Hp & _ & Hw).
  assert (Hlocked : forall i j, World.joints w !! i = Some j -> Joint.locked j = true ->
            Joint.q <$> (World.joints (midway dt n w) !! i) = Some (Joint.q j)).
  { intros i j Ej Hl. cbn [midway World.joints].
    rewrite (stepped_locked dt 0 n _ i j Ej Hl). reflexivity. }
  assert (Hfinished :
    let y := World._inform_listeners dt (midway dt n w) in
    World.step dt w = (result_of y, state_of y,
       CWorldStep dt :: joint_steps (World.time w + dt) dt 0 n ++ calls_of y) ->
    World.time (state_of (World.step dt w)) = World.time w + dt /\
    joint_shape <$> World.joints (state_of (World.step dt w)) = joint_shape <$> World.joints w /\
    listener_view <$> World.listeners (state_of (World.step dt w))
      = listener_view <$> World.listeners w /\
    (forall i j, World.joints w !! i = Some j -> Joint.locked j = true ->
       Joint.q <$> (World.joints (state_of (World.step dt w)) !! i) = Some (Joint.q j)) /\
    List.filter is_world_step (calls_of (World.step dt w)) = [CWorldStep dt] /\
    List.filter is_move_to (calls_of (World.step dt w)) = [] /\
    result_of (World.step dt w) <> Timeout).
  { cbv zeta. intros E. rewrite E.
    unfold result_of, state_of, calls_of in *; cbn [fst snd].
    split; [rewrite (frame_time _ _ Hf); exact Ht|].
    split; [rewrite (frame_shape _ _ Hf); exact Hsh|].
    split; [rewrite (frame_view _ _ Hf), Hls; reflexivity|].
    split.
    { intros i j Ej Hl. rewrite <- list_lookup_fmap, (frame_q _ _ Hf), list_lookup_fmap.
      apply Hlocked; assumption. }
    cbn [List.filter is_world_step is_move_to].
    rewrite !List.filter_app, !filter_joint_steps by reflexivity.
    rewrite (filter_none _ _ _ listener_phase_no_world_step Hp).
    rewrite (filter_none _ _ _ listener_phase_no_move_to Hp).
    repeat split. exact Hto. }
  destruct Hcases as [[-> E]|[e E]].
  - destruct (Hfinished E) as (H1 & H2 & H3 & H4 & H5 & H6 & H7).
    repeat split; try assumption.
    + rewrite E. apply Hw; [apply midway_wf; assumption|]. cbn. lia.
    + eapply wf_frame; eassumption.
  - assert (Hnwf : wf w = true -> False).
    { intros Hwf'. destruct (Hwf Hwf') as [_ E']. rewrite E' in E.
      cbv zeta in E. injection E as E _ _.
      assert (Hr : result_of (World._inform_listeners dt (midway dt n w)) = Ret tt).
      { apply Hw; [apply midway_wf, Hwf'|]. cbn. lia. }
      congruence. }
    rewrite E. unfold result_of, state_of, calls_of; cbn [fst snd].
    split; [exact Ht|]. split; [exact Hsh|]. split; [rewrite Hls; reflexivity|].
    split; [exact Hlocked|].
    cbn [List.filter is_world_step is_move_to].
    rewrite !List.filter_app, !filter_joint_steps by reflexivity.
    repeat split; try discriminate; exfalso; auto.
Qed.

(** ** Ticks *)

Lemma for_each_const {S} (m : M S unit) n : forall a,
  for_each (seq a n) (fun _ => m) = for_each (seq 0 n) (fun _ => m).
Proof.
  induction n as [|n IH]; intros a; [reflexivity|].
  cbn [seq for_each]. rewrite (IH (Datatypes.S a)), (IH 1%nat). reflexivity.
Qed.

Lemma ticks_succ n dt : ticks (S n) dt = (World.step dt;; ticks n dt).
Proof.
  unfold ticks. cbn [seq for_each].
  rewrite (for_each_const (World.step dt) n 1). reflexivity.
Qed.

Lemma ticks_facts dt n : forall w,
  wf w = true ->
  exists w' h,
    ticks n dt w = (Ret tt, w', h) /\
    wf w' = true /\
    World.time w' = World.time w + INR n * dt /\
    length (World.joints w') = length (World.joints w) /\
    List.filter is_world_step h = replicate n (CWorldStep dt) /\
    List.filter is_move_to h = [] /\
    (forall i,
       (forall k, (k < n)%nat -> locked_at i (state_of (ticks k dt w))) ->
       position i w' = position i w).
Proof.
  induction n as [|n IH]; intros w Hwf.
  - exists w, []. repeat split; try assumption. cbn [INR]. lra.
  - rewrite ticks_succ.
    destruct (World_step_facts dt w) as (Ht & Hsh & _ & Hq & Hws & Hmt & _ & Hret).
    destruct (Hret Hwf) as [Hr Hwf1].
    destruct (World.step dt w) as [[r w1] h1] eqn:E.
    unfold result_of, state_of, calls_of in *; cbn [fst snd] in *. subst r.
    destruct (IH w1 Hwf1) as (w' & h & E' & Hwf' & Ht' & Hlen' & Hws' & Hmt' & Hq').
    exists w', (h1 ++ h). erewrite bind_cases by exact E. rewrite E'.
    unfold result_of, state_of, calls_of; cbn [fst snd].
    split; [reflexivity|]. split; [assumption|].
    split; [rewrite Ht', Ht, S_INR; lra|].
    split; [rewrite Hlen'; apply (fmap_length_eq _ _ _ Hsh)|].
    split; [rewrite List.filter_app, Hws, Hws'; reflexivity|].
    split; [rewrite List.filter_app, Hmt, Hmt'; reflexivity|].
    intros i Hlocked.
    rewrite Hq'.
    + destruct (Hlocked 0%nat (Nat.lt_0_succ n)) as (j & Ej & Hl).
      cbn in Ej. unfold position. rewrite (Hq i j Ej Hl), Ej. reflexivity.
    + intros k Hk. specialize (Hlocked (S k) (proj1 (Nat.succ_lt_mono k n) Hk)).
      rewrite ticks_succ in Hlocked.
      erewrite bind_cases in Hlocked by exact E. exact Hlocked.
Qed.

(** ** ActionMachine.check_state *)

Lemma get_joint_eq i w j :
  World.joints w !! i = Some j -> World.get_joint i w = (Ret j, w, []).
Proof. intros E. unfold World.get_joint. rewrite E. reflexivity. Qed.

Lemma controller_at_eq am j c w :
  ActionMachine.controllers am !! j = Some c ->
  ActionMachine.controller_at am j w = (Ret c, w, []).
Proof. intros E. unfold ActionMachine.controller_at. rewrite E. reflexivity. Qed.

Lemma at_controller_eq {A} k (m : M Controller.t A) w c r c' h :
  World.listeners w !! k = Some (LController c) -> m c = (r, c', h) ->
  World.at_controller k m w =
    (r, World.set_listeners (<[k := LController c']> (World.listeners w)) w, h).
Proof.
  intros E Hm. unfold World.at_controller.
  erewrite bind_quiet by (apply listener_ref_eq, E).
  unfold zoom. rewrite Hm. reflexivity.
Qed.

Lemma armed_wf c ctl w :
  World.listeners w !! c = Some (LController ctl) -> wf w = true -> wf (armed c ctl w) = true.
Proof.
  intros E. apply wf_frame; [reflexivity|].
  unfold armed; cbn [World.listeners World.set_listeners].
  eapply fmap_insert_same; [exact E | reflexivity].
Qed.

Lemma ten_ticks : INR 10 = 10.
Proof. change 10%nat with (Z.to_nat 10). rewrite INR_IZR_INZ. reflexivity. Qed.

(** C1: on a well-formed world, [check_state j] returns; it arms the
    controller [controllers[j]] with force 10 for duration 1, advances the
    world by exactly ten ticks of size [tau], and returns 0 if the position
    of joint [j] changed by more than 0.01 in absolute value and 1
    otherwise; if the joint is locked at the start of each of the ten
    ticks, it returns 1. *)
Theorem check_state_probes_mobility
    (am : ActionMachine.t) (j : nat) (w : World.t)
    (old : Joint.t) (c : nat) (ctl : Controller.t) :
  wf w = true ->
  World.joints w !! j = Some old ->
  ActionMachine.controllers am !! j = Some c ->
  World.listeners w !! c = Some (LController ctl) ->
  let x := ActionMachine.check_state am j w in
  let w1 := armed c ctl w in
  let tau := ActionMachine.tau am in
  exists (r : nat) (new : Joint.t),
    result_of x = Ret r /\
    World.listeners w1 !! c = Some (LController (Controller.apply_force 1 10 ctl)) /\
    Controller.force_control (Controller.apply_force 1 10 ctl) = true /\
    Controller.force_controller (Controller.apply_force 1 10 ctl)
      = ForceController.mk (ForceController.joint (Controller.force_controller ctl)) 1 10 /\
    state_of x = state_of (ticks 10 tau w1) /\
    calls_of x = CApplyForce c 1 10 :: calls_of (ticks 10 tau w1) /\
    List.filter is_world_step (calls_of x) = replicate 10 (CWorldStep tau) /\
    World.time (state_of x) = World.time w + 10 * tau /\
    World.joints (state_of x) !! j = Some new /\
    (Rabs (Joint.q old - Joint.q new) > 0.01 -> r = 0%nat) /\
    (Rabs (Joint.q old - Joint.q new) <= 0.01 -> r = 1%nat) /\
    ((forall k, (k < 10)%nat -> locked_at j (state_of (ticks k tau w1))) -> r = 1%nat).
Proof.
  intros Hwf Ej Ec El. cbv zeta.
  destruct (ticks_facts (ActionMachine.tau am) 10 (armed c ctl w) (armed_wf c ctl w El Hwf))
    as (w' & h & E & Hwf' & Ht & Hlen & Hws & _ & Hq).
  assert (Hnew : exists new, World.joints w' !! j = Some new).
  { apply lookup_lt_is_Some_2. rewrite Hlen. eapply lookup_lt_Some, Ej. }
  destruct Hnew as [new Enew].
  assert (Erun : ActionMachine.check_state am j w =
            (Ret (if bool_decide (Rabs (Joint.q old - Joint.q new) > 0.01)
                  then 0%nat else 1%nat), w', CApplyForce c 1 10 :: h)).
  { unfold ActionMachine.check_state.
    erewrite bind_quiet by (apply get_joint_eq, Ej).
    erewrite bind_quiet by (apply controller_at_eq, Ec).
    rewrite bind_emit.
    erewrite bind_quiet by (eapply at_controller_eq; [exact El | reflexivity]).
    fold (armed c ctl w). fold (ticks 10 (ActionMachine.tau am)).
    erewrite bind_cases by exact E.
    erewrite bind_quiet by (apply get_joint_eq, Enew).
    unfold ret, logged, result_of, state_of, calls_of; cbn [fst snd].
    rewrite app_nil_r. reflexivity. }
  rewrite Erun, E. unfold result_of, state_of, calls_of; cbn [fst snd].
  eexists _, new. split; [reflexivity|].
  split. { unfold armed; cbn [World.listeners World.set_listeners].
           apply list_lookup_insert_eq. eapply lookup_lt_Some, El. }
  split; [reflexivity|]. split; [reflexivity|]. split; [reflexivity|].
  split; [reflexivity|]. split; [exact Hws|].
  split. { rewrite Ht, ten_ticks. reflexivity. }
  split; [exact Enew|].
  split. { intros H. rewrite bool_decide_eq_true_2 by exact H. reflexivity. }
  split. { intros H. rewrite bool_decide_eq_false_2 by lra. reflexivity. }
  intros Hlocked. specialize (Hq j Hlocked).
  unfold position in Hq. rewrite Enew in Hq.
  unfold armed in Hq; cbn [World.joints World.set_listeners] in Hq. rewrite Ej in Hq.
  injection Hq as Hq. rewrite Hq.
  rewrite bool_decide_eq_false_2; [reflexivity|].
  replace (Joint.q old - Joint.q old) with 0 by lra. rewrite Rabs_R0. lra.
Qed.

(** ** Lockers in the world *)

Lemma locker_outcome w (locker locked : nat) (a b b' : Joint.t) (cond : Prop) :
  World.joints w !! locker = Some a ->
  World.joints w !! locked = Some b ->
  Joint.q b' = Joint.q b ->
  (Joint.locked b' = true <-> cond) ->
  exists a' b'',
    <[locked := b']> (World.joints w) !! locker = Some a' /\
    <[locked := b']> (World.joints w) !! locked = Some b'' /\
    Joint.q a' = Joint.q a /\
    (Joint.locked b'' = true <-> cond).
Proof.
  intros Ea Eb Hq Hc.
  assert (Hb : <[locked := b']> (World.joints w) !! locked = Some b')
    by (apply list_lookup_insert_eq; eapply lookup_lt_Some, Eb).
  destruct (decide (locker = locked)) as [->|Hne].
  - exists b', b'. repeat split; try assumption; try apply Hc. congruence.
  - exists a, b'. rewrite list_lookup_insert_ne by auto.
    repeat split; try assumption; apply Hc.
Qed.

(** C6: after the step of a Locker the target joint is locked exactly
    when the locker joint's position lies strictly between [lower] and
    [upper]; after the step of a MultiLocker, exactly when it lies in one
    of the closed intervals of [locks]; whatever the target's lock flag
    was before, and also when locker and target are one joint. *)
Theorem lockers_decide_the_lock (w : World.t) (k : nat) (dt : R) (a b : Joint.t) :
  (forall l : Locker.t,
     World.listeners w !! k = Some (LLocker l) ->
     World.joints w !! Locker.locker l = Some a ->
     World.joints w !! Locker.locked l = Some b ->
     let x := World.listener_step k dt w in
     result_of x = Ret tt /\
     exists a' b',
       World.joints (state_of x) !! Locker.locker l = Some a' /\
       World.joints (state_of x) !! Locker.locked l = Some b' /\
       Joint.q a' = Joint.q a /\
       (Joint.locked b' = true
        <-> in_open_interval (Locker.lower l) (Locker.upper l) (Joint.q a'))) /\
  (forall m : MultiLocker.t,
     World.listeners w !! k = Some (LMultiLocker m) ->
     World.joints w !! MultiLocker.locker m = Some a ->
     World.joints w !! MultiLocker.locked m = Some b ->
     let x := World.listener_step k dt w in
     result_of x = Ret tt /\
     exists a' b',
       World.joints (state_of x) !! MultiLocker.locker m = Some a' /\
       World.joints (state_of x) !! MultiLocker.locked m = Some b' /\
       Joint.q a' = Joint.q a /\
       (Joint.locked b' = true
        <-> in_some_closed_interval (MultiLocker.locks m) (Joint.q a'))).
Proof.
  split.
  - intros l El Ea Eb. cbv zeta. unfold World.listener_step.
    erewrite bind_quiet by (apply listener_ref_eq, El). cbv beta iota.
    erewrite bind_quiet by (apply joint_ref_eq, Ea).
    pose proof (open_interval_decide (Locker.lower l) (Locker.upper l) (Joint.q a)) as Hc.
    pose proof (Locker_step_eq l dt (Joint.q a) b) as Es.
    destruct (_ && _), (Joint.locked b) eqn:Hb;
      rewrite (at_joint_eq _ _ _ _ _ _ _ Eb Es);
      unfold result_of, state_of; cbn [fst snd World.joints World.set_joints];
      (split; [reflexivity|]).
    all: match goal with |- context [<[_ := ?b']> _] =>
           destruct (locker_outcome w (Locker.locker l) (Locker.locked l) a b b'
                       (in_open_interval (Locker.lower l) (Locker.upper l) (Joint.q a))
                       Ea Eb) as (a' & b'' & H1 & H2 & H3 & H4);
             [reflexivity | cbn [Joint.locked Joint.lock Joint.unlock Joint.set_locked];
                            rewrite ?Hb, <- Hc; tauto
             | exists a', b''; rewrite H3; auto] end.
  - intros m El Ea Eb. cbv zeta. unfold World.listener_step.
    erewrite bind_quiet by (apply listener_ref_eq, El). cbv beta iota.
    erewrite bind_quiet by (apply joint_ref_eq, Ea).
    pose proof (should_be_locked_iff (MultiLocker.locks m) (Joint.q a)) as Hc.
    pose proof (MultiLocker_step_eq m dt (Joint.q a) b) as Es. cbv zeta in Es.
    destruct (MultiLocker.should_be_locked _ _), (Joint.locked b) eqn:Hb;
      cbn [negb andb] in Es;
      rewrite (at_joint_eq _ _ _ _ _ _ _ Eb Es);
      unfold result_of, state_of; cbn [fst snd World.joints World.set_joints];
      (split; [reflexivity|]).
    all: match goal with |- context [<[_ := ?b']> _] =>
           destruct (locker_outcome w (MultiLocker.locker m) (MultiLocker.locked m) a b b'
                       (in_some_closed_interval (MultiLocker.locks m) (Joint.q a))
                       Ea Eb) as (a' & b'' & H1 & H2 & H3 & H4);
             [reflexivity | cbn [Joint.locked Joint.lock Joint.unlock Joint.set_locked];
                            rewrite ?Hb, <- Hc; tauto
             | exists a', b''; rewrite H3; auto] end.
Qed.

(** ** Controller.step *)

(** C8: when force mode and position mode are both on and the force
    command is not finished, the desired force of [Controller.step] is the
    output of [ForceController.step], and neither the position controller
    nor the generator is touched; and in every call that returns, the
    force passed to [add_force] is [sgn(desired) * min(|desired|, 15)],
    the only call made on the joint. *)
Theorem force_mode_takes_priority (s : Controller.scene) (dt : R) :
  Controller.max_force (Controller.self s) = 15 ->
  let x := Controller.step dt s in
  let c := Controller.self s in
  (Controller.force_control c = true ->
   Controller.position_control c = true ->
   ForceController.is_done (Controller.force_controller c) = false ->
   exists desired,
     ForceController.step dt (Controller.force_controller c)
       = (Ret desired, Controller.force_controller (Controller.self (state_of x)), []) /\
     result_of x = Ret (sgn desired * Rmin (Rabs desired) 15, desired) /\
     Controller.position_controller (Controller.self (state_of x))
       = Controller.position_controller c /\
     Controller.rand (state_of x) = Controller.rand s) /\
  (forall applied desired,
     result_of x = Ret (applied, desired) ->
     applied = sgn desired * Rmin (Rabs desired) 15 /\
     calls_of x = [CAddForce (Controller.joint c) applied] /\
     Controller.joint_obj (state_of x)
       = Joint.add_force applied (Controller.joint_obj s)) /\
  (forall i f,
     In (CAddForce i f) (calls_of x) ->
     exists desired, result_of x = Ret (f, desired)).
Proof.
  intros Hmax. cbv zeta. split; [|split].
  - intros Hf _ Hd.
    rewrite (Controller_step_in_force_mode dt s Hf Hd). cbv zeta.
    unfold result_of, state_of; cbn [fst snd Controller.self Controller.rand
      Controller.set_force_controller Controller.force_controller
      Controller.position_controller].
    eexists. split; [apply ForceController_step_eq|].
    rewrite Hmax. repeat split.
  - intros applied desired Hr.
    destruct (Controller_step_cases dt s) as (r & s' & h & E & _ & _ & _ & Hcases).
    rewrite E in *. unfold result_of, state_of, calls_of in *; cbn [fst snd] in *.
    destruct Hcases as [(d & Hd & Hh & Hj)|(Hd & _)]; [|congruence].
    cbv zeta in Hd. rewrite Hd in Hr. injection Hr as <- <-.
    rewrite Hmax in *. repeat split; assumption.
  - intros i f Hin.
    destruct (Controller_step_cases dt s) as (r & s' & h & E & _ & _ & _ & Hcases).
    rewrite E in *. unfold result_of, calls_of in *; cbn [fst snd] in *.
    destruct Hcases as [(d & Hd & Hh & Hj)|(_ & Hh & _)];
      rewrite Hh in Hin; cbn in Hin; [|tauto].
    destruct Hin as [Hin|[]]. injection Hin as _ <-.
    exists d. exact Hd.
Qed.

Lemma force_mode_takes_priority_witness :
  let s := Controller.mk_scene
             (Controller.apply_force 1 10
                (Controller.move_to (VNum 50) (Controller.init 0)))
             handle calm in
  result_of (Controller.step 0.1 s) = Ret (10, 10) /\
  Controller.position_controller (Controller.self (state_of (Controller.step 0.1 s)))
    = PositionController.move_to (VNum 50) (PositionController.init 0).
Proof.
  cbv zeta.
  destruct (force_mode_takes_priority
              (Controller.mk_scene
                 (Controller.apply_force 1 10
                    (Controller.move_to (VNum 50) (Controller.init 0)))
                 handle calm) 0.1 eq_refl) as (H & _ & _).
  destruct H as (desired & Hfc & Hr & Hpc & _); [reflexivity | reflexivity | |].
  - change (bool_decide (1 <= 0) = false). apply bool_decide_eq_false_2. lra.
  - rewrite ForceController_step_eq in Hfc.
    change (ForceController.time _) with 1 in Hfc.
    change (ForceController.force _) with 10 in Hfc.
    rewrite decide_True in Hfc by lra. injection Hfc as <- _.
    split; [|exact Hpc].
    rewrite Hr. f_equal. f_equal.
    unfold sgn. rewrite decide_False by lra.
    rewrite Rabs_right by lra. unfold Rmin. destruct (Rle_dec 10 15); lra.
Defined.

(** ** Locked joints out of the lockers' reach *)

Lemma keeps_lock_refl i w : keeps_lock i w w.
Proof. split; reflexivity. Qed.

Lemma keeps_lock_trans i w1 w2 w3 :
  keeps_lock i w1 w2 -> keeps_lock i w2 w3 -> keeps_lock i w1 w3.
Proof. intros [] []. split; congruence. Qed.

Lemma out_of_reach_keeps i w w' :
  lock_target <$> World.listeners w' = lock_target <$> World.listeners w ->
  out_of_reach i w -> out_of_reach i w'.
Proof.
  unfold out_of_reach. intros E H.
  apply (Forall_fmap lock_target (fun t => t <> Some i)).
  rewrite E. apply Forall_fmap. exact H.
Qed.

Lemma add_force_locked f j : Joint.locked (Joint.add_force f j) = Joint.locked j.
Proof. unfold Joint.add_force. destruct (negb _); reflexivity. Qed.

Lemma listener_step_keeps_lock k dt w i :
  out_of_reach i w -> keeps_lock i w (state_of (World.listener_step k dt w)).
Proof.
  intros Hout. unfold World.listener_step.
  destruct (World.listeners w !! k) as [l|] eqn:El.
  2:{ unfold World.listener_ref, bind. rewrite El. apply keeps_lock_refl. }
  erewrite bind_quiet by (apply listener_ref_eq, El).
  assert (Hl : lock_target l <> Some i).
  { unfold out_of_reach in Hout. rewrite Forall_forall in Hout.
    apply Hout. eapply list_elem_of_lookup_2, El. }
  assert (Hlocker : forall (locker target : nat) (m : R -> M Joint.t unit),
    lock_target l = Some target ->
    keeps_lock i w
      (state_of ((a <- World.joint_ref locker;; World.at_joint target (m (Joint.q a))) w))).
  { intros locker target m Ht.
    destruct (World.joints w !! locker) as [a|] eqn:Ea.
    2:{ unfold World.joint_ref, bind. rewrite Ea. apply keeps_lock_refl. }
    erewrite bind_quiet by (apply joint_ref_eq, Ea).
    destruct (World.joints w !! target) as [b|] eqn:Eb.
    2:{ rewrite at_joint_dangling by exact Eb. apply keeps_lock_refl. }
    destruct (m (Joint.q a) b) as [[r b'] h] eqn:Em.
    rewrite (at_joint_eq _ _ _ _ _ _ _ Eb Em).
    split; cbn [state_of fst snd World.joints World.listeners World.set_joints];
      [|reflexivity].
    rewrite list_lookup_insert_ne; [reflexivity|]. congruence. }
  destruct l as [c|l|m]; [|apply Hlocker; reflexivity..].
  destruct (World.joints w !! Controller.joint c) as [j|] eqn:Ej.
  2:{ unfold World.joint_ref, bind. rewrite Ej. apply keeps_lock_refl. }
  erewrite bind_quiet by (apply joint_ref_eq, Ej).
  destruct (Controller_step_cases dt (Controller.mk_scene c j (World.random w)))
    as (r & s' & h & E & _ & _ & _ & Hcases).
  erewrite bind_forget by (unfold zoom; cbn [Controller.self]; rewrite E; reflexivity).
  split; cbn [state_of fst snd World.joints World.listeners Controller.joint_obj] in *.
  - rewrite <- !list_lookup_fmap. f_equal.
    eapply fmap_insert_same; [exact Ej|].
    destruct Hcases as [(d & _ & _ & ->)|(_ & _ & -> & _)];
      [apply add_force_locked | reflexivity].
  - eapply fmap_insert_same; [exact El | reflexivity].
Qed.

Lemma inform_loop_keeps_lock dt i n : forall a w,
  out_of_reach i w ->
  keeps_lock i w (state_of (for_each (seq a n) (inform dt) w)).
Proof.
  induction n as [|n IH]; intros a w Hout; [apply keeps_lock_refl|].
  cbn [seq for_each].
  pose proof (listener_step_keeps_lock a dt w i Hout) as Hk.
  destruct (World.listener_step a dt w) as [[r w1] h] eqn:E.
  erewrite bind_cases by (rewrite inform_eq, E; reflexivity).
  cbn [state_of fst snd logged] in *.
  destruct r as [[]|e|]; cbn [fst snd]; try exact Hk.
  eapply keeps_lock_trans; [exact Hk|].
  apply IH. eapply out_of_reach_keeps; [apply Hk | exact Hout].
Qed.

Lemma World_step_keeps_locked dt w i :
  out_of_reach i w -> locked_at i w ->
  out_of_reach i (state_of (World.step dt w)) /\ locked_at i (state_of (World.step dt w)).
Proof.
  intros Hout (j & Ej & Hl).
  destruct (World_step_phases dt w) as (n & _ & Hcases & _). cbv zeta in Hcases.
  assert (Hmid : World.joints (midway dt n w) !! i = Some j)
    by (apply stepped_locked; assumption).
  destruct Hcases as [[_ E]|[e E]]; rewrite E; cbv zeta; cbn [state_of fst snd].
  - rewrite inform_listeners_eq.
    destruct (inform_loop_keeps_lock dt i (length (World.listeners (midway dt n w))) 0
                (midway dt n w) Hout) as [Hk1 Hk2].
    split; [eapply out_of_reach_keeps; [exact Hk2 | exact Hout]|].
    rewrite Hmid in Hk1. apply fmap_Some in Hk1 as (j' & Ej' & Hj').
    exists j'. split; [exact Ej' | congruence].
  - split; [exact Hout|]. exists j. split; assumption.
Qed.

Lemma ticks_keep_locked dt i n : forall w,
  out_of_reach i w -> locked_at i w -> locked_at i (state_of (ticks n dt w)).
Proof.
  induction n as [|n IH]; intros w Hout Hl; [exact Hl|].
  rewrite ticks_succ.
  destruct (World_step_keeps_locked dt w i Hout Hl) as [Hout1 Hl1].
  destruct (World.step dt w) as [[r w1] h1] eqn:E.
  erewrite bind_cases by exact E.
  cbn [state_of fst snd] in *.
  destruct r as [[]|e|]; cbn [fst snd]; try exact Hl1.
  apply IH; assumption.
Qed.

(** ** Instances on the lockbox *)

Lemma check_state_probes_mobility_witness :
  (exists (r : nat) (new : Joint.t),
     result_of (ActionMachine.check_state lockbox_machine 1 lockbox) = Ret r /\
     World.joints (state_of (ActionMachine.check_state lockbox_machine 1 lockbox)) !! 1%nat
       = Some new /\
     (Rabs (0 - Joint.q new) > 0.01 -> r = 0%nat) /\
     (Rabs (0 - Joint.q new) <= 0.01 -> r = 1%nat)) /\
  result_of (ActionMachine.check_state lockbox_machine 0 jammed) = Ret 1%nat.
Proof.
  split.
  - destruct (check_state_probes_mobility lockbox_machine 1 lockbox
                (Joint.set_index 1 window) 2 (Controller.init 1)
                eq_refl eq_refl eq_refl eq_refl)
      as (r & new & Hr & _ & _ & _ & _ & _ & _ & _ & Hnew & Hmoved & Hstill & _).
    exists r, new. repeat split; assumption.
  - destruct (check_state_probes_mobility lockbox_machine 0 jammed
                (Joint.set_index 0 (Joint.lock handle)) 1 (Controller.init 0)
                eq_refl eq_refl eq_refl eq_refl)
      as (r & new & Hr & _ & _ & _ & _ & _ & _ & _ & _ & _ & _ & Hlocked).
    rewrite Hr. f_equal. apply Hlocked. intros k _.
    apply ticks_keep_locked.
    + repeat constructor; discriminate.
    + eexists. split; reflexivity.
Defined.

Lemma lockers_decide_the_lock_witness :
  (exists b',
     World.joints (state_of (World.listener_step 0 0.1 latched)) !! 1%nat = Some b' /\
     (Joint.locked b' = true <-> in_open_interval (-10) 10 0)) /\
  (exists b',
     World.joints (state_of (World.listener_step 0 0.1 lockbox)) !! 1%nat = Some b' /\
     (Joint.locked b' = true <-> in_some_closed_interval [(0, 80); (100, 180)] 0)).
Proof.
  split.
  - destruct (proj1 (lockers_decide_the_lock latched 0 0.1
                       (Joint.set_index 0 handle) (Joint.set_index 1 window))
                (Locker.mk 0 1 (-10) 10) eq_refl eq_refl eq_refl)
      as (_ & a' & b' & _ & Hb & Hq & Hl).
    exists b'. split; [exact Hb|]. rewrite Hq in Hl. exact Hl.
  - destruct (proj2 (lockers_decide_the_lock lockbox 0 0.1
                       (Joint.set_index 0 handle) (Joint.set_index 1 window))
                (MultiLocker.mk 0 1 [(0, 80); (100, 180)]) eq_refl eq_refl eq_refl)
      as (_ & a' & b' & _ & Hb & Hq & Hl).
    exists b'. split; [exact Hb|]. rewrite Hq in Hl. exact Hl.
Defined.

(** ** ActionMachine.run_action *)

Lemma bind_ext {S A B} (m : M S A) (k1 k2 : A -> M S B) s :
  (forall a s', k1 a s' = k2 a s') -> (x <- m;; k1 x) s = (x <- m;; k2 x) s.
Proof.
  intros H. unfold bind. destruct (m s) as [[[a| |] s1] h1]; try reflexivity.
  rewrite H. reflexivity.
Qed.

Lemma bind_cong {S A B} (m1 m2 : M S A) (k1 k2 : A -> M S B) s :
  m1 s = m2 s -> (forall a s', k1 a s' = k2 a s') ->
  (x <- m1;; k1 x) s = (x <- m2;; k2 x) s.
Proof. intros Hm Hk. unfold bind at 1. rewrite Hm. apply (bind_ext m2 k1 k2 s Hk). Qed.

Lemma for_each_ext {S X} (xs : list X) (f g : X -> M S unit) :
  (forall x s, f x s = g x s) -> forall s, for_each xs f s = for_each xs g s.
Proof.
  intros H. induction xs as [|x xs IH]; intros s; [reflexivity|].
  cbn [for_each]. unfold bind. rewrite H.
  destruct (g x s) as [[[[]| |] s1] h1]; try reflexivity.
  rewrite IH. reflexivity.
Qed.

Lemma wait_done_eq fuel am j c :
  ActionMachine.controllers am !! j = Some c ->
  forall w, ActionMachine.wait_done fuel am j w
            = advance_until_done fuel (ActionMachine.tau am) c w.
Proof.
  intros Ec. induction fuel as [|fuel IH]; intros w;
    cbn [ActionMachine.wait_done advance_until_done];
    (erewrite bind_quiet by (apply controller_at_eq, Ec));
    apply bind_ext; intros done w'; destruct done; cbn [negb]; try reflexivity.
  apply bind_ext. intros _ w''. apply IH.
Qed.

Lemma run_action_from fuel am (targets : list R) : forall a w,
  for_each (zip (seq a (length targets)) (VNum <$> targets))
    (fun '(j, p) =>
       c <- ActionMachine.controller_at am j;;
       emit (CMoveTo c p);;
       World.at_controller c (modify (Controller.move_to p));;
       ActionMachine.wait_done fuel am j) w
  = for_each (zip (seq a (length targets)) targets)
      (fun '(joint_index, target) =>
         c <- ActionMachine.controller_at am joint_index;;
         emit (CMoveTo c (VNum target));;
         World.at_controller c (modify (Controller.move_to (VNum target)));;
         advance_until_done fuel (ActionMachine.tau am) c) w.
Proof.
  induction targets as [|t targets IH]; intros a w; [reflexivity|].
  cbn [length seq fmap list_fmap zip zip_with for_each].
  assert (Hbody : forall s,
    (c <- ActionMachine.controller_at am a;;
     emit (CMoveTo c (VNum t));;
     World.at_controller c (modify (Controller.move_to (VNum t)));;
     ActionMachine.wait_done fuel am a) s
    = (c <- ActionMachine.controller_at am a;;
       emit (CMoveTo c (VNum t));;
       World.at_controller c (modify (Controller.move_to (VNum t)));;
       advance_until_done fuel (ActionMachine.tau am) c) s).
  { intros s.
    destruct (ActionMachine.controllers am !! a) as [c|] eqn:Ec.
    - rewrite !(bind_quiet _ _ _ _ _ (controller_at_eq am a c s Ec)).
      apply bind_ext. intros _ s1. apply bind_ext. intros _ s2.
      apply wait_done_eq, Ec.
    - unfold ActionMachine.controller_at. rewrite Ec. reflexivity. }
  apply bind_cong; [apply Hbody | intros _ s1; apply IH].
Qed.

Lemma set_listeners_same k l w :
  World.listeners w !! k = Some l ->
  World.set_listeners (<[k := l]> (World.listeners w)) w = w.
Proof. intros E. rewrite list_insert_id by exact E. destruct w; reflexivity. Qed.

Lemma at_controller_cases {A} k (m : M Controller.t A) w :
  (exists ctl, World.listeners w !! k = Some (LController ctl) /\
     World.at_controller k m w =
       (result_of (m ctl),
        World.set_listeners (<[k := LController (state_of (m ctl))]> (World.listeners w)) w,
        calls_of (m ctl)))
  \/ (exists e, World.at_controller k m w = (Raise e, w, [])).
Proof.
  unfold World.at_controller, World.listener_ref.
  destruct (World.listeners w !! k) as [[ctl|l|l]|] eqn:E.
  - left. exists ctl. split; [reflexivity|].
    rewrite bind_quiet with (a := LController ctl) (s1 := w)
      by (rewrite E; reflexivity).
    unfold zoom. destruct (m ctl) as [[? ?] ?]. reflexivity.
  - right. exists AttributeError.
    rewrite bind_quiet with (a := LLocker l) (s1 := w) by (rewrite E; reflexivity).
    reflexivity.
  - right. exists AttributeError.
    rewrite bind_quiet with (a := LMultiLocker l) (s1 := w) by (rewrite E; reflexivity).
    reflexivity.
  - right. exists BadReference. unfold bind. rewrite E. reflexivity.
Qed.

Lemma advance_facts tau c fuel : forall w,
  let x := advance_until_done fuel tau c w in
  List.filter is_move_to (calls_of x) = [] /\
  (exists n, List.filter is_world_step (calls_of x) = replicate n (CWorldStep tau)) /\
  (result_of x = Ret tt ->
   exists ctl, World.listeners (state_of x) !! c = Some (LController ctl) /\
               Controller.is_done ctl = true).
Proof.
  induction fuel as [|fuel IH]; intros w; cbv zeta; cbn [advance_until_done].
  all: destruct (at_controller_cases c (gets Controller.is_done) w)
         as [(ctl & El & E)|(e & E)];
       [ cbn [gets result_of state_of calls_of fst snd] in E;
         rewrite (set_listeners_same _ _ _ El) in E;
         rewrite (bind_quiet _ _ _ _ _ E);
         destruct (Controller.is_done ctl) eqn:Hd
       | rewrite (bind_run_raise _ _ _ _ _ _ E) ].
  all: try (unfold result_of, state_of, calls_of; cbn [fst snd List.filter];
            split; [reflexivity|]; split; [exists 0%nat; reflexivity|];
            first [ discriminate | intros _; exists ctl; split; assumption ]).
  destruct (World_step_facts tau w) as (_ & _ & _ & _ & Hws & Hmt & _).
  destruct (World.step tau w) as [[r w1] h1] eqn:Es.
  unfold calls_of in Hws, Hmt; cbn [snd] in Hws, Hmt.
  erewrite bind_cases by exact Es.
  destruct r as [[]|e|].
  - destruct (IH w1) as (IHm & (n & IHw) & IHd).
    unfold result_of, state_of, calls_of in *; cbn [fst snd].
    rewrite !List.filter_app, Hmt, Hws, IHm, IHw.
    split; [reflexivity|]. split; [exists (S n); reflexivity | exact IHd].
  - unfold result_of, state_of, calls_of; cbn [fst snd]. rewrite Hmt, Hws.
    split; [reflexivity|]. split; [exists 1%nat; reflexivity | discriminate].
  - unfold result_of, state_of, calls_of; cbn [fst snd]. rewrite Hmt, Hws.
    split; [reflexivity|]. split; [exists 1%nat; reflexivity | discriminate].
Qed.

Lemma drive_facts fuel am j p w :
  let x := drive fuel am (j, p) w in
  (exists n, List.filter is_world_step (calls_of x)
             = replicate n (CWorldStep (ActionMachine.tau am))) /\
  (result_of x = Ret tt ->
   exists c, ActionMachine.controllers am !! j = Some c /\
             List.filter is_move_to (calls_of x) = [CMoveTo c (VNum p)]).
Proof.
  cbv zeta. unfold drive.
  destruct (ActionMachine.controllers am !! j) as [c|] eqn:Ec.
  2:{ unfold ActionMachine.controller_at. rewrite Ec.
      split; [exists 0%nat; reflexivity | discriminate]. }
  rewrite (bind_quiet _ _ _ _ _ (controller_at_eq am j c w Ec)), bind_emit.
  destruct (at_controller_cases c (modify (Controller.move_to (VNum p))) w)
    as [(ctl & El & E)|(e & E)].
  - cbn [modify result_of state_of calls_of fst snd] in E.
    rewrite (bind_quiet _ _ _ _ _ E).
    match goal with |- context [advance_until_done ?f ?t ?k ?s] =>
      destruct (advance_facts t k f s) as (Hm & Hw & _) end.
    unfold logged, result_of, calls_of in *; cbn [fst snd List.filter is_world_step is_move_to].
    split; [exact Hw|]. intros _. exists c. rewrite Hm. split; reflexivity.
  - rewrite (bind_run_raise _ _ _ _ _ _ E).
    split; [exists 0%nat; reflexivity | discriminate].
Qed.

Lemma run_from_facts fuel am (targets : list R) : forall a w,
  let x := for_each (zip (seq a (length targets)) targets) (drive fuel am) w in
  let cs := take (length targets) (drop a (ActionMachine.controllers am)) in
  (exists n, List.filter is_world_step (calls_of x)
             = replicate n (CWorldStep (ActionMachine.tau am))) /\
  (result_of x = Ret tt ->
   length cs = length targets /\
   List.filter is_move_to (calls_of x) = moves cs targets).
Proof.
  induction targets as [|t targets IH]; intros a w; cbv zeta.
  - cbn. split; [exists 0%nat; reflexivity|]. intros _. rewrite take_0. split; reflexivity.
  - cbn [length seq zip zip_with for_each].
    destruct (drive_facts fuel am a t w) as ((n & Hw) & Hr).
    destruct (drive fuel am (a, t) w) as [[r w1] h1] eqn:E.
    erewrite bind_cases by exact E.
    unfold result_of, calls_of in Hw, Hr; cbn [fst snd] in Hw, Hr.
    destruct r as [[]|e|].
    + destruct (IH (S a) w1) as ((n' & IHw) & IHr).
      unfold result_of, state_of, calls_of in *; cbn [fst snd].
      rewrite !List.filter_app, Hw, IHw.
      split; [exists (n + n')%nat; rewrite replicate_add; reflexivity|].
      intros Hret. destruct (Hr eq_refl) as (c & Ec & ->).
      destruct (IHr Hret) as (Hlen & ->).
      rewrite (drop_S _ _ _ Ec). cbn [take length moves zip_with app].
      split; [f_equal; exact Hlen | reflexivity].
    + unfold result_of, calls_of; cbn [fst snd].
      split; [exists n; exact Hw | discriminate].
    + unfold result_of, calls_of; cbn [fst snd].
      split; [exists n; exact Hw | discriminate].
Qed.

(** C3, as the code has it: on a sequence of target positions,
    [run_action] does for the k-th target what the reading over pairs
    does for the pair (k, target): [move_to(target)] on the k-th
    controller, then ticks of size [tau] until that controller is done;
    when it returns, the [move_to] calls made are those, in order, and
    every tick made has size [tau]. *)
Theorem run_action_goes_by_position
    (fuel : nat) (am : ActionMachine.t) (targets : list R) (w : World.t) :
  let x := ActionMachine.run_action fuel am (VNum <$> targets) w in
  x = run_action_spec fuel am (enumerate targets) w /\
  (exists n, List.filter is_world_step (calls_of x)
             = replicate n (CWorldStep (ActionMachine.tau am))) /\
  (result_of x = Ret tt ->
   length targets <= length (ActionMachine.controllers am) /\
   List.filter is_move_to (calls_of x)
     = moves (take (length targets) (ActionMachine.controllers am)) targets)%nat.
Proof.
  cbv zeta.
  assert (E : ActionMachine.run_action fuel am (VNum <$> targets) w
              = for_each (zip (seq 0 (length targets)) targets) (drive fuel am) w).
  { unfold ActionMachine.run_action, enumerate. rewrite length_fmap.
    rewrite run_action_from. apply for_each_ext. intros [j p] s. reflexivity. }
  split.
  - rewrite E. unfold run_action_spec, enumerate.
    apply for_each_ext. intros [j p] s. reflexivity.
  - rewrite E. destruct (run_from_facts fuel am targets 0 w) as (Hw & Hr).
    split; [exact Hw|]. intros Hret. destruct (Hr Hret) as (Hlen & Hm).
    rewrite drop_0 in Hlen, Hm. split; [|exact Hm].
    rewrite length_take in Hlen. lia.
Qed.

(** C3, as stated, fails: the controller is chosen by the position of the
    element, and the whole pair is handed over as the goal. *)
Lemma run_action_ignores_the_joint_index_of_a_pair :
  ActionMachine.run_action 1 lockbox_machine [pair_goal (1%nat, 50)] lockbox
  <> run_action_spec 1 lockbox_machine [(1%nat, 50)] lockbox.
Proof.
  intros H. apply (f_equal calls_of) in H. revert H.
  unfold ActionMachine.run_action, run_action_spec, enumerate.
  cbn [length seq zip zip_with for_each fmap list_fmap]. unfold drive.
  rewrite !bind_assoc.
  rewrite (bind_quiet _ _ _ _ _ (controller_at_eq lockbox_machine 0 1 lockbox eq_refl)).
  rewrite (bind_quiet _ _ _ _ _ (controller_at_eq lockbox_machine 1 2 lockbox eq_refl)).
  rewrite !bind_assoc, !bind_emit.
  unfold logged, calls_of; cbn [snd]. intros H. discriminate H.
Qed.

(** ** Runs on a stuck joint *)

Lemma saturate_0 limit : 0 <= limit -> sgn 0 * Rmin (Rabs 0) limit = 0.
Proof.
  intros H. unfold sgn. rewrite decide_False by lra.
  rewrite Rabs_R0. unfold Rmin. destruct (Rle_dec 0 limit); lra.
Qed.

(** Position mode on a locked joint is over at the next step: the locked
    joint counts as arrived, and no force is asked for. *)
Lemma Controller_step_on_a_locked_joint dt c j rnd g :
  Joint.locked j = true ->
  Controller.force_control c = false ->
  Controller.position_control c = true ->
  PositionController.goal_pos (Controller.position_controller c) = Some (VNum g) ->
  0 <= Controller.max_force c ->
  Controller.step dt (Controller.mk_scene c j rnd)
  = (Ret (0, 0),
     Controller.mk_scene (Controller.set_position_control false c) j rnd,
     [CAddForce (Controller.joint c) 0]).
Proof.
  intros Hl Hf Hp Hg Hmax. unfold Controller.step. mrun.
  cbn [Controller.self]. rewrite Hf. mrun. cbn [Controller.self]. rewrite Hp. mrun.
  erewrite bind_quiet by
    (apply zoom_eq; cbn [Controller.self Controller.joint_obj];
     rewrite PositionController_is_done_eq, Hg; reflexivity).
  unfold Joint.is_locked. rewrite Hl, orb_true_r. mrun.
  cbn [Controller.self Controller.on_self Controller.max_force
       Controller.set_position_control Controller.set_position_controller
       Controller.joint Controller.on_joint_obj Controller.joint_obj Controller.rand].
  rewrite (saturate_0 _ Hmax).
  unfold logged, ret, Controller.on_joint_obj, Controller.on_self.
  cbn [fst snd Controller.self Controller.joint_obj Controller.rand].
  unfold Joint.add_force. rewrite Hl. cbn [negb].
  destruct c; reflexivity.
Qed.

Lemma tick_of_a_locked_joint dt j c t rnd g :
  Joint.locked j = true ->
  Controller.joint c = 0%nat ->
  Controller.force_control c = false ->
  Controller.position_control c = true ->
  PositionController.goal_pos (Controller.position_controller c) = Some (VNum g) ->
  0 <= Controller.max_force c ->
  World.step dt (World.mk [j] [LController c] t rnd)
  = (Ret tt,
     World.mk [j] [LController (Controller.set_position_control false c)] (t + dt) rnd,
     [CWorldStep dt; CJointStep 0 (t + dt) dt; CListenerStep 0 (t + dt) dt;
      CAddForce 0 0]).
Proof.
  intros Hl Hj Hf Hp Hg Hmax.
  set (w1 := World.mk [j] [LController c] (t + dt) rnd).
  assert (E1 : for_each (seq 0 1) (tick_joint dt) w1
               = (Ret tt, w1, [CJointStep 0 (t + dt) dt])).
  { cbn [seq for_each].
    erewrite bind_cases by (apply tick_joint_eq; reflexivity).
    rewrite (Joint_step_when_locked j dt Hl). reflexivity. }
  assert (E2 : World.listener_step 0 dt w1
               = (Ret tt,
                  World.mk [j] [LController (Controller.set_position_control false c)]
                           (t + dt) rnd,
                  [CAddForce 0 0])).
  { unfold World.listener_step.
    erewrite bind_quiet by (apply listener_ref_eq; reflexivity). cbv beta iota.
    erewrite bind_quiet by (apply joint_ref_eq; rewrite Hj; reflexivity).
    erewrite bind_forget by
      (unfold zoom; subst w1; cbn [World.random];
       rewrite (Controller_step_on_a_locked_joint dt c j rnd g Hl Hf Hp Hg Hmax);
       reflexivity).
    rewrite Hj. reflexivity. }
  rewrite World_step_eq.
  change (World.set_time _ _) with w1. change (length (World.joints _)) with 1%nat.
  erewrite bind_cases by exact E1.
  rewrite inform_listeners_eq. cbn [result_of state_of calls_of fst snd].
  change (length (World.listeners w1)) with 1%nat. cbn [seq for_each].
  erewrite bind_cases by (rewrite inform_eq, E2; reflexivity).
  reflexivity.
Qed.

Lemma run_action_on_stuck :
  result_of (ActionMachine.run_action 1 stuck_machine [VNum 50] stuck) = Ret tt.
Proof.
  unfold ActionMachine.run_action, enumerate.
  cbn [length seq zip zip_with for_each fmap list_fmap].
  mrun.
  rewrite (bind_quiet _ _ _ _ _ (controller_at_eq stuck_machine 0 0 stuck eq_refl)).
  mrun.
  erewrite bind_quiet by (eapply at_controller_eq; [reflexivity | reflexivity]).
  cbn [ActionMachine.wait_done].
  mrun.
  erewrite bind_quiet by (apply controller_at_eq; reflexivity).
  mrun.
  erewrite bind_quiet by (eapply at_controller_eq; [reflexivity | reflexivity]).
  change (negb (Controller.is_done _)) with true. cbv iota.
  erewrite bind_cases.
  2:{ erewrite bind_cases.
      2:{ apply (tick_of_a_locked_joint _ _ _ _ _ 50); try reflexivity.
          change (0 <= 15). lra. }
      cbn [result_of state_of calls_of fst snd].
      erewrite bind_quiet by (apply controller_at_eq; reflexivity).
      erewrite bind_quiet by (eapply at_controller_eq; [reflexivity | reflexivity]).
      reflexivity. }
  reflexivity.
Qed.

(** Position mode with a tuple for a goal: the first comparison raises. *)
Lemma Controller_step_on_a_tuple_goal dt c j rnd xs :
  Controller.force_control c = false ->
  Controller.position_control c = true ->
  PositionController.goal_pos (Controller.position_controller c) = Some (VTuple xs) ->
  Controller.step dt (Controller.mk_scene c j rnd)
  = (Raise TypeError, Controller.mk_scene c j rnd, []).
Proof.
  intros Hf Hp Hg. unfold Controller.step. mrun.
  cbn [Controller.self]. rewrite Hf. mrun. cbn [Controller.self]. rewrite Hp. mrun.
  erewrite bind_run_raise by
    (apply zoom_eq; cbn [Controller.self Controller.joint_obj];
     rewrite PositionController_is_done_eq, Hg; reflexivity).
  unfold Controller.on_self. cbn [Controller.self Controller.joint_obj Controller.rand].
  destruct c; reflexivity.
Qed.

Lemma tick_with_a_tuple_goal dt j c t rnd xs :
  Joint.locked j = true ->
  Controller.joint c = 0%nat ->
  Controller.force_control c = false ->
  Controller.position_control c = true ->
  PositionController.goal_pos (Controller.position_controller c) = Some (VTuple xs) ->
  World.step dt (World.mk [j] [LController c] t rnd)
  = (Raise TypeError,
     World.mk [j] [LController c] (t + dt) rnd,
     [CWorldStep dt; CJointStep 0 (t + dt) dt; CListenerStep 0 (t + dt) dt]).
Proof.
  intros Hl Hj Hf Hp Hg.
  set (w1 := World.mk [j] [LController c] (t + dt) rnd).
  assert (E1 : for_each (seq 0 1) (tick_joint dt) w1
               = (Ret tt, w1, [CJointStep 0 (t + dt) dt])).
  { cbn [seq for_each].
    erewrite bind_cases by (apply tick_joint_eq; reflexivity).
    rewrite (Joint_step_when_locked j dt Hl). reflexivity. }
  assert (E2 : World.listener_step 0 dt w1 = (Raise TypeError, w1, [])).
  { unfold World.listener_step.
    erewrite bind_quiet by (apply listener_ref_eq; reflexivity). cbv beta iota.
    erewrite bind_quiet by (apply joint_ref_eq; rewrite Hj; reflexivity).
    erewrite bind_forget by
      (unfold zoom; subst w1; cbn [World.random];
       rewrite (Controller_step_on_a_tuple_goal dt c j rnd xs Hf Hp Hg);
       reflexivity).
    rewrite Hj. reflexivity. }
  rewrite World_step_eq.
  change (World.set_time _ _) with w1. change (length (World.joints _)) with 1%nat.
  erewrite bind_cases by exact E1.
  rewrite inform_listeners_eq. cbn [result_of state_of calls_of fst snd].
  change (length (World.listeners w1)) with 1%nat. cbn [seq for_each].
  erewrite bind_cases by (rewrite inform_eq, E2; reflexivity).
  reflexivity.
Qed.

(** What the code does with a (joint index, target) pair: the pair
    becomes the goal of the controller at the pair's position, and the next
    tick raises. *)
Lemma run_action_on_a_pair_raises :
  result_of (ActionMachine.run_action 1 stuck_machine [pair_goal (0%nat, 50)] stuck)
  = Raise TypeError.
Proof.
  unfold ActionMachine.run_action, enumerate.
  cbn [length seq zip zip_with for_each fmap list_fmap].
  mrun.
  rewrite (bind_quiet _ _ _ _ _ (controller_at_eq stuck_machine 0 0 stuck eq_refl)).
  mrun.
  erewrite bind_quiet by (eapply at_controller_eq; [reflexivity | reflexivity]).
  cbn [ActionMachine.wait_done].
  mrun.
  erewrite bind_quiet by (apply controller_at_eq; reflexivity).
  mrun.
  erewrite bind_quiet by (eapply at_controller_eq; [reflexivity | reflexivity]).
  change (negb (Controller.is_done _)) with true. cbv iota.
  erewrite bind_cases.
  2:{ erewrite bind_cases.
      2:{ apply (tick_with_a_tuple_goal _ _ _ _ _ [INR 0; 50]); reflexivity. }
      reflexivity. }
  reflexivity.
Qed.

Lemma run_action_goes_by_position_witness :
  result_of (ActionMachine.run_action 1 stuck_machine [VNum 50] stuck) = Ret tt /\
  List.filter is_move_to
    (calls_of (ActionMachine.run_action 1 stuck_machine [VNum 50] stuck))
  = [CMoveTo 0 (VNum 50)].
Proof.
  split; [apply run_action_on_stuck|].
  destruct (run_action_goes_by_position 1 stuck_machine [50] stuck) as (_ & _ & H).
  apply H, run_action_on_stuck.
Defined.

(** * Further properties of the code *)

(** ** get_state *)

Lemma get_state_loop_first q : forall (l : list R) a i,
  let r := get_state_loop i q (zip (seq a (length l)) l) in
  l <> [] ->
  (a <= r <= a + length l)%nat /\
  (forall n t, (a + n < r)%nat -> l !! n = Some t -> t <= q) /\
  (forall t, l !! (r - a)%nat = Some t -> q < t).
Proof.
  induction l as [|k l IH]; intros a i; cbv zeta; [congruence|intros _].
  cbn [length seq zip zip_with get_state_loop].
  destruct (decide (q < k)) as [Hlt|Hge].
  - split; [lia|]. split; [intros n t Hn; lia|].
    intros t. rewrite Nat.sub_diag. cbn. congruence.
  - destruct l as [|k' l].
    + cbn [length seq zip zip_with get_state_loop].
      split; [lia|]. split.
      * intros [|n] t Hn E; cbn in E; [injection E as <-; lra | discriminate].
      * intros t. replace (a + 1 - a)%nat with 1%nat by lia. discriminate.
    + specialize (IH (S a) a). cbv zeta in IH.
      destruct IH as (Hb & Hlow & Hup); [discriminate|].
      set (r := get_state_loop a q _) in *.
      split; [cbn [length] in *; lia|]. split.
      * intros [|n] t Hn E; cbn in E; [injection E as <-; lra|].
        apply (Hlow n t); [lia | exact E].
      * intros t E. replace (r - a)%nat with (S (r - S a)) in E by lia.
        apply Hup. exact E.
Qed.

(** X1: for a joint with at least one threshold, [get_state q states] is the
    position of the first threshold strictly above [q]: every threshold
    before it is at most [q], the threshold at it (if there is one) is
    above [q], and it is [length states] when no threshold is above [q]. *)
Theorem get_state_finds_the_first_threshold_above (q : R) (states : list R) :
  states <> [] ->
  let k := get_state q states in
  (k <= length states)%nat /\
  (forall i t, (i < k)%nat -> states !! i = Some t -> t <= q) /\
  (forall t, states !! k = Some t -> q < t).
Proof.
  intros Hne. cbv zeta. unfold get_state, enumerate.
  destruct (get_state_loop_first q states 0 0 Hne) as (Hb & Hlow & Hup).
  split; [lia|]. split; [exact Hlow|].
  intros t. rewrite <- (Nat.sub_0_r (get_state_loop _ _ _)) at 1. apply Hup.
Qed.

Lemma get_state_finds_the_first_threshold_above_witness :
  let k := get_state 90 [80; 100] in
  (k <= 2)%nat /\
  (forall i t, (i < k)%nat -> [80; 100] !! i = Some t -> t <= 90) /\
  (forall t, [80; 100] !! k = Some t -> 90 < t).
Proof. apply (get_state_finds_the_first_threshold_above 90 [80; 100]). discriminate. Defined.

Lemma filter_le_nil q (l : list R) :
  Forall (fun t => q < t) l -> filter (fun t => t <= q) l = [].
Proof.
  induction 1 as [|t l Ht _ IH]; [reflexivity|].
  rewrite filter_cons_False by lra. exact IH.
Qed.

Lemma get_state_loop_count q : forall (l : list R) a i,
  l <> [] -> StronglySorted Rlt l ->
  get_state_loop i q (zip (seq a (length l)) l)
  = (a + length (filter (fun t => (t <= q)%R) l))%nat.
Proof.
  induction l as [|k l IH]; intros a i Hne Hs; [congruence|].
  cbn [length seq zip zip_with get_state_loop].
  apply StronglySorted_inv in Hs as [Hs Hk].
  destruct (decide (q < k)) as [Hlt|Hge].
  - rewrite filter_cons_False by lra.
    rewrite filter_le_nil; [cbn; lia|].
    eapply Forall_impl; [exact Hk|]. intros t Ht. cbv beta in Ht. lra.
  - rewrite filter_cons_True by lra. cbn [length].
    destruct l as [|k' l]; [cbn; lia|].
    rewrite (IH (S a) a) by (try discriminate; exact Hs). lia.
Qed.

(** X2: when the thresholds are strictly increasing (and there is at least
    one), [get_state q states] is the number of thresholds that [q] has
    reached, that is, of thresholds [t <= q]. *)
Theorem get_state_counts_the_thresholds_reached (q : R) (states : list R) :
  states <> [] -> StronglySorted Rlt states ->
  get_state q states = length (filter (fun t => t <= q) states).
Proof.
  intros Hne Hs. unfold get_state, enumerate.
  rewrite (get_state_loop_count q states 0 0 Hne Hs). reflexivity.
Qed.

Lemma get_state_counts_the_thresholds_reached_witness :
  get_state 80 [80; 100] = length (filter (fun t => t <= 80) [80; 100]).
Proof.
  apply get_state_counts_the_thresholds_reached; [discriminate|].
  repeat constructor. lra.
Defined.

(** ** Joint.add_force *)

(** X3: on an unlocked joint [add_force f] changes the velocity and
    nothing else: the joint is the one it was with velocity
    [min(vel + f, max_vel)], which is never more than [vel + f], never
    more than a finite [max_vel], and [vel + f] itself with the default
    infinite [max_vel]; a further [add_force 0] then changes nothing. *)
Theorem add_force_adds_up_to_the_bound (j : Joint.t) (f : R) :
  Joint.locked j = false ->
  let j' := Joint.add_force f j in
  j' = Joint.set_vel (min_bound (Joint.vel j + f) (Joint.max_vel j)) j /\
  Joint.vel j' <= Joint.vel j + f /\
  (forall m, Joint.max_vel j = Finite m -> Joint.vel j' <= m) /\
  (Joint.max_vel j = Infinity -> Joint.vel j' = Joint.vel j + f) /\
  Joint.add_force 0 j' = j'.
Proof.
  intros Hl. cbv zeta.
  assert (E : Joint.add_force f j
              = Joint.set_vel (min_bound (Joint.vel j + f) (Joint.max_vel j)) j).
  { unfold Joint.add_force. rewrite Hl. cbn [negb]. destruct j; reflexivity. }
  rewrite E. cbn [Joint.vel Joint.set_vel].
  split; [reflexivity|].
  split; [destruct (Joint.max_vel j); cbn [min_bound]; [apply Rmin_l | lra]|].
  split; [intros m ->; cbn [min_bound]; apply Rmin_r|].
  split; [intros ->; reflexivity|].
  unfold Joint.add_force.
  cbn [Joint.locked Joint.vel Joint.max_vel Joint.set_vel Joint.q Joint.states].
  rewrite Hl. cbn [negb]. unfold Joint.set_vel.
  cbn [Joint.index Joint.max_vel Joint.vel Joint.q Joint.states Joint.dampings
       Joint.min_limit Joint.max_limit Joint.direction Joint.locked Joint.noise].
  f_equal. rewrite Rplus_0_r.
  destruct (Joint.max_vel j) as [m|]; cbn [min_bound]; [|reflexivity].
  apply Rmin_left. apply Rmin_r.
Qed.

Lemma add_force_adds_up_to_the_bound_witness :
  Joint.add_force 3 moving_handle = Joint.set_vel (min_bound (5 + 3) Infinity) moving_handle /\
  Joint.add_force 0 (Joint.add_force 3 moving_handle) = Joint.add_force 3 moving_handle.
Proof.
  destruct (add_force_adds_up_to_the_bound moving_handle 3 eq_refl)
    as (He & _ & _ & _ & Hz).
  split; [exact He | exact Hz].
Defined.

(** ** Joint.step *)

Lemma step_position dt j :
  Joint.locked j = false ->
  let q1 := Joint.q j + Joint.vel j * dt in
  let over := match Joint.max_limit j with
              | Some m => bool_decide (q1 > m) | None => false end in
  let q2 := if over then default q1 (Joint.max_limit j) else q1 in
  let under := match Joint.min_limit j with
               | Some m => bool_decide (q2 < m) | None => false end in
  let q3 := if under then default q2 (Joint.min_limit j) else q2 in
  Joint.q (state_of (Joint.step dt j)) = q3.
Proof.
  intros Hl. cbv zeta. rewrite (Joint_step_when_unlocked j dt Hl).
  destruct (Joint.dampings j !! _); reflexivity.
Qed.

(** X4: for a joint with both limits set and [min_limit <= max_limit], the
    position after [step] lies within the limits, whatever the velocity
    and the time step, provided the joint is unlocked (or was within its
    limits already); this also holds when [step] ends in an IndexError. *)
Theorem step_keeps_the_position_within_the_limits (j : Joint.t) (dt lo hi : R) :
  Joint.min_limit j = Some lo -> Joint.max_limit j = Some hi -> lo <= hi ->
  Joint.locked j = false \/ lo <= Joint.q j <= hi ->
  lo <= Joint.q (state_of (Joint.step dt j)) <= hi.
Proof.
  intros Hlo Hhi Hle Hcases.
  destruct (Joint.locked j) eqn:Hl.
  - rewrite (Joint_step_when_locked j dt Hl). cbn [state_of fst snd].
    destruct Hcases as [?|?]; [discriminate | assumption].
  - rewrite (step_position dt j Hl), Hlo, Hhi. cbn [default]. unfold Datatypes.id.
    destruct (bool_decide (Joint.q j + Joint.vel j * dt > hi)) eqn:Eo.
    + rewrite bool_decide_eq_false_2 by lra. lra.
    + apply bool_decide_eq_false in Eo.
      destruct (bool_decide (Joint.q j + Joint.vel j * dt < lo)) eqn:Eu.
      * lra.
      * apply bool_decide_eq_false in Eu. lra.
Qed.

Lemma step_keeps_the_position_within_the_limits_witness :
  0 <= Joint.q (state_of (Joint.step 100 moving_handle)) <= 180.
Proof.
  apply (step_keeps_the_position_within_the_limits moving_handle 100 0 180);
    try reflexivity; [lra | left; reflexivity].
Defined.

Lemma step_velocity dt j :
  Joint.locked j = false ->
  Joint.vel (state_of (Joint.step dt j)) = Joint.vel j \/
  exists direction damping,
    (direction = 1 \/ direction = -1) /\
    Joint.vel (state_of (Joint.step dt j))
    = direction * sqrt (Rmax (Joint.vel j ^ 2 - Rabs (damping * Joint.vel j * dt)) 0).
Proof.
  intros Hl. rewrite (Joint_step_when_unlocked j dt Hl).
  match goal with |- context [Joint.dampings j !! ?n] =>
    destruct (Joint.dampings j !! n) as [d|] end; [right|left; reflexivity].
  cbn [state_of fst snd Joint.vel Joint.set_vel].
  eexists _, d. split; [|reflexivity].
  unfold sgn. destruct (decide (Joint.vel j < 0));
    repeat match goal with |- context [if ?b then _ else _] => destruct b end; lra.
Qed.

(** X5: whatever the joint, the time step and the outcome, the speed
    [|vel|] after [step] is at most the speed before. *)
Theorem step_never_increases_the_speed (j : Joint.t) (dt : R) :
  Rabs (Joint.vel (state_of (Joint.step dt j))) <= Rabs (Joint.vel j).
Proof.
  destruct (Joint.locked j) eqn:Hl.
  - rewrite (Joint_step_when_locked j dt Hl). cbn [state_of fst snd]. lra.
  - destruct (step_velocity dt j Hl) as [->|(dir & d & Hdir & ->)]; [lra|].
    rewrite Rabs_mult.
    replace (Rabs dir) with 1
      by (destruct Hdir as [->| ->]; [rewrite Rabs_R1 | rewrite Rabs_left by lra]; lra).
    rewrite Rmult_1_l. apply friction_shrinks.
Qed.

Lemma no_bounce_flags dt j :
  ~ Joint_hits_limit dt j ->
  match Joint.max_limit j with
  | Some m => bool_decide (Joint.q j + Joint.vel j * dt > m)
  | None => false end = false /\
  match Joint.min_limit j with
  | Some m => bool_decide (Joint.q j + Joint.vel j * dt < m)
  | None => false end = false.
Proof.
  intros Hb. split.
  - destruct (Joint.max_limit j) as [m|] eqn:E; [|reflexivity].
    apply bool_decide_eq_false. intros Hgt. apply Hb. left. exists m. auto.
  - destruct (Joint.min_limit j) as [m|] eqn:E; [|reflexivity].
    apply bool_decide_eq_false. intros Hgt. apply Hb. right. exists m. auto.
Qed.

Lemma bounce_flags dt j :
  Joint_hits_limit dt j ->
  let q1 := Joint.q j + Joint.vel j * dt in
  let over := match Joint.max_limit j with
              | Some m => bool_decide (q1 > m) | None => false end in
  let q2 := if over then default q1 (Joint.max_limit j) else q1 in
  let under := match Joint.min_limit j with
               | Some m => bool_decide (q2 < m) | None => false end in
  (if under then 1 else if over then 1 else -1) = 1.
Proof.
  intros [(m & E & H)|(m & E & H)]; cbv zeta; rewrite E.
  - rewrite (bool_decide_eq_true_2 _ H).
    destruct (match Joint.min_limit j with Some _ => _ | None => _ end); reflexivity.
  - destruct (match Joint.max_limit j with Some _ => _ | None => _ end) eqn:Eo.
    + destruct (bool_decide _); reflexivity.
    + rewrite (bool_decide_eq_true_2 _ H). reflexivity.
Qed.

(** X6: when [step] returns on an unlocked joint and the move does not end
    beyond a limit, the reported direction is the sign of the old
    velocity and the new velocity does not point the other way; when the
    move ends beyond a limit, the reported direction is the opposite sign
    and the new velocity does not point the old way. *)
Theorem only_a_bounce_reverses_the_direction (j : Joint.t) (dt : R) (s : Joint.sample) :
  Joint.locked j = false ->
  result_of (Joint.step dt j) = Ret s ->
  let v' := Joint.vel (state_of (Joint.step dt j)) in
  (~ Joint_hits_limit dt j ->
   s.2 = sgn (Joint.vel j) /\
   (0 <= Joint.vel j -> 0 <= v') /\ (Joint.vel j < 0 -> v' <= 0)) /\
  (Joint_hits_limit dt j ->
   s.2 = - sgn (Joint.vel j) /\
   (0 <= Joint.vel j -> v' <= 0) /\ (Joint.vel j < 0 -> 0 <= v')).
Proof.
  intros Hl. cbv zeta.
  pose proof (bounce_flags dt j) as Hb. pose proof (no_bounce_flags dt j) as Hn.
  cbv zeta in Hb. rewrite (Joint_step_when_unlocked j dt Hl).
  match goal with |- context [Joint.dampings j !! ?n] =>
    destruct (Joint.dampings j !! n) as [d|] end; [|discriminate].
  cbn [result_of state_of fst snd Joint.vel Joint.set_vel].
  intros [= <-]. cbn [snd].
  match goal with |- context [sqrt ?x] => pose proof (sqrt_pos x) as Hs;
    set (root := sqrt x) in * end.
  split.
  - intros Hno. destruct (Hn Hno) as [-> Hu]. rewrite Hu.
    unfold sgn. destruct (decide (Joint.vel j < 0)); repeat split; intros; nra.
  - intros Hyes. rewrite (Hb Hyes).
    unfold sgn. destruct (decide (Joint.vel j < 0)); repeat split; intros; nra.
Qed.

Lemma only_a_bounce_reverses_the_direction_witness :
  exists s, result_of (Joint.step 0.1 moving_handle) = Ret s /\
            s.2 = sgn 5 /\ 0 <= Joint.vel (state_of (Joint.step 0.1 moving_handle)).
Proof.
  destruct (Joint_step_facts 0.1 moving_handle) as (_ & _ & _ & Hr & _).
  destruct (Hr eq_refl) as [s Hs]. exists s. split; [exact Hs|].
  destruct (only_a_bounce_reverses_the_direction moving_handle 0.1 s eq_refl Hs)
    as [Hno _].
  destruct Hno as (Hd & Hpos & _).
  - intros [[m [E H]]|[m [E H]]]; cbn in E; injection E as <-; cbn in H; lra.
  - split; [exact Hd|]. apply Hpos. cbn. lra.
Defined.

Lemma Joint_step_at_rest j dt :
  Joint.locked j = false ->
  Joint.vel j = 0 ->
  joint_ok j = true ->
  ~ Joint_hits_limit dt j ->
  Joint.step dt j = (Ret (Joint.q j, 0, false, 1), j, []).
Proof.
  intros Hl Hv Hok Hno.
  destruct (Joint_step_facts dt j) as (_ & _ & _ & Hr & _).
  destruct (Hr Hok) as [s Hs]. revert Hs.
  destruct (no_bounce_flags dt j Hno) as [Ho Hu].
  rewrite (Joint_step_when_unlocked j dt Hl), Ho, Hu.
  match goal with |- context [Joint.dampings j !! ?n] =>
    destruct (Joint.dampings j !! n) as [d|] end; [intros _|discriminate].
  rewrite Hv.
  assert (Hroot : - -1 * sgn 0 * sqrt (Rmax (0 ^ 2 - Rabs (d * 0 * dt)) 0) = 0).
  { replace (d * 0 * dt) with 0 by lra. rewrite Rabs_R0.
    replace (0 ^ 2 - 0) with 0 by lra.
    unfold Rmax. destruct (Rle_dec 0 0); rewrite sqrt_0; lra. }
  rewrite Hroot.
  replace (- -1 * sgn 0) with 1 by (unfold sgn; rewrite decide_False by lra; lra).
  replace (Joint.q j + 0 * dt) with (Joint.q j) by lra.
  destruct j; cbn in *; subst. reflexivity.
Qed.

(** X7: an unlocked joint with velocity 0, a damping for each of its zones
    and a position within its limits is a fixed point of [step]: after
    any number of steps the joint is what it was, and each step returns
    the sample [[q, 0, False, 1]]. *)
Theorem a_joint_at_rest_stays_at_rest (j : Joint.t) (dt : R) (n : nat) :
  Joint.locked j = false ->
  Joint.vel j = 0 ->
  joint_ok j = true ->
  ~ Joint_hits_limit dt j ->
  after n (Joint.step dt) j = j /\
  Joint.step dt (after n (Joint.step dt) j) = (Ret (Joint.q j, 0, false, 1), j, []).
Proof.
  intros Hl Hv Hok Hno.
  pose proof (Joint_step_at_rest j dt Hl Hv Hok Hno) as Hstep.
  assert (Hafter : after n (Joint.step dt) j = j).
  { induction n as [|n IH]; [reflexivity|].
    cbn [after]. rewrite IH, Hstep. reflexivity. }
  rewrite Hafter. split; [reflexivity | exact Hstep].
Qed.

Lemma a_joint_at_rest_stays_at_rest_witness :
  after 3 (Joint.step 0.1) handle = handle /\
  Joint.step 0.1 (after 3 (Joint.step 0.1) handle) = (Ret (0, 0, false, 1), handle, []).
Proof.
  apply (a_joint_at_rest_stays_at_rest handle 0.1 3); try reflexivity.
  intros [[m [E H]]|[m [E H]]]; cbn in E; injection E as <-; cbn in H; lra.
Defined.

(** ** ForceController over several steps *)

Lemma after_add {St A} (m : M St A) n k (s : St) :
  after (n + k) m s = after k m (after n m s).
Proof.
  induction k as [|k IH]; [rewrite Nat.add_0_r; reflexivity|].
  rewrite Nat.add_succ_r. cbn [after]. rewrite IH. reflexivity.
Qed.

Lemma ForceController_runs_down dt fc :
  0 <= dt -> 0 <= ForceController.time fc ->
  let fc' := state_of (ForceController.step dt fc) in
  ForceController.force fc' = ForceController.force fc /\
  0 <= ForceController.time fc' <= ForceController.time fc /\
  result_of (ForceController.step dt fc)
    = Ret (if ForceController.is_done fc' then 0 else ForceController.force fc) /\
  (ForceController.is_done fc = true ->
   ForceController.is_done fc' = true /\ result_of (ForceController.step dt fc) = Ret 0).
Proof.
  intros Hdt Ht. cbv zeta. rewrite ForceController_step_eq.
  cbn [state_of result_of fst snd ForceController.time ForceController.force].
  unfold ForceController.is_done. cbn [ForceController.time].
  split; [reflexivity|].
  split; [unfold Rmax; destruct (Rle_dec _ _); lra|].
  split.
  - f_equal. destruct (decide (ForceController.time fc - dt > 0)) as [Hp|Hn].
    + rewrite bool_decide_eq_false_2; [reflexivity|].
      unfold Rmax. destruct (Rle_dec _ _); lra.
    + rewrite bool_decide_eq_true_2; [reflexivity|].
      unfold Rmax. destruct (Rle_dec _ _); lra.
  - rewrite bool_decide_eq_true. intros Hdone.
    split.
    + rewrite bool_decide_eq_true. unfold Rmax. destruct (Rle_dec _ _); lra.
    + f_equal. apply decide_False. lra.
Qed.

Lemma ForceController_after_facts dt fc n :
  0 <= dt -> 0 <= ForceController.time fc ->
  let fc_n := after n (ForceController.step dt) fc in
  ForceController.force fc_n = ForceController.force fc /\
  0 <= ForceController.time fc_n <= ForceController.time fc.
Proof.
  intros Hdt Ht. cbv zeta. induction n as [|n [IHf IHt]].
  - cbn [after]. split; [reflexivity | lra].
  - cbn [after].
    destruct (ForceController_runs_down dt (after n (ForceController.step dt) fc) Hdt)
      as (Hf & Htime & _); [lra|].
    split; [rewrite Hf; exact IHf | lra].
Qed.

(** X8: for steps of size [dt >= 0] of a ForceController that started with
    [time >= 0]: after any number of steps the force is the one
    commanded and the time left is neither negative nor more than it
    was one step earlier; a step returns the force exactly when time is
    left after it (the command is not done then), and 0 otherwise; and
    once the command is done it stays done, every later step
    returning 0. *)
Theorem a_force_command_lasts_while_time_remains
    (fc : ForceController.t) (dt : R) (n : nat) :
  0 <= dt -> 0 <= ForceController.time fc ->
  let fc_n := after n (ForceController.step dt) fc in
  let fc_next := after (S n) (ForceController.step dt) fc in
  ForceController.force fc_n = ForceController.force fc /\
  0 <= ForceController.time fc_next <= ForceController.time fc_n /\
  ForceController.time fc_n <= ForceController.time fc /\
  result_of (ForceController.step dt fc_n)
    = Ret (if ForceController.is_done fc_next then 0 else ForceController.force fc) /\
  (ForceController.is_done fc_n = true ->
   forall k,
     ForceController.is_done (after (n + k) (ForceController.step dt) fc) = true /\
     result_of (ForceController.step dt (after (n + k) (ForceController.step dt) fc))
       = Ret 0).
Proof.
  intros Hdt Ht. cbv zeta.
  destruct (ForceController_after_facts dt fc n Hdt Ht) as (Hf & Hn0 & Hn1).
  destruct (ForceController_runs_down dt (after n (ForceController.step dt) fc) Hdt Hn0)
    as (_ & Hnext & Hres & _).
  cbn [after].
  split; [exact Hf|]. split; [exact Hnext|]. split; [exact Hn1|].
  split; [rewrite Hres, Hf; reflexivity|].
  intros Hdone k. rewrite after_add.
  set (fc_n := after n (ForceController.step dt) fc) in *.
  assert (Hk : ForceController.is_done (after k (ForceController.step dt) fc_n) = true
               /\ 0 <= ForceController.time (after k (ForceController.step dt) fc_n)).
  { induction k as [|k [IHd IHt]]; [split; [exact Hdone | exact Hn0]|].
    cbn [after].
    destruct (ForceController_runs_down dt (after k (ForceController.step dt) fc_n) Hdt IHt)
      as (_ & Htime & _ & Hstay).
    split; [apply Hstay, IHd | lra]. }
  destruct Hk as [Hd Htk].
  split; [exact Hd|].
  apply (ForceController_runs_down dt _ Hdt Htk), Hd.
Qed.

Lemma a_force_command_lasts_while_time_remains_witness :
  let fc := ForceController.mk 0 1 10 in
  result_of (ForceController.step 0.25 (after 2 (ForceController.step 0.25) fc)) = Ret 10 /\
  result_of (ForceController.step 0.25 (after 3 (ForceController.step 0.25) fc)) = Ret 0.
Proof.
  cbv zeta. split.
  - destruct (a_force_command_lasts_while_time_remains (ForceController.mk 0 1 10) 0.25 2)
      as (_ & _ & _ & H & _); [lra | cbn; lra |].
    rewrite H. f_equal. cbn [after]. rewrite !ForceController_step_eq.
    unfold ForceController.is_done.
    cbn [state_of fst snd ForceController.time ForceController.force].
    rewrite bool_decide_eq_false_2; [reflexivity|].
    unfold Rmax. repeat destruct (Rle_dec _ _); lra.
  - destruct (a_force_command_lasts_while_time_remains (ForceController.mk 0 1 10) 0.25 3)
      as (_ & _ & _ & H & _); [lra | cbn; lra |].
    rewrite H. f_equal. cbn [after]. rewrite !ForceController_step_eq.
    unfold ForceController.is_done.
    cbn [state_of fst snd ForceController.time ForceController.force].
    rewrite bool_decide_eq_true_2; [reflexivity|].
    unfold Rmax. repeat destruct (Rle_dec _ _); lra.
Defined.

(** ** Controller.step: saturation and modes *)

Lemma saturate_clamps limit d :
  0 <= limit ->
  Rabs (saturate limit d) <= limit /\
  (Rabs d <= limit -> saturate limit d = d) /\
  (limit < d -> saturate limit d = limit) /\
  (d < - limit -> saturate limit d = - limit).
Proof.
  intros Hl. unfold saturate, sgn, Rmin.
  destruct (decide (d < 0)); destruct (Rle_dec (Rabs d) limit) as [Ha|Ha];
    revert Ha; unfold Rabs; destruct (Rcase_abs d); intros Ha;
    repeat split; intros;
    try (unfold Rabs; destruct (Rcase_abs _)); try lra.
Qed.

(** X9: with the constructor's [max_force = 15], the force that
    [Controller.step] applies is the desired force clamped to
    [[-15, 15]]: equal to it inside the interval, 15 above, -15 below. *)
Theorem the_applied_force_is_the_desired_force_clamped
    (s : Controller.scene) (dt applied desired : R) :
  Controller.max_force (Controller.self s) = 15 ->
  result_of (Controller.step dt s) = Ret (applied, desired) ->
  -15 <= applied <= 15 /\
  (-15 <= desired <= 15 -> applied = desired) /\
  (15 < desired -> applied = 15) /\
  (desired < -15 -> applied = -15).
Proof.
  intros Hmax Hr.
  destruct (Controller_step_cases dt s) as (r & s' & h & E & _ & _ & _ & Hcases).
  rewrite E in Hr. cbn [result_of fst] in Hr.
  destruct Hcases as [(d & Hd & _)|(Hd & _)]; [|congruence].
  cbv zeta in Hd. rewrite Hd, Hmax in Hr. injection Hr as <- <-.
  destruct (saturate_clamps 15 d) as (H1 & H2 & H3 & H4); [lra|].
  split; [revert H1; unfold Rabs; destruct (Rcase_abs _); lra|].
  split; [intros Hb; apply H2; unfold Rabs; destruct (Rcase_abs _); lra|].
  split; [exact H3 | exact H4].
Qed.

Lemma the_applied_force_is_the_desired_force_clamped_witness :
  exists applied desired,
    result_of (Controller.step 0.1
                 (Controller.mk_scene (Controller.apply_force 1 40 (Controller.init 0))
                                      handle calm))
    = Ret (applied, desired) /\ desired = 40 /\ applied = 15.
Proof.
  pose proof (Controller_step_in_force_mode 0.1
                (Controller.mk_scene (Controller.apply_force 1 40 (Controller.init 0))
                                     handle calm) eq_refl) as E.
  cbv zeta in E. rewrite E.
  2:{ change (bool_decide (1 <= 0) = false). apply bool_decide_eq_false_2. lra. }
  eexists _, _. split; [reflexivity|].
  cbn [Controller.force_controller Controller.self Controller.apply_force
       Controller.set_force_control Controller.set_force_controller
       ForceController.apply_force ForceController.time ForceController.force].
  rewrite decide_True by lra. split; [reflexivity|].
  eapply (the_applied_force_is_the_desired_force_clamped
            (Controller.mk_scene (Controller.apply_force 1 40 (Controller.init 0))
                                 handle calm) 0.1 _ 40 eq_refl); [|lra].
  rewrite E.
  2:{ change (bool_decide (1 <= 0) = false). apply bool_decide_eq_false_2. lra. }
  cbn [result_of fst Controller.force_controller Controller.self Controller.apply_force
       Controller.set_force_control Controller.set_force_controller
       ForceController.apply_force ForceController.time ForceController.force].
  rewrite decide_True by lra. reflexivity.
Defined.

Lemma add_force_0 j :
  Joint.locked j = true \/ Joint.max_vel j = Infinity
  \/ (exists m, Joint.max_vel j = Finite m /\ Joint.vel j <= m) ->
  Joint.add_force 0 j = j.
Proof.
  unfold Joint.add_force. destruct (Joint.locked j) eqn:Hl; cbn [negb]; [reflexivity|].
  intros [H|[H|(m & H & Hv)]]; [discriminate| |];
    cbn [Joint.vel Joint.set_vel Joint.max_vel]; rewrite H; cbn [min_bound].
  - destruct j; cbn in *. unfold Joint.set_vel; cbn. f_equal. lra.
  - rewrite Rmin_left by lra.
    destruct j; cbn in *. unfold Joint.set_vel; cbn. f_equal. lra.
Qed.

Lemma saturate_0' limit : 0 <= limit -> saturate limit 0 = 0.
Proof. intros H. apply saturate_clamps; [exact H|]. rewrite Rabs_R0. exact H. Qed.

Lemma Controller_step_idle dt s :
  Controller.is_done (Controller.self s) = true ->
  0 <= Controller.max_force (Controller.self s) ->
  Controller.step dt s
  = (Ret (0, 0), Controller.on_joint_obj (Joint.add_force 0) s,
     [CAddForce (Controller.joint (Controller.self s)) 0]).
Proof.
  unfold Controller.is_done. intros Hd Hmax.
  apply andb_true_iff in Hd as [Hp Hf]. apply negb_true_iff in Hp, Hf.
  unfold Controller.step. mrun. rewrite Hf. mrun. rewrite Hp. mrun.
  fold (saturate (Controller.max_force (Controller.self s)) 0).
  rewrite (saturate_0' _ Hmax). reflexivity.
Qed.

Lemma Controller_step_force_over dt s :
  Controller.force_control (Controller.self s) = true ->
  ForceController.is_done (Controller.force_controller (Controller.self s)) = true ->
  0 <= Controller.max_force (Controller.self s) ->
  Controller.step dt s
  = (Ret (0, 0),
     Controller.on_joint_obj (Joint.add_force 0)
       (Controller.on_self (Controller.set_force_control false) s),
     [CAddForce (Controller.joint (Controller.self s)) 0]).
Proof.
  intros Hf Hd Hmax.
  unfold Controller.step. mrun. rewrite Hf. mrun. rewrite Hd. mrun.
  cbn [Controller.self Controller.on_self Controller.max_force Controller.joint
       Controller.set_force_control].
  fold (saturate (Controller.max_force (Controller.self s)) 0).
  rewrite (saturate_0' _ Hmax). reflexivity.
Qed.

(** X10: a controller that is done (neither mode on) makes one call,
    [add_force(0)], returns [(0, 0)], and leaves itself, the generator
    and the joint as they were, if the joint is locked or its velocity
    is within [max_vel]. *)
Theorem an_idle_controller_leaves_the_joint_alone (s : Controller.scene) (dt : R) :
  Controller.is_done (Controller.self s) = true ->
  Controller.max_force (Controller.self s) = 15 ->
  let j := Controller.joint_obj s in
  (Joint.locked j = true \/ Joint.max_vel j = Infinity
   \/ (exists m, Joint.max_vel j = Finite m /\ Joint.vel j <= m)) ->
  Controller.step dt s
  = (Ret (0, 0), s, [CAddForce (Controller.joint (Controller.self s)) 0]).
Proof.
  intros Hd Hmax j Hj.
  rewrite (Controller_step_idle dt s Hd) by (rewrite Hmax; lra).
  unfold Controller.on_joint_obj. fold j. rewrite (add_force_0 j Hj).
  destruct s; reflexivity.
Qed.

Lemma an_idle_controller_leaves_the_joint_alone_witness :
  Controller.step 0.1 (Controller.mk_scene (Controller.init 0) moving_handle calm)
  = (Ret (0, 0), Controller.mk_scene (Controller.init 0) moving_handle calm,
     [CAddForce 0 0]).
Proof.
  apply (an_idle_controller_leaves_the_joint_alone
           (Controller.mk_scene (Controller.init 0) moving_handle calm) 0.1);
    [reflexivity | reflexivity | right; left; reflexivity].
Defined.

(** X11: after [apply_force(duration, force)] with [duration <= 0] the
    controller is not done, yet its next step applies no force: it finds
    the force controller done, switches force mode off, calls
    [add_force(0)] and returns [(0, 0)], without touching position mode,
    the position controller or the generator. *)
Theorem a_command_without_duration_gives_no_force
    (c : Controller.t) (j : Joint.t) (rnd : Random.t) (duration force dt : R) :
  duration <= 0 ->
  Controller.max_force c = 15 ->
  let armed := Controller.apply_force duration force c in
  let x := Controller.step dt (Controller.mk_scene armed j rnd) in
  Controller.is_done armed = false /\
  result_of x = Ret (0, 0) /\
  calls_of x = [CAddForce (Controller.joint c) 0] /\
  Controller.force_control (Controller.self (state_of x)) = false /\
  Controller.position_control (Controller.self (state_of x)) = Controller.position_control c /\
  Controller.position_controller (Controller.self (state_of x))
    = Controller.position_controller c /\
  Controller.rand (state_of x) = rnd.
Proof.
  intros Hd Hmax. cbv zeta.
  rewrite Controller_step_force_over.
  - split; [unfold Controller.is_done; cbn; apply andb_false_r|].
    repeat split.
  - reflexivity.
  - unfold ForceController.is_done. cbn. apply bool_decide_eq_true_2. exact Hd.
  - cbn. rewrite Hmax. lra.
Qed.

Lemma a_command_without_duration_gives_no_force_witness :
  result_of (Controller.step 0.1
               (Controller.mk_scene (Controller.apply_force 0 10 (Controller.init 0))
                                    handle calm)) = Ret (0, 0).
Proof.
  destruct (a_command_without_duration_gives_no_force
              (Controller.init 0) handle calm 0 10 0.1) as (_ & H & _);
    [lra | reflexivity | exact H].
Defined.

(** X12: in position mode (force mode off, a number as goal) on a locked
    joint, the step of the controller ends the motion: it returns
    [(0, 0)], the controller is done afterwards, and neither the
    position controller, the joint nor the generator has changed, however
    far the goal is. *)
Theorem a_locked_joint_counts_as_arrived
    (c : Controller.t) (j : Joint.t) (rnd : Random.t) (dt g : R) :
  Joint.locked j = true ->
  Controller.force_control c = false ->
  Controller.position_control c = true ->
  PositionController.goal_pos (Controller.position_controller c) = Some (VNum g) ->
  Controller.max_force c = 15 ->
  let x := Controller.step dt (Controller.mk_scene c j rnd) in
  result_of x = Ret (0, 0) /\
  Controller.is_done (Controller.self (state_of x)) = true /\
  Controller.position_controller (Controller.self (state_of x))
    = Controller.position_controller c /\
  Controller.joint_obj (state_of x) = j /\
  Controller.rand (state_of x) = rnd.
Proof.
  intros Hl Hf Hp Hg Hmax. cbv zeta.
  rewrite (Controller_step_on_a_locked_joint dt c j rnd g Hl Hf Hp Hg)
    by (rewrite Hmax; lra).
  cbn [result_of state_of fst snd Controller.self Controller.joint_obj Controller.rand].
  repeat split. unfold Controller.is_done. cbn. rewrite Hf. reflexivity.
Qed.

Lemma a_locked_joint_counts_as_arrived_witness :
  Controller.is_done
    (Controller.self
       (state_of (Controller.step 0.1
                    (Controller.mk_scene (Controller.move_to (VNum 50) (Controller.init 0))
                                         (Joint.lock handle) calm)))) = true.
Proof.
  apply (a_locked_joint_counts_as_arrived
           (Controller.move_to (VNum 50) (Controller.init 0)) (Joint.lock handle) calm
           0.1 50); reflexivity.
Defined.

(** ** Controller.step in position mode *)

Lemma pid_control_eq j pc g :
  PositionController.goal_pos pc = Some (VNum g) ->
  Joint.locked j = false ->
  let arrived :=
    bool_decide (Rabs (PositionController.q pc - g) < PositionController.q_eps pc)
    && bool_decide (Rabs (PositionController.v pc) < PositionController.v_eps pc) in
  let i' := PositionController.i pc + (g - PositionController.q pc) in
  PositionController._pid_control j pc
  = (Ret (if arrived then 0
          else PositionController.kp pc * (g - PositionController.q pc)
               + PositionController.kd pc * (- PositionController.v pc)
               + PositionController.ki pc * i'),
     (if arrived then pc else PositionController.set_i i' pc),
     []).
Proof.
  intros Hg Hl. cbv zeta.
  unfold PositionController._pid_control. mrun. rewrite Hg.
  erewrite bind_quiet by (rewrite PositionController_is_done_eq, Hg; reflexivity).
  unfold Joint.is_locked. rewrite Hl, orb_false_r.
  destruct (_ && _); [reflexivity|].
  unfold as_number. mrun. reflexivity.
Qed.

Lemma PositionController_step_eq dt j pc rnd g :
  PositionController.goal_pos pc = Some (VNum g) ->
  Joint.locked j = false ->
  let q_read := Joint.q j + Random.normals rnd (Random.draws rnd) * noise_q (Joint.noise j) in
  let v_read := Joint.vel j
                + Random.normals rnd (S (Random.draws rnd)) * noise_vel (Joint.noise j) in
  let read := PositionController.set_v v_read (PositionController.set_q q_read pc) in
  let arrived :=
    bool_decide (Rabs (q_read - g) < PositionController.q_eps pc)
    && bool_decide (Rabs v_read < PositionController.v_eps pc) in
  let i' := PositionController.i pc + (g - q_read) in
  PositionController.step dt j (pc, rnd)
  = (Ret (if arrived then 0
          else PositionController.kp pc * (g - q_read)
               + PositionController.kd pc * (- v_read)
               + PositionController.ki pc * i'),
     (if arrived then read else PositionController.set_i i' read,
      Random.mk (Random.normals rnd) (S (S (Random.draws rnd)))),
     []).
Proof.
  intros Hg Hl. cbv zeta. unfold PositionController.step.
  erewrite bind_quiet by (apply zoom_eq; reflexivity). mrun.
  erewrite bind_quiet by (apply zoom_eq; reflexivity). mrun.
  cbn [fst snd Random.normals Random.draws].
  unfold zoom. cbn [fst snd].
  rewrite (pid_control_eq j _ g) by (try assumption; destruct pc; exact Hg).
  destruct pc; cbn [PositionController.q PositionController.v PositionController.q_eps
       PositionController.v_eps PositionController.set_v PositionController.set_q
       PositionController.i PositionController.kp PositionController.kd
       PositionController.ki].
  destruct (_ && _); reflexivity.
Qed.

(** X13: in position mode on an unlocked joint whose last readings are not
    within tolerance of the (numeric) goal [g], the step of the
    controller draws two numbers from the generator, stores the noisy
    position and velocity readings, and, unless these new readings are
    within tolerance, adds the error to the integral and desires
    [kp*(g - q) + kd*(-v) + ki*i]; within tolerance it desires 0 and
    leaves the integral.  The applied force is the desired one clamped by
    [max_force], it is added to the joint, and position mode stays on. *)
Theorem position_mode_reads_the_sensors_and_applies_the_pid_law
    (c : Controller.t) (j : Joint.t) (rnd : Random.t) (dt g : R) :
  Controller.force_control c = false ->
  Controller.position_control c = true ->
  PositionController.goal_pos (Controller.position_controller c) = Some (VNum g) ->
  Joint.locked j = false ->
  let pc := Controller.position_controller c in
  bool_decide (Rabs (PositionController.q pc - g) < PositionController.q_eps pc)
  && bool_decide (Rabs (PositionController.v pc) < PositionController.v_eps pc) = false ->
  let q_read := Joint.q j + Random.normals rnd (Random.draws rnd) * noise_q (Joint.noise j) in
  let v_read := Joint.vel j
                + Random.normals rnd (S (Random.draws rnd)) * noise_vel (Joint.noise j) in
  let arrived :=
    bool_decide (Rabs (q_read - g) < PositionController.q_eps pc)
    && bool_decide (Rabs v_read < PositionController.v_eps pc) in
  let i' := PositionController.i pc + (g - q_read) in
  let desired :=
    if arrived then 0
    else PositionController.kp pc * (g - q_read)
         + PositionController.kd pc * (- v_read)
         + PositionController.ki pc * i' in
  let x := Controller.step dt (Controller.mk_scene c j rnd) in
  let pc' := Controller.position_controller (Controller.self (state_of x)) in
  result_of x = Ret (saturate (Controller.max_force c) desired, desired) /\
  PositionController.q pc' = q_read /\
  PositionController.v pc' = v_read /\
  PositionController.i pc' = (if arrived then PositionController.i pc else i') /\
  Random.draws (Controller.rand (state_of x)) = S (S (Random.draws rnd)) /\
  Controller.position_control (Controller.self (state_of x)) = true /\
  Controller.joint_obj (state_of x)
    = Joint.add_force (saturate (Controller.max_force c) desired) j.
Proof.
  intros Hf Hp Hg Hl pc Hstale. cbv zeta.
  unfold Controller.step. mrun.
  cbn [Controller.self]. rewrite Hf. mrun. cbn [Controller.self]. rewrite Hp. mrun.
  erewrite bind_quiet by
    (apply zoom_eq; cbn [Controller.self Controller.joint_obj];
     rewrite PositionController_is_done_eq, Hg; reflexivity).
  fold pc. rewrite Hstale. unfold Joint.is_locked. rewrite Hl. cbn [orb].
  erewrite bind_quiet by
    (apply zoom_eq;
     cbn [Controller.self Controller.joint_obj Controller.rand Controller.on_self
          Controller.position_controller Controller.set_position_controller];
     apply (PositionController_step_eq dt j pc rnd g Hg Hl)).
  mrun.
  cbn [result_of state_of fst snd logged ret Controller.self Controller.joint_obj
       Controller.rand Controller.on_self Controller.on_joint_obj Controller.max_force
       Controller.position_controller Controller.set_position_controller
       Controller.position_control Random.draws].
  unfold ret, logged. cbn [fst snd].
  split; [reflexivity|]. clear Hstale.
  destruct (_ && _); destruct pc;
    cbn [PositionController.q PositionController.v PositionController.i
    PositionController.set_i PositionController.set_v PositionController.set_q];
    repeat split; assumption.
Qed.

Lemma position_mode_reads_the_sensors_and_applies_the_pid_law_witness :
  let c := Controller.move_to (VNum 50) (Controller.init 0) in
  let x := Controller.step 0.1 (Controller.mk_scene c handle calm) in
  PositionController.q (Controller.position_controller (Controller.self (state_of x)))
    = 0 + 0 * 0.00001 /\
  Random.draws (Controller.rand (state_of x)) = 2%nat.
Proof.
  cbv zeta.
  destruct (position_mode_reads_the_sensors_and_applies_the_pid_law
              (Controller.move_to (VNum 50) (Controller.init 0)) handle calm 0.1 50
              eq_refl eq_refl eq_refl eq_refl) as (_ & Hq & _ & _ & Hd & _).
  - apply andb_false_intro1. apply bool_decide_eq_false_2.
    change (~ Rabs (0 - 50) < 0.5). rewrite Rabs_left by lra. lra.
  - split; [exact Hq | exact Hd].
Defined.

(** X14: the arrival test of position mode reads the stored readings, not the
    joint: when the stored position and velocity are within tolerance of
    the goal, the step returns [(0, 0)] and the controller is done
    afterwards, without a sensor being read (the generator and the
    position controller are unchanged) and wherever the joint is. *)
Theorem arrival_is_judged_on_the_last_readings
    (c : Controller.t) (j : Joint.t) (rnd : Random.t) (dt g : R) :
  Controller.force_control c = false ->
  Controller.position_control c = true ->
  let pc := Controller.position_controller c in
  PositionController.goal_pos pc = Some (VNum g) ->
  Rabs (PositionController.q pc - g) < PositionController.q_eps pc ->
  Rabs (PositionController.v pc) < PositionController.v_eps pc ->
  Controller.max_force c = 15 ->
  let x := Controller.step dt (Controller.mk_scene c j rnd) in
  result_of x = Ret (0, 0) /\
  calls_of x = [CAddForce (Controller.joint c) 0] /\
  Controller.is_done (Controller.self (state_of x)) = true /\
  Controller.position_controller (Controller.self (state_of x)) = pc /\
  Controller.rand (state_of x) = rnd /\
  Joint.q (Controller.joint_obj (state_of x)) = Joint.q j.
Proof.
  intros Hf Hp pc Hg Hq Hv Hmax. cbv zeta.
  unfold Controller.step. mrun.
  cbn [Controller.self]. rewrite Hf. mrun. cbn [Controller.self]. rewrite Hp. mrun.
  erewrite bind_quiet by
    (apply zoom_eq; cbn [Controller.self Controller.joint_obj];
     rewrite PositionController_is_done_eq; fold pc; rewrite Hg; reflexivity).
  rewrite (bool_decide_eq_true_2 _ Hq), (bool_decide_eq_true_2 _ Hv).
  cbn [andb orb]. mrun.
  cbn [Controller.self Controller.on_self Controller.max_force
       Controller.set_position_control Controller.set_position_controller
       Controller.joint Controller.on_joint_obj Controller.joint_obj Controller.rand].
  rewrite saturate_0 by (rewrite Hmax; lra).
  unfold logged, ret, Controller.on_joint_obj, Controller.on_self.
  cbn [fst snd result_of state_of calls_of Controller.self Controller.joint_obj
       Controller.rand Controller.set_position_control Controller.position_controller
       Controller.set_position_controller].
  repeat split.
  - unfold Controller.is_done.
    cbn [Controller.position_control Controller.force_control
         Controller.set_position_control Controller.set_position_controller negb andb].
    rewrite Hf. reflexivity.
  - apply add_force_q.
Qed.

Lemma arrival_is_judged_on_the_last_readings_witness :
  let x := Controller.step 0.1
             (Controller.mk_scene (Controller.move_to (VNum 0.25) (Controller.init 0))
                                  moving_handle calm) in
  Joint.q (Controller.joint_obj (state_of x)) = 90 /\
  Controller.is_done (Controller.self (state_of x)) = true.
Proof.
  cbv zeta.
  destruct (arrival_is_judged_on_the_last_readings
              (Controller.move_to (VNum 0.25) (Controller.init 0)) moving_handle calm
              0.1 0.25 eq_refl eq_refl eq_refl) as (_ & _ & Hd & _ & _ & Hq).
  - change (Rabs (0 - 0.25) < 0.5). rewrite Rabs_left by lra. lra.
  - change (Rabs 0 < 0.01). rewrite Rabs_R0. lra.
  - reflexivity.
  - split; [exact Hq | exact Hd].
Defined.

(** ** Lockers *)

(** X15: once a Locker or a MultiLocker has stepped, another step of it at
    the same position of the locker joint makes no call and leaves the
    target joint as it is. *)
Theorem a_second_locker_step_changes_nothing (dt dt' q : R) (j : Joint.t) :
  (forall l : Locker.t,
     let j' := state_of (Locker.step l dt q j) in
     Locker.step l dt' q j' = (Ret tt, j', [])) /\
  (forall m : MultiLocker.t,
     let j' := state_of (MultiLocker.step m dt q j) in
     MultiLocker.step m dt' q j' = (Ret tt, j', [])).
Proof.
  split.
  - intros l. cbv zeta. rewrite !Locker_step_eq.
    destruct (bool_decide _ && bool_decide _) eqn:E, (Joint.locked j) eqn:Hl;
      cbn [state_of fst snd]; rewrite ?E, ?Hl; try reflexivity.
  - intros m. cbv zeta. rewrite !MultiLocker_step_eq. cbv zeta.
    destruct (MultiLocker.should_be_locked _ _) eqn:E, (Joint.locked j) eqn:Hl;
      cbn [negb andb state_of fst snd]; rewrite ?Hl; reflexivity.
Qed.

(** X16: a Locker with [upper <= lower], and a MultiLocker all of whose
    intervals are reversed (in particular one with no interval at all),
    leave their target unlocked after every step, wherever the locker
    joint is and whatever the target's lock was. *)
Theorem a_locker_without_a_region_never_locks (dt q : R) (j : Joint.t) :
  (forall l : Locker.t,
     Locker.upper l <= Locker.lower l ->
     Joint.locked (state_of (Locker.step l dt q j)) = false) /\
  (forall m : MultiLocker.t,
     Forall (fun lock => lock.2 < lock.1) (MultiLocker.locks m) ->
     Joint.locked (state_of (MultiLocker.step m dt q j)) = false).
Proof.
  split.
  - intros l Hdeg. rewrite Locker_step_eq.
    assert (bool_decide (Locker.lower l < q) && bool_decide (q < Locker.upper l) = false) as ->.
    { apply not_true_is_false. rewrite open_interval_decide.
      unfold in_open_interval. lra. }
    destruct (Joint.locked j) eqn:Hl; [reflexivity | exact Hl].
  - intros m Hdeg. rewrite MultiLocker_step_eq. cbv zeta.
    assert (MultiLocker.should_be_locked (MultiLocker.locks m) q = false) as ->.
    { apply not_true_is_false. rewrite should_be_locked_iff.
      unfold in_some_closed_interval. rewrite Exists_exists.
      intros (lock & Hin & H1 & H2).
      rewrite Forall_forall in Hdeg. specialize (Hdeg lock Hin). cbv beta in Hdeg. lra. }
    destruct (Joint.locked j) eqn:Hl; cbn [negb andb]; [reflexivity | exact Hl].
Qed.

Lemma a_locker_without_a_region_never_locks_witness :
  Joint.locked
    (state_of (MultiLocker.step (MultiLocker.mk 0 1 [(180, 100)]) 0.1 150
                 (Joint.lock window))) = false.
Proof.
  apply (proj2 (a_locker_without_a_region_never_locks 0.1 150 (Joint.lock window))
           (MultiLocker.mk 0 1 [(180, 100)])).
  constructor; [cbn; lra | constructor].
Defined.

(** X17: a Locker and a MultiLocker with the one interval [(lower, upper)] on
    the same target step alike when the locker joint is at neither end
    of the interval; at an end (with [lower <= upper]) the MultiLocker
    leaves the target locked and the Locker leaves it unlocked. *)
Theorem the_two_lockers_differ_at_the_ends_of_the_interval
    (l : Locker.t) (m : MultiLocker.t) (dt q : R) (j : Joint.t) :
  MultiLocker.locked m = Locker.locked l ->
  MultiLocker.locks m = [(Locker.lower l, Locker.upper l)] ->
  (q <> Locker.lower l -> q <> Locker.upper l ->
   MultiLocker.step m dt q j = Locker.step l dt q j) /\
  (Locker.lower l <= Locker.upper l ->
   q = Locker.lower l \/ q = Locker.upper l ->
   Joint.locked (state_of (MultiLocker.step m dt q j)) = true /\
   Joint.locked (state_of (Locker.step l dt q j)) = false).
Proof.
  intros Ht Hlocks.
  rewrite MultiLocker_step_eq, Locker_step_eq, Hlocks, Ht. cbv zeta.
  unfold MultiLocker.should_be_locked. cbn [fold_left fst snd].
  split.
  - intros H1 H2.
    destruct (decide (Locker.lower l < q)) as [Ha|Ha], (decide (q < Locker.upper l)) as [Hb|Hb].
    + rewrite !bool_decide_eq_true_2 by lra. cbn [andb].
      destruct (Joint.locked j); reflexivity.
    + rewrite (bool_decide_eq_false_2 (q <= Locker.upper l)) by lra.
      rewrite (bool_decide_eq_false_2 (q < Locker.upper l)) by lra.
      rewrite !andb_false_r. destruct (Joint.locked j); reflexivity.
    + rewrite (bool_decide_eq_false_2 (Locker.lower l <= q)) by lra.
      rewrite (bool_decide_eq_false_2 (Locker.lower l < q)) by lra.
      cbn [andb]. destruct (Joint.locked j); reflexivity.
    + rewrite (bool_decide_eq_false_2 (Locker.lower l <= q)) by lra.
      rewrite (bool_decide_eq_false_2 (Locker.lower l < q)) by lra.
      cbn [andb]. destruct (Joint.locked j); reflexivity.
  - intros Hle Hend.
    rewrite (bool_decide_eq_true_2 (Locker.lower l <= q)) by lra.
    rewrite (bool_decide_eq_true_2 (q <= Locker.upper l)) by lra.
    cbn [andb negb].
    assert (bool_decide (Locker.lower l < q) && bool_decide (q < Locker.upper l) = false) as ->.
    { apply not_true_is_false. rewrite open_interval_decide.
      unfold in_open_interval. lra. }
    destruct (Joint.locked j) eqn:Hl; cbn [andb negb state_of fst snd]; split;
      try reflexivity; exact Hl.
Qed.

Lemma the_two_lockers_differ_at_the_ends_of_the_interval_witness :
  Joint.locked (state_of (MultiLocker.step (MultiLocker.mk 0 1 [(0, 80)]) 0.1 80 window)) = true /\
  Joint.locked (state_of (Locker.step (Locker.mk 0 1 0 80) 0.1 80 window)) = false.
Proof.
  apply (the_two_lockers_differ_at_the_ends_of_the_interval
           (Locker.mk 0 1 0 80) (MultiLocker.mk 0 1 [(0, 80)]) 0.1 80 window
           eq_refl eq_refl).
  - cbn; lra.
  - right; reflexivity.
Defined.

(** ** Building a world *)

Lemma add_joint_joints j w :
  World.joints (World.add_joint j w)
  = World.joints w ++ [Joint.set_index (length (World.joints w)) j].
Proof.
  unfold World.add_joint. cbv zeta.
  cbn [World.joints World.set_joints].
  rewrite length_app. cbn [length].
  replace (length (World.joints w) + 1 - 1)%nat with (length (World.joints w) + 0)%nat by lia.
  rewrite alter_app_r, Nat.add_0_r. reflexivity.
Qed.

(** X18: [add_joint] appends the joint with its [index] set to its position,
    the old number of joints: [get_joint] at that position returns it,
    at a smaller position what it returned before, beyond it an
    IndexError (as at that position before the call); listeners and
    clock are untouched, and a well-formed world stays well-formed when
    the joint has a damping for each zone. *)
Theorem get_joint_finds_the_joint_that_add_joint_appended (j : Joint.t) (w : World.t) :
  let n := length (World.joints w) in
  let w' := World.add_joint j w in
  World.joints w' = World.joints w ++ [Joint.set_index n j] /\
  World.get_joint n w' = (Ret (Joint.set_index n j), w', []) /\
  (forall i, (i < n)%nat ->
     World.get_joint i w' = (result_of (World.get_joint i w), w', [])) /\
  (forall i, (n < i)%nat -> World.get_joint i w' = (Raise IndexError, w', [])) /\
  World.get_joint n w = (Raise IndexError, w, []) /\
  World.listeners w' = World.listeners w /\
  World.time w' = World.time w /\
  (joint_ok j = true -> wf w = true -> wf w' = true).
Proof.
  cbv zeta. pose proof (add_joint_joints j w) as E.
  split; [exact E|].
  split.
  { apply get_joint_eq. rewrite E. apply list_lookup_middle. reflexivity. }
  split.
  { intros i Hi. unfold World.get_joint. rewrite E, lookup_app_l by exact Hi.
    destruct (World.joints w !! i); reflexivity. }
  split.
  { intros i Hi. unfold World.get_joint. rewrite E.
    rewrite lookup_ge_None_2; [reflexivity|].
    rewrite length_app. cbn [length]. lia. }
  split.
  { unfold World.get_joint. rewrite lookup_ge_None_2 by lia. reflexivity. }
  split; [reflexivity|]. split; [reflexivity|].
  intros Hj Hw. unfold wf in *. apply andb_true_iff in Hw as [Hjs Hls].
  change (World.listeners (World.add_joint j w)) with (World.listeners w).
  rewrite E. apply andb_true_iff. split.
  - rewrite forallb_app, Hjs. cbn [forallb]. rewrite andb_true_r. exact Hj.
  - rewrite forallb_forall in Hls |- *. intros l Hl. specialize (Hls l Hl).
    unfold listener_ok, view_ok in *.
    apply andb_true_iff in Hls as [Hrefs Hgoal]. rewrite Hgoal, andb_true_r.
    rewrite forallb_forall in Hrefs |- *. intros i Hi. specialize (Hrefs i Hi).
    apply Nat.ltb_lt in Hrefs. apply Nat.ltb_lt.
    rewrite length_app. cbn [length]. lia.
Qed.

Lemma wf_register w l :
  wf w = true -> listener_ok (length (World.joints w)) l = true ->
  wf (World.register l w) = true.
Proof.
  unfold wf. intros Hw Hl. apply andb_true_iff in Hw as [Hjs Hls].
  cbn [World.register World.set_listeners World.joints World.listeners].
  rewrite Hjs, forallb_app, Hls. cbn [forallb andb]. rewrite Hl. reflexivity.
Qed.

(** X19: [Controller(world, joint_idx)] raises IndexError and leaves the world
    as it is when there is no such joint; otherwise it registers the new
    controller after the listeners there are, which stay in place, the
    controller reports done, and a well-formed world stays
    well-formed. *)
Theorem a_new_controller_is_registered_last_and_idle (joint_idx : nat) (w : World.t) :
  let x := World.new_controller joint_idx w in
  let k := length (World.listeners w) in
  ((length (World.joints w) <= joint_idx)%nat -> x = (Raise IndexError, w, [])) /\
  ((joint_idx < length (World.joints w))%nat ->
     result_of x = Ret k /\
     calls_of x = [] /\
     state_of x = World.register (LController (Controller.init joint_idx)) w /\
     World.listeners (state_of x) !! k = Some (LController (Controller.init joint_idx)) /\
     (forall k', (k' < k)%nat -> World.listeners (state_of x) !! k' = World.listeners w !! k') /\
     World.at_controller k (gets Controller.is_done) (state_of x)
       = (Ret true, state_of x, []) /\
     (wf w = true -> wf (state_of x) = true)).
Proof.
  cbv zeta. unfold World.new_controller. split.
  - intros Hge. apply bind_run_raise. unfold World.get_joint.
    rewrite lookup_ge_None_2 by exact Hge. reflexivity.
  - intros Hlt. destruct (lookup_lt_is_Some_2 _ _ Hlt) as [j Ej].
    erewrite bind_quiet by (apply get_joint_eq, Ej). mrun.
    cbn [result_of calls_of state_of ret fst snd].
    unfold ret. cbn [fst snd].
    split; [reflexivity|]. split; [reflexivity|]. split; [reflexivity|].
    assert (Hk : World.listeners (World.register (LController (Controller.init joint_idx)) w)
                 !! length (World.listeners w)
                 = Some (LController (Controller.init joint_idx))).
    { cbn [World.register World.set_listeners World.listeners].
      apply list_lookup_middle. reflexivity. }
    split; [exact Hk|].
    split.
    { intros k' Hk'. cbn [World.register World.set_listeners World.listeners].
      apply lookup_app_l. exact Hk'. }
    split.
    { erewrite at_controller_eq by (try exact Hk; reflexivity).
      f_equal. f_equal. rewrite list_insert_id by exact Hk.
      destruct w; reflexivity. }
    intros Hw. apply wf_register; [exact Hw|].
    unfold listener_ok, view_ok. cbn [listener_view fst snd forallb Controller.joint
      Controller.init].
    apply andb_true_iff. split; [|reflexivity].
    rewrite andb_true_r. apply Nat.ltb_lt. exact Hlt.
Qed.

Lemma a_new_controller_is_registered_last_and_idle_witness :
  World.new_controller 2 latched = (Raise IndexError, latched, []) /\
  result_of (World.new_controller 1 latched) = Ret 1%nat.
Proof.
  split.
  - apply (proj1 (a_new_controller_is_registered_last_and_idle 2 latched)).
    cbn. lia.
  - apply (proj2 (a_new_controller_is_registered_last_and_idle 1 latched)).
    cbn. lia.
Defined.

(** ** What a listener touches *)

Lemma listener_step_local k dt w l :
  World.listeners w !! k = Some l ->
  let w' := state_of (World.listener_step k dt w) in
  World.time w' = World.time w /\
  length (World.joints w') = length (World.joints w) /\
  length (World.listeners w') = length (World.listeners w) /\
  (forall i, i <> acts_on l -> World.joints w' !! i = World.joints w !! i) /\
  (forall k', k' <> k -> World.listeners w' !! k' = World.listeners w !! k') /\
  (lock_target l <> None ->
   World.listeners w' = World.listeners w /\ World.random w' = World.random w).
Proof.
  intros El. cbv zeta. unfold World.listener_step.
  erewrite bind_quiet by (apply listener_ref_eq, El).
  assert (Hsame : forall w0 : World.t,
    w0 = w ->
    World.time w0 = World.time w /\
    length (World.joints w0) = length (World.joints w) /\
    length (World.listeners w0) = length (World.listeners w) /\
    (forall i, i <> acts_on l -> World.joints w0 !! i = World.joints w !! i) /\
    (forall k', k' <> k -> World.listeners w0 !! k' = World.listeners w !! k') /\
    (lock_target l <> None ->
     World.listeners w0 = World.listeners w /\ World.random w0 = World.random w)).
  { intros w0 ->. repeat split. }
  assert (Hlocker : forall (locker target : nat) (m : R -> M Joint.t unit),
    acts_on l = target ->
    let w' := state_of ((a <- World.joint_ref locker;;
                         World.at_joint target (m (Joint.q a))) w) in
    World.time w' = World.time w /\
    length (World.joints w') = length (World.joints w) /\
    length (World.listeners w') = length (World.listeners w) /\
    (forall i, i <> acts_on l -> World.joints w' !! i = World.joints w !! i) /\
    (forall k', k' <> k -> World.listeners w' !! k' = World.listeners w !! k') /\
    (lock_target l <> None ->
     World.listeners w' = World.listeners w /\ World.random w' = World.random w)).
  { intros locker target m Ht. cbv zeta.
    destruct (World.joints w !! locker) as [a|] eqn:Ea.
    2:{ apply Hsame. unfold World.joint_ref, bind. rewrite Ea. reflexivity. }
    erewrite bind_quiet by (apply joint_ref_eq, Ea).
    destruct (World.joints w !! target) as [b|] eqn:Eb.
    2:{ apply Hsame. rewrite at_joint_dangling by exact Eb. reflexivity. }
    destruct (m (Joint.q a) b) as [[r b'] h] eqn:Em.
    rewrite (at_joint_eq _ _ _ _ _ _ _ Eb Em).
    cbn [state_of fst snd World.joints World.listeners World.set_joints World.time
         World.random].
    rewrite length_insert, Ht.
    repeat split.
    intros i Hi. apply list_lookup_insert_ne. congruence. }
  destruct l as [c|l|m]; [|apply Hlocker; reflexivity..].
  destruct (World.joints w !! Controller.joint c) as [j|] eqn:Ej.
  2:{ apply Hsame. unfold World.joint_ref, bind. rewrite Ej. reflexivity. }
  erewrite bind_quiet by (apply joint_ref_eq, Ej).
  destruct (Controller.step dt (Controller.mk_scene c j (World.random w)))
    as [[r s'] h] eqn:E.
  erewrite bind_forget by (unfold zoom; rewrite E; reflexivity).
  cbn [state_of fst snd World.joints World.listeners World.time acts_on lock_target].
  rewrite !length_insert.
  repeat split.
  - intros i Hi. apply list_lookup_insert_ne. congruence.
  - intros k' Hk'. apply list_lookup_insert_ne. congruence.
  - congruence.
  - congruence.
Qed.

(** X20: the step of a listener changes neither the clock nor the number of
    joints and listeners; it leaves every joint but its own (the joint
    of a controller, the target of a locker) and every other listener as
    they are; a locker changes no listener and draws nothing from the
    generator; no listener moves a joint (all positions are as before),
    and the only calls it makes on joints are [add_force], [lock] and
    [unlock]. *)
Theorem a_listener_writes_only_to_its_own_joint
    (k : nat) (dt : R) (w : World.t) (l : listener) :
  World.listeners w !! k = Some l ->
  let x := World.listener_step k dt w in
  let w' := state_of x in
  World.time w' = World.time w /\
  length (World.joints w') = length (World.joints w) /\
  length (World.listeners w') = length (World.listeners w) /\
  (forall i, i <> acts_on l -> World.joints w' !! i = World.joints w !! i) /\
  (forall k', k' <> k -> World.listeners w' !! k' = World.listeners w !! k') /\
  (lock_target l <> None ->
   World.listeners w' = World.listeners w /\ World.random w' = World.random w) /\
  Joint.q <$> World.joints w' = Joint.q <$> World.joints w /\
  forallb is_joint_method (calls_of x) = true.
Proof.
  intros El. cbv zeta.
  destruct (listener_step_local k dt w l El) as (Ht & Hnj & Hnl & Hj & Hl & Hlocker).
  destruct (listener_step_frame k dt w) as (Hframe & Hcalls & _).
  split; [exact Ht|]. split; [exact Hnj|]. split; [exact Hnl|].
  split; [exact Hj|]. split; [exact Hl|]. split; [exact Hlocker|].
  split; [apply Hframe | exact Hcalls].
Qed.

Lemma a_listener_writes_only_to_its_own_joint_witness :
  World.joints (state_of (World.listener_step 0 0.1 lockbox)) !! 0%nat
  = World.joints lockbox !! 0%nat.
Proof.
  destruct (a_listener_writes_only_to_its_own_joint 0 0.1 lockbox
              (LMultiLocker (MultiLocker.mk 0 1 [(0, 80); (100, 180)])) eq_refl)
    as (_ & _ & _ & H & _).
  apply H. cbn. lia.
Defined.

(** ** A joint that nothing can unlock *)

Lemma add_force_on_locked f j : Joint.locked j = true -> Joint.add_force f j = j.
Proof. intros H. unfold Joint.add_force. rewrite H. reflexivity. Qed.

Lemma listener_step_keeps_held k dt w i j :
  held i j w -> held i j (state_of (World.listener_step k dt w)).
Proof.
  intros (Ej & Hl & Hout).
  pose proof (listener_step_keeps_lock k dt w i Hout) as [_ Hk].
  split; [|split; [exact Hl | eapply out_of_reach_keeps; [exact Hk | exact Hout]]].
  clear Hk.
  destruct (World.listeners w !! k) as [l|] eqn:El.
  2:{ unfold World.listener_step, World.listener_ref, bind. rewrite El. exact Ej. }
  destruct (decide (i = acts_on l)) as [Hi|Hi].
  2:{ destruct (listener_step_local k dt w l El) as (_ & _ & _ & H & _).
      rewrite (H i Hi). exact Ej. }
  assert (Ht : lock_target l <> Some i).
  { unfold out_of_reach in Hout. rewrite Forall_forall in Hout.
    apply Hout. eapply list_elem_of_lookup_2, El. }
  destruct l as [c|l|m]; cbn [acts_on lock_target] in Hi, Ht; [|congruence..].
  unfold World.listener_step.
  erewrite bind_quiet by (apply listener_ref_eq, El).
  cbv beta iota. rewrite <- Hi.
  erewrite bind_quiet by (apply joint_ref_eq, Ej).
  destruct (Controller_step_cases dt (Controller.mk_scene c j (World.random w)))
    as (r & s' & h & E & _ & _ & _ & Hcases).
  erewrite bind_forget by (unfold zoom; cbn [Controller.self]; rewrite E; reflexivity).
  cbn [state_of fst snd World.joints Controller.joint_obj] in *.
  rewrite list_lookup_insert_eq by (eapply lookup_lt_Some, Ej).
  f_equal.
  destruct Hcases as [(d & _ & _ & ->)|(_ & _ & -> & _)];
    [apply add_force_on_locked, Hl | reflexivity].
Qed.

Lemma inform_loop_keeps_held dt i j n : forall a w,
  held i j w -> held i j (state_of (for_each (seq a n) (inform dt) w)).
Proof.
  induction n as [|n IH]; intros a w H; [exact H|].
  cbn [seq for_each].
  pose proof (listener_step_keeps_held a dt w i j H) as Hk.
  destruct (World.listener_step a dt w) as [[r w1] h] eqn:E.
  erewrite bind_cases by (rewrite inform_eq, E; reflexivity).
  cbn [state_of fst snd logged] in *.
  destruct r as [[]|e|]; cbn [fst snd]; try exact Hk.
  apply IH, Hk.
Qed.

Lemma World_step_keeps_held dt w i j :
  held i j w -> held i j (state_of (World.step dt w)).
Proof.
  intros (Ej & Hl & Hout).
  destruct (World_step_phases dt w) as (n & _ & Hcases & _). cbv zeta in Hcases.
  assert (Hmid : held i j (midway dt n w)).
  { split; [apply stepped_locked; assumption|]. split; [exact Hl | exact Hout]. }
  destruct Hcases as [[_ E]|[e E]]; rewrite E; cbv zeta; cbn [state_of fst snd].
  - rewrite inform_listeners_eq. apply inform_loop_keeps_held, Hmid.
  - exact Hmid.
Qed.

Lemma ticks_keep_held dt i j n : forall w,
  held i j w -> held i j (state_of (ticks n dt w)).
Proof.
  induction n as [|n IH]; intros w H; [exact H|].
  rewrite ticks_succ.
  pose proof (World_step_keeps_held dt w i j H) as H1.
  destruct (World.step dt w) as [[r w1] h1] eqn:E.
  erewrite bind_cases by exact E.
  cbn [state_of fst snd] in *.
  destruct r as [[]|e|]; cbn [fst snd]; try exact H1.
  apply IH, H1.
Qed.

(** X21: a locked joint that no locker of the world has as target is, after
    any number of ticks of the world, exactly the joint it was: no
    controller, locker or step of its own changes any of its fields. *)
Theorem a_locked_joint_without_a_locker_never_changes
    (w : World.t) (i : nat) (j : Joint.t) (n : nat) (dt : R) :
  World.joints w !! i = Some j ->
  Joint.locked j = true ->
  out_of_reach i w ->
  World.joints (state_of (ticks n dt w)) !! i = Some j /\
  out_of_reach i (state_of (ticks n dt w)).
Proof.
  intros Ej Hl Hout.
  destruct (ticks_keep_held dt i j n w) as (H1 & _ & H2); [repeat split; assumption|].
  split; assumption.
Qed.

Lemma a_locked_joint_without_a_locker_never_changes_witness :
  World.joints (state_of (ticks 10 0.1 jammed)) !! 0%nat
  = Some (Joint.set_index 0 (Joint.lock handle)).
Proof.
  apply (a_locked_joint_without_a_locker_never_changes jammed 0
           (Joint.set_index 0 (Joint.lock handle)) 10 0.1).
  - reflexivity.
  - reflexivity.
  - unfold out_of_reach. cbn [jammed]. repeat constructor; cbn; congruence.
Defined.

(** ** Ticks of a well-formed world *)

Lemma iter_add_INR dt n t : Nat.iter n (fun x => x + dt) t = t + INR n * dt.
Proof.
  induction n as [|n IH]; [cbn; lra|].
  rewrite Nat.iter_succ, IH, S_INR. lra.
Qed.

Lemma ticks_wf dt n : forall w,
  wf w = true ->
  let x := ticks n dt w in
  result_of x = Ret tt /\
  wf (state_of x) = true /\
  World.time (state_of x) = World.time w + INR n * dt /\
  joint_shape <$> World.joints (state_of x) = joint_shape <$> World.joints w /\
  listener_view <$> World.listeners (state_of x) = listener_view <$> World.listeners w /\
  List.filter is_world_step (calls_of x) = replicate n (CWorldStep dt).
Proof.
  induction n as [|n IH]; intros w Hw; cbv zeta.
  - cbn. repeat split; try reflexivity; try assumption. lra.
  - rewrite ticks_succ.
    destruct (World_step_facts dt w) as (Ht & Hs & Hv & _ & Hc & _ & _ & Hwf).
    destruct (Hwf Hw) as [Hr Hw1].
    destruct (World.step dt w) as [[r w1] h1] eqn:E.
    unfold result_of, state_of, calls_of in Ht, Hs, Hv, Hc, Hr, Hw1; cbn [fst snd] in *.
    subst r.
    erewrite bind_cases by exact E. cbv beta iota.
    destruct (IH w1 Hw1) as (IHr & IHw & IHt & IHs & IHv & IHc).
    unfold result_of, state_of, calls_of in *; cbn [fst snd].
    repeat split.
    + exact IHr.
    + exact IHw.
    + rewrite IHt, Ht, S_INR. lra.
    + rewrite IHs. exact Hs.
    + rewrite IHv. exact Hv.
    + rewrite List.filter_app, Hc, IHc. reflexivity.
Qed.

(** X22: [n] ticks of size [dt] of a well-formed world all return; the world
    reached is well-formed, its clock is the old one with [dt] added [n]
    times, one addition after the other, it has the joints and listeners
    it had, in number, and every joint has the thresholds and dampings
    it had. *)
Theorem ticks_keep_a_world_well_formed (n : nat) (dt : R) (w : World.t) :
  wf w = true ->
  let x := ticks n dt w in
  result_of x = Ret tt /\
  wf (state_of x) = true /\
  World.time (state_of x) = Nat.iter n (fun t => t + dt) (World.time w) /\
  length (World.joints (state_of x)) = length (World.joints w) /\
  length (World.listeners (state_of x)) = length (World.listeners w) /\
  Joint.states <$> World.joints (state_of x) = Joint.states <$> World.joints w /\
  Joint.dampings <$> World.joints (state_of x) = Joint.dampings <$> World.joints w /\
  List.filter is_world_step (calls_of x) = replicate n (CWorldStep dt).
Proof.
  intros Hw. cbv zeta.
  destruct (ticks_wf dt n w Hw) as (Hr & Hw' & Ht & Hs & Hv & Hc).
  repeat split; try assumption.
  - rewrite iter_add_INR. exact Ht.
  - eapply fmap_length_eq, Hs.
  - eapply fmap_length_eq, Hv.
  - apply (f_equal (fmap fst)) in Hs. rewrite <- !list_fmap_compose in Hs. exact Hs.
  - apply (f_equal (fmap snd)) in Hs. rewrite <- !list_fmap_compose in Hs. exact Hs.
Qed.

Lemma ticks_keep_a_world_well_formed_witness :
  result_of (ticks 3 0.1 lockbox) = Ret tt /\
  length (World.joints (state_of (ticks 3 0.1 lockbox))) = 2%nat.
Proof.
  destruct (ticks_keep_a_world_well_formed 3 0.1 lockbox) as (Hr & _ & _ & Hn & _).
  - vm_compute. reflexivity.
  - split; [exact Hr | exact Hn].
Defined.

(** ** Idle controllers *)

Lemma Controller_step_idle_self dt s :
  Controller.is_done (Controller.self s) = true ->
  Controller.self (state_of (Controller.step dt s)) = Controller.self s.
Proof.
  unfold Controller.is_done. intros Hd.
  apply andb_true_iff in Hd as [Hp Hf]. apply negb_true_iff in Hp, Hf.
  unfold Controller.step. mrun. rewrite Hf. mrun. rewrite Hp. mrun.
  reflexivity.
Qed.

Lemma listener_step_keeps_idle k dt w c :
  idle_at c w -> idle_at c (state_of (World.listener_step k dt w)).
Proof.
  intros (ctl & Ec & Hd).
  destruct (World.listeners w !! k) as [l|] eqn:El.
  2:{ unfold World.listener_step, World.listener_ref, bind. rewrite El.
      exists ctl. split; assumption. }
  destruct (decide (c = k)) as [->|Hk].
  2:{ destruct (listener_step_local k dt w l El) as (_ & _ & _ & _ & H & _).
      exists ctl. rewrite (H c Hk). split; assumption. }
  rewrite Ec in El. injection El as <-.
  unfold World.listener_step.
  erewrite bind_quiet by (apply listener_ref_eq, Ec).
  cbv beta iota.
  destruct (World.joints w !! Controller.joint ctl) as [j|] eqn:Ej.
  2:{ unfold World.joint_ref, bind. rewrite Ej. exists ctl. split; assumption. }
  erewrite bind_quiet by (apply joint_ref_eq, Ej).
  pose proof (Controller_step_idle_self dt (Controller.mk_scene ctl j (World.random w)) Hd)
    as Hself.
  destruct (Controller.step dt (Controller.mk_scene ctl j (World.random w)))
    as [[r s'] h] eqn:E.
  erewrite bind_forget by (unfold zoom; rewrite E; reflexivity).
  cbn [state_of fst snd World.listeners Controller.self] in *.
  exists ctl. split; [|exact Hd].
  rewrite Hself. apply list_lookup_insert_eq. eapply lookup_lt_Some, Ec.
Qed.

Lemma inform_loop_keeps_idle dt c n : forall a w,
  idle_at c w -> idle_at c (state_of (for_each (seq a n) (inform dt) w)).
Proof.
  induction n as [|n IH]; intros a w H; [exact H|].
  cbn [seq for_each].
  pose proof (listener_step_keeps_idle a dt w c H) as Hk.
  destruct (World.listener_step a dt w) as [[r w1] h] eqn:E.
  erewrite bind_cases by (rewrite inform_eq, E; reflexivity).
  cbn [state_of fst snd logged] in *.
  destruct r as [[]|e|]; cbn [fst snd]; try exact Hk.
  apply IH, Hk.
Qed.

Lemma World_step_keeps_idle dt w c :
  idle_at c w -> idle_at c (state_of (World.step dt w)).
Proof.
  intros H.
  destruct (World_step_phases dt w) as (n & _ & Hcases & _). cbv zeta in Hcases.
  assert (Hmid : idle_at c (midway dt n w)) by exact H.
  destruct Hcases as [[_ E]|[e E]]; rewrite E; cbv zeta; cbn [state_of fst snd].
  - rewrite inform_listeners_eq. apply inform_loop_keeps_idle, Hmid.
  - exact Hmid.
Qed.

Lemma wait_done_facts am j fuel : forall w,
  let x := ActionMachine.wait_done fuel am j w in
  (forall c', idle_at c' w -> idle_at c' (state_of x)) /\
  (result_of x = Ret tt ->
   exists c, ActionMachine.controllers am !! j = Some c /\ idle_at c (state_of x)).
Proof.
  induction fuel as [|fuel IH]; intros w; cbv zeta; cbn [ActionMachine.wait_done].
  all: destruct (ActionMachine.controllers am !! j) as [c|] eqn:Ec;
       [ rewrite (bind_quiet _ _ _ _ _ (controller_at_eq am j c w Ec))
       | unfold ActionMachine.controller_at; rewrite Ec;
         split; [intros c' H; exact H | discriminate] ].
  all: destruct (at_controller_cases c (gets Controller.is_done) w)
         as [(ctl & El & E)|(e & E)];
       [ cbn [gets result_of state_of calls_of fst snd] in E;
         rewrite (set_listeners_same _ _ _ El) in E;
         rewrite (bind_quiet _ _ _ _ _ E);
         destruct (Controller.is_done ctl) eqn:Hd; cbn [negb]
       | rewrite (bind_run_raise _ _ _ _ _ _ E);
         split; [intros c' H; exact H | discriminate] ].
  all: try (split; [intros c' H; exact H|];
            first [ discriminate
                  | intros _; exists c; split; [reflexivity|];
                    exists ctl; split; assumption ]).
  destruct (World.step (ActionMachine.tau am) w) as [[r w1] h1] eqn:Es.
  assert (Hstep : forall c', idle_at c' w -> idle_at c' w1).
  { intros c' H. pose proof (World_step_keeps_idle (ActionMachine.tau am) w c' H) as H1.
    rewrite Es in H1. exact H1. }
  erewrite bind_cases by exact Es.
  destruct r as [[]|e|]; cbn [result_of state_of fst snd].
  - destruct (IH w1) as (IHk & IHd).
    split; [intros c' H; apply IHk, Hstep, H | exact IHd].
  - split; [exact Hstep | discriminate].
  - split; [exact Hstep | discriminate].
Qed.

Lemma move_and_wait_facts fuel am j p w :
  let x := (c <- ActionMachine.controller_at am j;;
            emit (CMoveTo c p);;
            World.at_controller c (modify (Controller.move_to p));;
            ActionMachine.wait_done fuel am j) w in
  result_of x = Ret tt ->
  (forall c', idle_at c' w -> idle_at c' (state_of x)) /\
  (exists c, ActionMachine.controllers am !! j = Some c /\ idle_at c (state_of x)).
Proof.
  cbv zeta.
  destruct (ActionMachine.controllers am !! j) as [c|] eqn:Ec.
  2:{ unfold ActionMachine.controller_at. rewrite Ec. discriminate. }
  rewrite (bind_quiet _ _ _ _ _ (controller_at_eq am j c w Ec)), bind_emit.
  destruct (at_controller_cases c (modify (Controller.move_to p)) w)
    as [(ctl & El & E)|(e & E)].
  2:{ rewrite (bind_run_raise _ _ _ _ _ _ E). discriminate. }
  cbn [modify result_of state_of calls_of fst snd] in E.
  rewrite (bind_quiet _ _ _ _ _ E).
  match goal with |- context [ActionMachine.wait_done fuel am j ?s] =>
    destruct (wait_done_facts am j fuel s) as (Hk & Hd);
    destruct (ActionMachine.wait_done fuel am j s) as [[r w1] h1] eqn:Ew end.
  unfold logged, result_of, state_of in *; cbn [fst snd] in *.
  intros Hret. destruct (Hd Hret) as (c0 & Ec0 & Hidle).
  rewrite Ec in Ec0. injection Ec0 as <-.
  split; [|exists c; split; [reflexivity | exact Hidle]].
  intros c' (ctl' & Ec' & Hd').
  destruct (decide (c' = c)) as [->|Hne]; [exact Hidle|].
  apply Hk. exists ctl'. split; [|exact Hd'].
  cbn [World.listeners World.set_listeners].
  rewrite list_lookup_insert_ne by congruence. exact Ec'.
Qed.

Lemma run_action_loop_facts fuel am (pos : list value) : forall a w,
  let x := for_each (zip (seq a (length pos)) pos)
             (fun '(j, p) =>
                c <- ActionMachine.controller_at am j;;
                emit (CMoveTo c p);;
                World.at_controller c (modify (Controller.move_to p));;
                ActionMachine.wait_done fuel am j) w in
  result_of x = Ret tt ->
  (forall c', idle_at c' w -> idle_at c' (state_of x)) /\
  (forall j, (a <= j < a + length pos)%nat ->
     exists c, ActionMachine.controllers am !! j = Some c /\ idle_at c (state_of x)).
Proof.
  induction pos as [|p pos IH]; intros a w; cbv zeta.
  - cbn. intros _. split; [intros c' H; exact H | intros j Hj; lia].
  - cbn [length seq zip zip_with for_each].
    pose proof (move_and_wait_facts fuel am a p w) as Hbody. cbv zeta in Hbody.
    match type of Hbody with result_of (?m w) = _ -> _ =>
      destruct (m w) as [[r w1] h1] eqn:E end.
    erewrite bind_cases by exact E.
    unfold result_of, state_of in Hbody; cbn [fst snd] in Hbody.
    destruct r as [[]|e|]; [|discriminate..].
    destruct (Hbody eq_refl) as (Hk & c & Ec & Hidle).
    specialize (IH (S a) w1). cbv zeta in IH.
    unfold result_of, state_of in *; cbn [fst snd].
    intros Hret. destruct (IH Hret) as (IHk & IHj).
    split; [intros c' H; apply IHk, Hk, H|].
    intros j Hj. destruct (decide (j = a)) as [->|Hne].
    + exists c. split; [exact Ec | apply IHk, Hidle].
    + apply IHj. lia.
Qed.

(** X23: when [run_action(pos)] returns, there was a controller for each
    entry of [pos], each of them is a controller that reports done in the
    world reached, and so does every controller that was done before
    the call. *)
Theorem run_action_leaves_its_controllers_done
    (fuel : nat) (am : ActionMachine.t) (pos : list value) (w : World.t) :
  let x := ActionMachine.run_action fuel am pos w in
  result_of x = Ret tt ->
  (length pos <= length (ActionMachine.controllers am))%nat /\
  (forall j, (j < length pos)%nat ->
     exists c ctl,
       ActionMachine.controllers am !! j = Some c /\
       World.listeners (state_of x) !! c = Some (LController ctl) /\
       Controller.is_done ctl = true) /\
  (forall c, idle_at c w -> idle_at c (state_of x)).
Proof.
  cbv zeta. unfold ActionMachine.run_action, enumerate. intros Hret.
  destruct (run_action_loop_facts fuel am pos 0 w Hret) as (Hk & Hj).
  split; [|split; [|exact Hk]].
  - destruct (length pos) as [|n] eqn:En; [lia|].
    destruct (Hj n) as (c & Ec & _); [lia|].
    apply lookup_lt_Some in Ec. lia.
  - intros j Hlt. destruct (Hj j) as (c & Ec & ctl & El & Hd); [lia|].
    exists c, ctl. repeat split; assumption.
Qed.

Lemma run_action_leaves_its_controllers_done_witness :
  exists ctl,
    World.listeners (state_of (ActionMachine.run_action 1 stuck_machine [VNum 50] stuck))
      !! 0%nat = Some (LController ctl) /\
    Controller.is_done ctl = true.
Proof.
  destruct (run_action_leaves_its_controllers_done 1 stuck_machine [VNum 50] stuck
              run_action_on_stuck) as (_ & H & _).
  destruct (H 0%nat) as (c & ctl & Ec & El & Hd); [cbn; lia|].
  injection Ec as <-. exists ctl. split; assumption.
Defined.

(** ** check_state *)

(** X24: [check_state(joint)] for an index without a joint, or without a
    controller in the machine's list, raises IndexError before any call
    is made: the world is unchanged. *)
Theorem check_state_raises_before_it_changes_anything
    (am : ActionMachine.t) (joint : nat) (w : World.t) :
  (length (World.joints w) <= joint)%nat
  \/ (length (ActionMachine.controllers am) <= joint)%nat ->
  ActionMachine.check_state am joint w = (Raise IndexError, w, []).
Proof.
  intros H. unfold ActionMachine.check_state.
  destruct (World.joints w !! joint) as [old|] eqn:Ej.
  - destruct H as [H|H]; [apply lookup_lt_Some in Ej; lia|].
    erewrite bind_quiet by (apply get_joint_eq, Ej).
    apply bind_run_raise. unfold ActionMachine.controller_at.
    rewrite lookup_ge_None_2 by exact H. reflexivity.
  - apply bind_run_raise. unfold World.get_joint. rewrite Ej. reflexivity.
Qed.

Lemma check_state_raises_before_it_changes_anything_witness :
  ActionMachine.check_state lockbox_machine 2 lockbox = (Raise IndexError, lockbox, []).
Proof.
  apply (check_state_raises_before_it_changes_anything lockbox_machine 2 lockbox).
  left. cbn. lia.
Defined.

Lemma armed_held c ctl w i j :
  World.listeners w !! c = Some (LController ctl) ->
  held i j w -> held i j (armed c ctl w).
Proof.
  intros El (Ej & Hl & Hout). split; [exact Ej|]. split; [exact Hl|].
  eapply out_of_reach_keeps; [|exact Hout].
  unfold armed. cbn [World.listeners World.set_listeners].
  eapply fmap_insert_same; [exact El | reflexivity].
Qed.

(** X25: in a well-formed world, [check_state] on a locked joint that no
    locker has as target returns 1; the joint is unchanged and the clock
    is the old one with [tau] added ten times, one addition after the
    other. *)
Theorem check_state_reports_a_held_joint_as_locked
    (am : ActionMachine.t) (j : nat) (w : World.t)
    (old : Joint.t) (c : nat) (ctl : Controller.t) :
  wf w = true ->
  World.joints w !! j = Some old ->
  Joint.locked old = true ->
  out_of_reach j w ->
  ActionMachine.controllers am !! j = Some c ->
  World.listeners w !! c = Some (LController ctl) ->
  let x := ActionMachine.check_state am j w in
  result_of x = Ret 1%nat /\
  World.joints (state_of x) !! j = Some old /\
  World.time (state_of x)
    = Nat.iter 10 (fun t => t + ActionMachine.tau am) (World.time w).
Proof.
  intros Hw Ej Hl Hout Ec El. cbv zeta.
  pose proof (armed_wf c ctl w El Hw) as Hw1.
  destruct (ticks_wf (ActionMachine.tau am) 10 (armed c ctl w) Hw1)
    as (Hr & _ & Ht & _).
  destruct (ticks_keep_held (ActionMachine.tau am) j old 10 (armed c ctl w))
    as (Enew & _); [apply armed_held; [exact El | repeat split; assumption]|].
  destruct (ticks 10 (ActionMachine.tau am) (armed c ctl w)) as [[r w'] h] eqn:E.
  unfold result_of, state_of in Hr, Ht, Enew; cbn [fst snd] in Hr, Ht, Enew. subst r.
  assert (Erun : ActionMachine.check_state am j w =
            (Ret (if bool_decide (Rabs (Joint.q old - Joint.q old) > 0.01)
                  then 0%nat else 1%nat), w', CApplyForce c 1 10 :: h)).
  { unfold ActionMachine.check_state.
    erewrite bind_quiet by (apply get_joint_eq, Ej).
    erewrite bind_quiet by (apply controller_at_eq, Ec).
    rewrite bind_emit.
    erewrite bind_quiet by (eapply at_controller_eq; [exact El | reflexivity]).
    fold (armed c ctl w). fold (ticks 10 (ActionMachine.tau am)).
    erewrite bind_cases by exact E.
    erewrite bind_quiet by (apply get_joint_eq, Enew).
    unfold ret, logged, result_of, state_of, calls_of; cbn [fst snd].
    rewrite app_nil_r. reflexivity. }
  rewrite Erun. unfold result_of, state_of; cbn [fst snd].
  split; [|split; [exact Enew|]].
  - rewrite bool_decide_eq_false_2; [reflexivity|].
    replace (Joint.q old - Joint.q old) with 0 by lra. rewrite Rabs_R0. lra.
  - rewrite Ht, iter_add_INR. reflexivity.
Qed.

Lemma check_state_reports_a_held_joint_as_locked_witness :
  result_of (ActionMachine.check_state lockbox_machine 0 jammed) = Ret 1%nat.
Proof.
  apply (check_state_reports_a_held_joint_as_locked lockbox_machine 0 jammed
           (Joint.set_index 0 (Joint.lock handle)) 1 (Controller.init 0)).
  - vm_compute. reflexivity.
  - reflexivity.
  - reflexivity.
  - unfold out_of_reach. cbn [jammed]. repeat constructor; cbn; congruence.
  - reflexivity.
  - reflexivity.
Defined.

(** ** Furniture *)

Lemma joint_from_end_eq k w :
  (1 <= k <= length (World.joints w))%nat ->
  joint_from_end k w = (Ret (length (World.joints w) - k)%nat, w, []).
Proof.
  intros H. unfold joint_from_end. mrun.
  rewrite (proj2 (Nat.leb_le _ _)) by lia. reflexivity.
Qed.

Lemma add_handle_and_window hs locks noise limits w :
  (modify (World.add_joint
             (Joint.init hs [15; 200; 15] (Some limits.1.1, Some limits.1.2) noise None));;
   modify (World.add_joint
             (Joint.init [limits.2.2] [15; 15] (Some limits.2.1, Some limits.2.2) noise None));;
   locker <- joint_from_end 2;;
   locked <- joint_from_end 1;;
   World.new_multilocker locker locked locks;;
   ret tt) w
  = (Ret tt, furnished hs locks noise limits w, []).
Proof.
  mrun.
  match goal with |- _ ?s = _ => set (w2 := s) end.
  assert (Ej : World.joints w2
               = World.joints w
                 ++ [Joint.set_index (length (World.joints w))
                       (Joint.init hs [15; 200; 15] (Some limits.1.1, Some limits.1.2)
                          noise None);
                     Joint.set_index (S (length (World.joints w)))
                       (Joint.init [limits.2.2] [15; 15] (Some limits.2.1, Some limits.2.2)
                          noise None)]).
  { unfold w2. rewrite !add_joint_joints, length_app. cbn [length].
    rewrite <- app_assoc, Nat.add_1_r. reflexivity. }
  assert (Hlen : length (World.joints w2) = S (S (length (World.joints w)))).
  { rewrite Ej, length_app. cbn [length]. lia. }
  erewrite bind_quiet by (apply joint_from_end_eq; lia).
  erewrite bind_quiet by (apply joint_from_end_eq; lia).
  unfold World.new_multilocker. mrun.
  unfold ret, furnished. cbv zeta. f_equal. f_equal.
  unfold World.register. cbn [World.set_listeners World.joints World.listeners World.time
    World.random].
  rewrite Hlen.
  replace (S (S (length (World.joints w))) - 2)%nat with (length (World.joints w)) by lia.
  replace (S (S (length (World.joints w))) - 1)%nat with (S (length (World.joints w))) by lia.
  unfold World.set_listeners. rewrite Ej. reflexivity.
Qed.

Lemma furnished_wf hs locks noise limits w :
  length hs = 2%nat -> wf w = true -> wf (furnished hs locks noise limits w) = true.
Proof.
  intros Hhs Hw. unfold wf in *. apply andb_true_iff in Hw as [Hjs Hls].
  unfold furnished. cbv zeta. cbn [World.joints World.listeners].
  apply andb_true_iff. split.
  - rewrite forallb_app, Hjs. cbn [forallb andb].
    unfold joint_ok, shape_ok, joint_shape. cbn [Joint.states Joint.dampings fst snd length].
    rewrite Hhs. reflexivity.
  - rewrite forallb_app. apply andb_true_iff. split.
    + rewrite forallb_forall in Hls |- *. intros l Hl. specialize (Hls l Hl).
      unfold listener_ok, view_ok in *.
      apply andb_true_iff in Hls as [Hrefs Hgoal]. rewrite Hgoal, andb_true_r.
      rewrite forallb_forall in Hrefs |- *. intros i Hi. specialize (Hrefs i Hi).
      apply Nat.ltb_lt in Hrefs. apply Nat.ltb_lt.
      rewrite length_app. cbn [length]. lia.
    + cbn [forallb]. rewrite andb_true_r.
      unfold listener_ok, view_ok.
      cbn [listener_view fst snd forallb MultiLocker.locker MultiLocker.locked].
      rewrite length_app. cbn [length].
      rewrite !(proj2 (Nat.ltb_lt _ _)) by lia. reflexivity.
Qed.

Lemma get_state_two a b q :
  a < b ->
  get_state q [a; b]
  = if decide (q < a) then 0%nat else if decide (q < b) then 1%nat else 2%nat.
Proof.
  intros Hab. unfold get_state, enumerate. cbn [length seq zip zip_with get_state_loop].
  destruct (decide (q < a)), (decide (q < b)); try reflexivity; lra.
Qed.

Lemma stiff_between a b q : a < b -> stiff [a; b] q <-> a <= q < b.
Proof.
  intros Hab. unfold stiff. rewrite get_state_two by exact Hab.
  destruct (decide (q < a)), (decide (q < b)); cbn; split; intros H;
    try lra; try discriminate; try reflexivity.
  all: injection H as H; lra.
Qed.

Lemma should_be_locked_two a b c d q :
  MultiLocker.should_be_locked [(a, b); (c, d)] q = false
  <-> ~ (a <= q <= b) /\ ~ (c <= q <= d).
Proof.
  rewrite <- not_true_iff_false, should_be_locked_iff.
  unfold in_some_closed_interval. rewrite Exists_cons, Exists_cons, Exists_nil.
  cbn [fst snd]. tauto.
Qed.

Lemma should_be_locked_one a b q :
  MultiLocker.should_be_locked [(a, b)] q = false <-> ~ (a <= q <= b).
Proof.
  rewrite <- not_true_iff_false, should_be_locked_iff.
  unfold in_some_closed_interval. rewrite Exists_cons, Exists_nil.
  cbn [fst snd]. tauto.
Qed.

Lemma create_drawer_with_key_eq open_at noise limits w :
  create_drawer_with_key open_at noise limits w
  = (Ret tt,
     furnished [open_at - 10; open_at + 10]
       [(limits.1.1, open_at - 10); (open_at + 10, limits.1.2)] noise limits w,
     []).
Proof.
  unfold create_drawer_with_key. cbv zeta. cbn [fst snd].
  apply (add_handle_and_window [open_at - 10; open_at + 10]).
Qed.

Lemma create_drawer_with_handle_eq u noise limits w :
  create_drawer_with_handle u noise limits w
  = (Ret tt,
     furnished
       (if bool_decide (u > 0.5) then [limits.1.2 - 20; limits.1.2]
        else [limits.1.1; limits.1.1 + 20])
       (if bool_decide (u > 0.5) then [(limits.1.1, limits.1.2 - 20)]
        else [(limits.1.1 + 20, limits.1.2)]) noise limits w,
     []).
Proof.
  unfold create_drawer_with_handle. cbv zeta.
  destruct (bool_decide (u > 0.5)); cbn [fst snd]; apply add_handle_and_window.
Qed.

(** X26: [create_drawer_with_key] (and [create_cupboard_with_key], which does
    the same) returns and adds a handle, a window and the MultiLocker
    between them, keeping a well-formed world well-formed.  For a handle
    within its limits the MultiLocker wants the window unlocked exactly
    when the handle is strictly within 10 of [open_at], and the handle's
    stiff zone (damping 200) is [open_at - 10 <= q < open_at + 10]. *)
Theorem a_key_frees_the_window_only_inside_its_stiff_zone
    (open_at : R) (noise : noise_t) (limits : limits_t) (w : World.t) :
  let hs := [open_at - 10; open_at + 10] in
  let locks := [(limits.1.1, open_at - 10); (open_at + 10, limits.1.2)] in
  create_drawer_with_key open_at noise limits w
    = (Ret tt, furnished hs locks noise limits w, []) /\
  create_cupboard_with_key open_at noise limits w
    = create_drawer_with_key open_at noise limits w /\
  (wf w = true -> wf (furnished hs locks noise limits w) = true) /\
  (forall q, limits.1.1 <= q <= limits.1.2 ->
     (MultiLocker.should_be_locked locks q = false
      <-> open_at - 10 < q < open_at + 10)) /\
  (forall q, stiff hs q <-> open_at - 10 <= q < open_at + 10).
Proof.
  cbv zeta. split; [apply create_drawer_with_key_eq|].
  split; [reflexivity|].
  split; [apply furnished_wf; reflexivity|].
  split.
  - intros q Hq. rewrite should_be_locked_two. lra.
  - intros q. apply stiff_between. lra.
Qed.

(** X27: [create_drawer_with_handle] (and [create_cupboard_with_handle], which
    does the same) returns and adds a handle, a window and the
    MultiLocker between them, keeping a well-formed world well-formed.
    When the draw is above 0.5 the window is to be unlocked exactly for
    a handle in the last 20 of its travel (above [max - 20]), otherwise
    in the first 20 (below [min + 20]); the stiff zone of the handle is
    that stretch, closed below and open above. *)
Theorem a_handle_frees_the_window_at_one_end_of_its_travel
    (u : R) (noise : noise_t) (limits : limits_t) (w : World.t) :
  let lo := limits.1.1 in
  let hi := limits.1.2 in
  let open_upper := bool_decide (u > 0.5) in
  let hs := if open_upper then [hi - 20; hi] else [lo; lo + 20] in
  let locks := if open_upper then [(lo, hi - 20)] else [(lo + 20, hi)] in
  create_drawer_with_handle u noise limits w
    = (Ret tt, furnished hs locks noise limits w, []) /\
  create_cupboard_with_handle u noise limits w
    = create_drawer_with_handle u noise limits w /\
  (wf w = true -> wf (furnished hs locks noise limits w) = true) /\
  (forall q, lo <= q <= hi ->
     (MultiLocker.should_be_locked locks q = false
      <-> if open_upper then hi - 20 < q else q < lo + 20)) /\
  (forall q, stiff hs q <-> if open_upper then hi - 20 <= q < hi else lo <= q < lo + 20).
Proof.
  cbv zeta. split; [apply create_drawer_with_handle_eq|].
  split; [reflexivity|].
  split; [apply furnished_wf; destruct (bool_decide _); reflexivity|].
  split.
  - intros q Hq. destruct (bool_decide (u > 0.5)); rewrite should_be_locked_one; lra.
  - intros q. destruct (bool_decide (u > 0.5)); apply stiff_between; lra.
Qed.

Lemma create_furniture_eq f draw noise limits w :
  exists hs locks,
    length hs = 2%nat /\
    create_furniture (Some f) draw noise limits w
    = (Ret tt, furnished hs locks noise limits w, []).
Proof.
  destruct f; cbn [create_furniture].
  - eexists _, _. split; [|apply create_drawer_with_key_eq]. reflexivity.
  - eexists _, _. split; [|apply create_drawer_with_handle_eq].
    destruct (bool_decide _); reflexivity.
  - eexists _, _. split; [|apply create_drawer_with_key_eq]. reflexivity.
  - eexists _, _. split; [|apply create_drawer_with_handle_eq].
    destruct (bool_decide _); reflexivity.
Qed.

Lemma furnished_pieces hs locks noise limits n w :
  length hs = 2%nat -> pieces n w -> pieces (S n) (furnished hs locks noise limits w).
Proof.
  intros Hhs (Hw & Hj & Hl & Hls & Hjs).
  split; [apply furnished_wf; assumption|].
  unfold furnished. cbv zeta. cbn [World.joints World.listeners].
  split; [rewrite length_app; cbn [length]; lia|].
  split; [rewrite length_app; cbn [length]; lia|].
  split.
  - intros k Hk. destruct (decide (k = n)) as [->|Hne].
    + exists locks. rewrite Hj.
      replace (2 * n + 1)%nat with (S (2 * n)) by lia.
      rewrite <- Hl. apply list_lookup_middle. reflexivity.
    + destruct (Hls k) as [locks' E]; [lia|]. exists locks'.
      rewrite lookup_app_l by lia. exact E.
  - intros i j. rewrite lookup_app. destruct (World.joints w !! i) as [j0|] eqn:E.
    + intros [= <-]. apply Hjs, E.
    + apply lookup_ge_None in E.
      destruct (i - length (World.joints w))%nat as [|[|d]] eqn:Ed; cbn; intros [= <-];
        cbn [Joint.index Joint.q Joint.vel Joint.locked]; repeat split; f_equal; lia.
Qed.

Lemma create_world_loop choice draw noise limits n : forall a w,
  pieces a w ->
  exists w',
    for_each (seq a n)
      (fun i => create_furniture (Some (choice i)) (draw i) noise limits) w
    = (Ret tt, w', []) /\
    pieces (a + n) w' /\
    World.time w' = World.time w /\ World.random w' = World.random w.
Proof.
  induction n as [|n IH]; intros a w Hp.
  - exists w. rewrite Nat.add_0_r.
    split; [reflexivity|]. split; [exact Hp|]. split; reflexivity.
  - cbn [seq for_each].
    destruct (create_furniture_eq (choice a) (draw a) noise limits w)
      as (hs & locks & Hhs & E).
    erewrite bind_quiet by exact E.
    destruct (IH (S a) (furnished hs locks noise limits w)) as (w' & E' & Hp' & Ht & Hr).
    { apply furnished_pieces; assumption. }
    exists w'. split; [exact E'|].
    split; [replace (a + S n)%nat with (S a + n)%nat by lia; exact Hp'|].
    split; [rewrite Ht | rewrite Hr]; reflexivity.
Qed.

(** X28: [create_world(n)] returns, whatever the choices and draws: a
    well-formed world at time 0 of [2n] joints and [n] MultiLockers, in
    which listener [k] locks joint [2k+1] by joint [2k], and every joint
    rests unlocked at position 0 with its [index] set to its position.
    With a value that is no member of [Furniture], [create_furniture]
    raises TypeError and leaves the world as it is. *)
Theorem create_world_builds_a_well_formed_world_of_pairs
    (n : option nat) (choice : nat -> Furniture.t) (draw : nat -> R) (g : Random.t) :
  (exists w,
     create_world n choice draw g = Ret w /\
     pieces (default 3%nat n) w /\
     World.time w = 0 /\ World.random w = g) /\
  (forall x noise limits w,
     create_furniture None x noise limits w = (Raise TypeError, w, [])).
Proof.
  split; [|reflexivity].
  unfold create_world. cbv zeta.
  destruct (create_world_loop choice draw (mk_noise 0.00001 0.00001)
              ((0, 180), (0, 120)) (default 3%nat n) 0 (World.init [] g))
    as (w' & E & Hp & Ht & Hr).
  { split; [reflexivity|]. split; [reflexivity|]. split; [reflexivity|]. split.
    - intros k Hk. lia.
    - intros i j H. cbn in H. rewrite lookup_nil in H. discriminate. }
  rewrite E. cbn [result_of state_of fst snd].
  exists w'. split; [reflexivity|]. split; [exact Hp|]. split; assumption.
Qed.

(** ** The lockbox *)

Lemma lockbox_rounds_eq m noise g n : forall a lower upper,
  ((0 < a)%nat -> lower = (0, m (a - 1)%nat - 10) /\ upper = (m (a - 1)%nat + 10, 180)) ->
  lockbox_rounds m noise (seq a n) lower upper (lockbox_of m noise g a)
  = (Ret ((fun i => (i, m i - 10, m i + 10)) <$> seq a n),
     lockbox_of m noise g (a + n), []).
Proof.
  induction n as [|n IH]; intros a lower upper Hprev.
  - cbn. rewrite Nat.add_0_r. reflexivity.
  - cbn [seq lockbox_rounds]. cbv zeta. cbn [fst snd]. mrun.
    set (w1 := World.add_joint _ _).
    assert (Ej : World.joints w1 = lockbox_joint m noise <$> seq 0 (S a)).
    { unfold w1. rewrite add_joint_joints. cbn [lockbox_of World.joints].
      rewrite length_fmap, length_seq, seq_S, fmap_app. reflexivity. }
    assert (E1 : (if (0 <? a)%nat
                  then World.get_joint (a - 1);; World.get_joint a;;
                       World.new_multilocker (a - 1) a [lower; upper];; ret tt
                  else ret tt) w1
                 = (Ret tt, lockbox_of m noise g (S a), [])).
    { destruct a as [|a].
      - cbn [Nat.ltb Nat.leb]. reflexivity.
      - replace (0 <? S a)%nat with true by reflexivity.
        destruct (Hprev ltac:(lia)) as [-> ->].
        replace (S a - 1)%nat with a by lia.
        erewrite bind_quiet.
        2:{ apply get_joint_eq. rewrite Ej. rewrite list_lookup_fmap.
            rewrite lookup_seq_lt by lia. reflexivity. }
        erewrite bind_quiet.
        2:{ apply get_joint_eq. rewrite Ej. rewrite list_lookup_fmap.
            rewrite lookup_seq_lt by lia. reflexivity. }
        unfold World.new_multilocker. mrun. unfold ret. f_equal. f_equal.
        unfold World.register, World.set_listeners, lockbox_of. rewrite Ej.
        unfold w1. cbn [World.add_joint World.listeners World.set_joints World.time
          World.random lockbox_of].
        f_equal.
        replace (S (S a) - 1)%nat with (S a) by lia.
        replace (S a - 1)%nat with a by lia.
        rewrite (seq_S a), fmap_app. reflexivity. }
    erewrite bind_quiet by exact E1.
    erewrite bind_quiet.
    2:{ apply (IH (S a)). intros _. replace (S a - 1)%nat with a by lia. split; reflexivity. }
    unfold ret. replace (a + S n)%nat with (S a + n)%nat by lia. reflexivity.
Qed.

Lemma lockbox_of_wf m noise g n : wf (lockbox_of m noise g n) = true.
Proof.
  unfold wf, lockbox_of. cbn [World.joints World.listeners].
  rewrite length_fmap, length_seq.
  apply andb_true_iff. split; apply forallb_forall; intros x Hx.
  - apply list_elem_of_In, list_elem_of_fmap in Hx as (i & -> & _). reflexivity.
  - apply list_elem_of_In, list_elem_of_fmap in Hx as (k & -> & Hk).
    apply elem_of_seq in Hk.
    unfold listener_ok, view_ok, lockbox_locker.
    cbn [listener_view fst snd forallb MultiLocker.locker MultiLocker.locked].
    rewrite !(proj2 (Nat.ltb_lt _ _)) by lia. reflexivity.
Qed.

(** X29: [create_lockbox] returns the world of [num_of_joints] joints (5 by
    default) in which joint [k] locks joint [k+1] over
    [[0, m_k - 10]] and [[m_k + 10, 180]], and prints the opening of
    each joint.  The world is well-formed, no locker has joint 0 as
    target, joint [k+1] is to be unlocked exactly while joint [k] (within
    its limits) is strictly within 10 of [m_k], and that stretch lies in
    the stiff zone of joint [k]. *)
Theorem create_lockbox_chains_each_joint_to_the_next
    (num_of_joints : option nat) (noise : option noise_t) (m : nat -> R) (g : Random.t) :
  let n := default 5%nat num_of_joints in
  let nz := default (mk_noise 0.00001 0.00001) noise in
  let w := lockbox_of m nz g n in
  create_lockbox num_of_joints noise m g
    = Ret (w, (fun i => (i, m i - 10, m i + 10)) <$> seq 0 n) /\
  wf w = true /\
  length (World.joints w) = n /\
  length (World.listeners w) = (n - 1)%nat /\
  out_of_reach 0 w /\
  (forall k q, 0 <= q <= 180 ->
     (MultiLocker.should_be_locked [(0, m k - 10); (m k + 10, 180)] q = false
      <-> m k - 10 < q < m k + 10)) /\
  (forall k q, stiff [m k - 10; m k + 10] q <-> m k - 10 <= q < m k + 10).
Proof.
  cbv zeta. split.
  { unfold create_lockbox. cbv zeta.
    rewrite (lockbox_rounds_eq m _ g (default 5%nat num_of_joints) 0 (0, 0) (0, 0))
      by (intros H; lia).
    reflexivity. }
  split; [apply lockbox_of_wf|].
  split; [cbn [lockbox_of World.joints]; rewrite length_fmap, length_seq; reflexivity|].
  split; [cbn [lockbox_of World.listeners]; rewrite length_fmap, length_seq; reflexivity|].
  split.
  { unfold out_of_reach. cbn [lockbox_of World.listeners].
    apply Forall_fmap, Forall_forall. intros k _. cbn. congruence. }
  split.
  - intros k q Hq. rewrite should_be_locked_two. lra.
  - intros k q. apply stiff_between. lra.
Qed.

Lemma lockbox_joint_rests m noise i dt :
  state_of (Joint.step dt (lockbox_joint m noise i)) = lockbox_joint m noise i.
Proof.
  rewrite Joint_step_at_rest; try reflexivity.
  intros [[x [E H]]|[x [E H]]]; cbn in E; injection E as <-; cbn in H; lra.
Qed.

Lemma lockbox_midway m noise g n dt :
  midway dt n (lockbox_of m noise g n) = lockbox_after m noise g n (0 + dt) 0.
Proof.
  unfold midway, lockbox_of, lockbox_after. cbn [World.joints World.listeners World.time
    World.random].
  f_equal.
  transitivity (stepped dt 0 (length (lockbox_joint m noise <$> seq 0 n))
                  (lockbox_joint m noise <$> seq 0 n)).
  { rewrite length_fmap, length_seq. reflexivity. }
  rewrite stepped_all, <- list_fmap_compose.
  apply list_fmap_ext. intros i x _. cbn [compose].
  rewrite decide_False by lia. apply lockbox_joint_rests.
Qed.

Lemma lockbox_inform m noise g n t dt k :
  (forall i, 10 <= m i) ->
  (S k < n)%nat ->
  inform dt k (lockbox_after m noise g n t k)
  = (Ret tt, lockbox_after m noise g n t (S k), [CListenerStep k t dt; CLock (S k)]).
Proof.
  intros Hm Hk. rewrite inform_eq. unfold World.listener_step.
  set (w := lockbox_after m noise g n t k).
  assert (El : World.listeners w !! k = Some (lockbox_locker m k)).
  { unfold w. cbn [lockbox_after World.listeners].
    rewrite list_lookup_fmap, lookup_seq_lt by lia. reflexivity. }
  assert (Ea : exists a, World.joints w !! k = Some a /\ Joint.q a = 0).
  { unfold w. cbn [lockbox_after World.joints].
    rewrite list_lookup_fmap, lookup_seq_lt by lia. cbn [fmap option_fmap option_map].
    eexists. split; [reflexivity|]. destruct (decide _); reflexivity. }
  destruct Ea as (a & Ea & Hq).
  assert (Eb : World.joints w !! S k = Some (lockbox_joint m noise (S k))).
  { unfold w. cbn [lockbox_after World.joints].
    rewrite list_lookup_fmap, lookup_seq_lt by lia. cbn [fmap option_fmap option_map].
    rewrite decide_False by lia. reflexivity. }
  erewrite bind_quiet by (apply listener_ref_eq, El).
  unfold lockbox_locker at 1. cbv beta iota. cbn [MultiLocker.locker MultiLocker.locked].
  erewrite bind_quiet by (apply joint_ref_eq, Ea).
  rewrite Hq.
  erewrite at_joint_eq; [|exact Eb|].
  2:{ rewrite MultiLocker_step_eq. cbv zeta. cbn [MultiLocker.locks MultiLocker.locked].
      assert (MultiLocker.should_be_locked [(0, m k - 10); (m k + 10, 180)] 0 = true) as ->.
      { apply should_be_locked_iff. left. cbn [fst snd]. specialize (Hm k). lra. }
      reflexivity. }
  unfold w.
  unfold logged. cbn [fst snd]. f_equal. f_equal.
  unfold lockbox_after, World.set_joints. cbn [World.joints World.listeners World.time
    World.random]. f_equal.
  apply list_eq. intros i.
  destruct (decide (i = S k)) as [->|Hne].
  - rewrite list_lookup_insert_eq by (rewrite length_fmap, length_seq; lia).
    rewrite list_lookup_fmap, lookup_seq_lt by lia. cbn [fmap option_fmap option_map].
    rewrite decide_True by lia. reflexivity.
  - rewrite list_lookup_insert_ne by congruence.
    rewrite !list_lookup_fmap.
    destruct (decide (i < n)%nat) as [Hi|Hi].
    + rewrite lookup_seq_lt by lia. cbn [fmap option_fmap option_map].
      destruct (decide (1 <= 0 + i <= k)%nat), (decide (1 <= 0 + i <= S k)%nat);
        try reflexivity; lia.
    + rewrite lookup_seq_ge by lia. reflexivity.
Qed.

Lemma lockbox_inform_loop m noise g n t dt c : forall a,
  (forall i, 10 <= m i) ->
  (a + c <= n - 1)%nat ->
  exists h,
    for_each (seq a c) (inform dt) (lockbox_after m noise g n t a)
    = (Ret tt, lockbox_after m noise g n t (a + c), h).
Proof.
  induction c as [|c IH]; intros a Hm Hle.
  - exists []. rewrite Nat.add_0_r. reflexivity.
  - cbn [seq for_each].
    destruct (IH (S a) Hm) as [h E]; [lia|].
    erewrite bind_cases by (apply lockbox_inform; [exact Hm | lia]).
    cbv beta iota. rewrite E. cbn [result_of state_of calls_of fst snd].
    eexists. replace (a + S c)%nat with (S a + c)%nat by lia. reflexivity.
Qed.

(** X30: the first tick of a fresh lockbox whose draws are at least 10 (as
    those of [random.randint(10, 170)] are) returns and leaves every
    joint at position 0, joint 0 unlocked and every other joint
    locked. *)
Theorem the_first_tick_locks_every_joint_but_the_first
    (m : nat -> R) (noise : noise_t) (g : Random.t) (n : nat) (dt : R) :
  (forall i, 10 <= m i) ->
  let x := World.step dt (lockbox_of m noise g n) in
  result_of x = Ret tt /\
  World.joints (state_of x)
  = (fun i => if decide (i = 0)%nat then lockbox_joint m noise i
              else Joint.lock (lockbox_joint m noise i)) <$> seq 0 n /\
  (forall i j, World.joints (state_of x) !! i = Some j ->
     Joint.q j = 0 /\ (Joint.locked j = true <-> i <> 0%nat)).
Proof.
  intros Hm. cbv zeta.
  destruct (World_step_phases dt (lockbox_of m noise g n)) as (n' & _ & _ & Hfin).
  cbv zeta in Hfin. destruct (Hfin (lockbox_of_wf m noise g n)) as [Hn' E].
  assert (n' = n) as ->.
  { rewrite Hn'. cbn [lockbox_of World.joints]. rewrite length_fmap, length_seq.
    reflexivity. }
  rewrite E. cbn [result_of state_of fst snd].
  rewrite lockbox_midway, inform_listeners_eq.
  cbn [lockbox_after World.listeners]. rewrite length_fmap, length_seq.
  destruct (lockbox_inform_loop m noise g n (0 + dt) dt (n - 1) 0 Hm) as [h Eh]; [lia|].
  fold (lockbox_after m noise g n (0 + dt) 0). rewrite Eh.
  cbn [fst snd lockbox_after World.joints].
  assert (Ejs : ((fun i => if decide (1 <= i <= n - 1)%nat
                           then Joint.lock (lockbox_joint m noise i)
                           else lockbox_joint m noise i) <$> seq 0 n)
                = ((fun i => if decide (i = 0)%nat then lockbox_joint m noise i
                             else Joint.lock (lockbox_joint m noise i)) <$> seq 0 n)).
  { apply list_fmap_ext. intros k i Hi. apply lookup_seq in Hi as [-> Hlt].
    destruct (decide (1 <= 0 + k <= n - 1)%nat), (decide (0 + k = 0)%nat);
      try reflexivity; lia. }
  change (0 + (n - 1))%nat with (n - 1)%nat.
  unfold result_of, state_of. cbn [fst snd lockbox_after World.joints].
  rewrite Ejs. split; [reflexivity|]. split; [reflexivity|].
  intros i j Hij. rewrite list_lookup_fmap in Hij.
  destruct (seq 0 n !! i) as [i'|] eqn:Ei; [|discriminate].
  apply lookup_seq in Ei as [Ei' _]. cbn in Ei'. subst i'.
  cbn [fmap option_fmap option_map] in Hij. injection Hij as <-.
  destruct (decide (i = 0)%nat) as [Hi|Hi].
  - split; [reflexivity|]. split; [cbn; intros H; discriminate | intros H; contradiction].
  - split; [reflexivity|]. split; [intros _; exact Hi | reflexivity].
Qed.

Lemma the_first_tick_locks_every_joint_but_the_first_witness :
  result_of (World.step 0.1 (lockbox_of (fun _ => 90) quiet calm 5)) = Ret tt.
Proof.
  apply (the_first_tick_locks_every_joint_but_the_first (fun _ => 90) quiet calm 5 0.1).
  intros _. lra.
Defined.

(** ** The first tick of the lockbox with its controllers *)

Lemma in_turn_next k l rest dt w w1 h :
  World.listeners w !! k = Some l ->
  step_of_listener k l dt w = (Ret tt, w1, h) ->
  state_of (listeners_in_turn dt (k :: rest) w) = state_of (listeners_in_turn dt rest w1).
Proof.
  intros El E. cbn [listeners_in_turn]. cbv zeta. rewrite El, E. reflexivity.
Qed.

Lemma idle_controller_in_turn k c dt w j :
  World.listeners w !! k = Some (LController c) ->
  World.joints w !! Controller.joint c = Some j ->
  Controller.is_done c = true ->
  0 <= Controller.max_force c ->
  Joint.locked j = true \/ Joint.max_vel j = Infinity ->
  step_of_listener k (LController c) dt w
  = (Ret tt, w, [CAddForce (Controller.joint c) 0]).
Proof.
  intros El Ej Hd Hmax Hj. cbn [step_of_listener]. rewrite Ej. cbv zeta.
  rewrite Controller_step_idle by assumption.
  cbn [result_of state_of calls_of fst snd forget Controller.on_joint_obj
       Controller.self Controller.joint_obj Controller.rand].
  rewrite add_force_0 by (destruct Hj; [left | right; left]; assumption).
  rewrite !list_insert_id by assumption.
  destruct w; reflexivity.
Qed.

Lemma lockbox_mid :
  midway 0.1 (length (World.joints lockbox)) lockbox
  = World.mk [Joint.set_index 0 handle; Joint.set_index 1 window]
      (World.listeners lockbox) (0 + 0.1) calm.
Proof.
  unfold midway. rewrite stepped_all.
  change (World.joints lockbox) with [Joint.set_index 0 handle; Joint.set_index 1 window].
  cbn [fmap list_fmap].
  rewrite !Joint_step_at_rest; try reflexivity.
  - intros [[m [E H]]|[m [E H]]]; cbn in E; injection E as <-; cbn in H; lra.
  - intros [[m [E H]]|[m [E H]]]; cbn in E; injection E as <-; cbn in H; lra.
Qed.

Lemma lockbox_listeners_in_turn :
  state_of (listeners_in_turn 0.1 [0; 1; 2]%nat
              (midway 0.1 (length (World.joints lockbox)) lockbox))
  = World.mk [Joint.set_index 0 handle; Joint.lock (Joint.set_index 1 window)]
      (World.listeners lockbox) (0 + 0.1) calm.
Proof.
  rewrite lockbox_mid.
  erewrite in_turn_next; [|reflexivity|].
  2:{ cbn [step_of_listener MultiLocker.locker MultiLocker.locked World.joints
           lookup list_lookup].
      cbv zeta. rewrite MultiLocker_step_eq. cbv zeta.
      assert (MultiLocker.should_be_locked [(0, 80); (100, 180)]
                (Joint.q (Joint.set_index 0 handle)) = true) as Hs.
      { apply should_be_locked_iff. left. cbn. lra. }
      cbn [MultiLocker.locks]. rewrite Hs. reflexivity. }
  erewrite in_turn_next; [|reflexivity|].
  2:{ apply (idle_controller_in_turn 1 (Controller.init 0) 0.1 _ (Joint.set_index 0 handle));
        try reflexivity; [cbn; lra | right; reflexivity]. }
  erewrite in_turn_next; [|reflexivity|].
  2:{ apply (idle_controller_in_turn 2 (Controller.init 1) 0.1 _
               (Joint.lock (Joint.set_index 1 window)));
        try reflexivity; [cbn; lra | left; reflexivity]. }
  reflexivity.
Qed.

Lemma joints_step_before_listeners_witness :
  result_of (World.step 0.1 lockbox) = Ret tt /\
  state_of (World.step 0.1 lockbox)
    = World.mk [Joint.set_index 0 handle; Joint.lock (Joint.set_index 1 window)]
        (World.listeners lockbox) (0 + 0.1) calm /\
  List.filter is_listener_step (calls_of (World.step 0.1 lockbox))
    = listener_steps (0 + 0.1) 0.1 0 3.
Proof.
  destruct (joints_step_before_listeners 0.1 lockbox) as (_ & Hcalls & Hwf & _).
  destruct (Hwf eq_refl) as (Hr & _ & _ & _ & _ & Hs & _).
  split; [exact Hr|].
  split; [rewrite Hs; apply lockbox_listeners_in_turn|].
  destruct Hcalls as (n & m & hl & Hc & _ & _ & _ & Hl & _ & Hret).
  destruct (Hret Hr) as [_ ->]. rewrite Hc.
  cbn [List.filter is_world_step is_listener_step].
  rewrite List.filter_app, filter_joint_steps by reflexivity.
  exact Hl.
Defined.
